(** * Ensemble: the playback engine, its sample cache, the signatures of
      the measures and the rests

    A shallow embedding of
      - [renderer.js]: [DUR_TO_BEATS], [getEffectiveSignature],
        [REST_DURATIONS], [restPosition], [pushRests];
      - [playback.js]: [pitchToSampleKey], [pitchToFreq], [SampleCache],
        [PlaybackEngine];
      - [server.js]: the routes [PUT] and [DELETE
        /api/measure-signature/:measure] and the measure signatures of
        [GET /api/score].

    Numbers.  A JavaScript number is an IEEE double.  Here a number is an
    exact rational, or one of the three non-finite values; rounding and the
    sign of zero are not modelled, so every statement about a time is a
    statement about the exact value that the double approximates.  Where
    the code compares two numbers a thousandth apart, or closer, the
    outcome in doubles can differ from the exact one: the loop that sums
    the lengths of the measures ([Binary64]) and the comparisons of the
    envelope and of the rests ([Doubles]) are given a second time in
    binary64, to show on concrete inputs what rounding does, and the
    statements about those comparisons leave a margin that rounding does
    not cross.

    Asynchrony.  [play] is an [async] function with one [await]; it is split
    at that point into [play_begin] and [play_resume], and the browser's
    event loop is a labelled transition system ([step]) whose labels are the
    calls of the page, the settling of a fetch, the resumption of a
    suspended [play], the firing of an animation frame, and the push of a
    note onto the notes array of the score by the page.

    Objects.  The score that [play] is given is an object of the page,
    and its notes are an array that the page goes on pushing onto; a
    suspended call holds the array, not a copy, and reads it again when
    it resumes. *)

From Stdlib Require Import QArith Lqa Ascii String Uint63 PrimFloat FloatOps.
From stdpp Require Import gmap strings list sorting.

Local Open Scope string_scope.
Local Open Scope Z_scope.

(** ** JavaScript values *)

Module Js.

(** A number: finite, [Infinity], [-Infinity] or [NaN]. *)
Inductive num : Type :=
  | Fin (q : Q)
  | PInf
  | NInf
  | NaN.

(** The same number: two finite numbers of equal value, or the same
    non-finite one. *)
Definition num_eq (a b : num) : Prop :=
  match a, b with
  | Fin x, Fin y => (x == y)%Q
  | PInf, PInf | NInf, NInf | NaN, NaN => True
  | _, _ => False
  end.

Definition is_zero (q : Q) : bool := Qeq_bool q 0.
Definition is_pos (q : Q) : bool := negb (Qle_bool q 0).

Definition nneg (a : num) : num :=
  match a with
  | Fin x => Fin (- x)
  | PInf => NInf
  | NInf => PInf
  | NaN => NaN
  end.

Definition nadd (a b : num) : num :=
  match a, b with
  | NaN, _ | _, NaN => NaN
  | Fin x, Fin y => Fin (x + y)
  | PInf, NInf | NInf, PInf => NaN
  | PInf, _ | _, PInf => PInf
  | NInf, _ | _, NInf => NInf
  end.

Definition nsub (a b : num) : num := nadd a (nneg b).

(** The infinity of the given sign. *)
Definition inf_signed (positive : bool) : num := if positive then PInf else NInf.

Definition nmul (a b : num) : num :=
  match a, b with
  | NaN, _ | _, NaN => NaN
  | Fin x, Fin y => Fin (x * y)
  | Fin x, PInf | PInf, Fin x => if is_zero x then NaN else inf_signed (is_pos x)
  | Fin x, NInf | NInf, Fin x => if is_zero x then NaN else inf_signed (negb (is_pos x))
  | PInf, PInf | NInf, NInf => PInf
  | PInf, NInf | NInf, PInf => NInf
  end.

Definition ndiv (a b : num) : num :=
  match a, b with
  | NaN, _ | _, NaN => NaN
  | Fin x, Fin y =>
      if is_zero y then (if is_zero x then NaN else inf_signed (is_pos x))
      else Fin (x / y)
  | Fin _, _ => Fin 0
  | PInf, Fin y => inf_signed (is_pos y || is_zero y)
  | NInf, Fin y => inf_signed (negb (is_pos y || is_zero y))
  | _, _ => NaN
  end.

(** [a <= b]; every comparison with [NaN] is false. *)
Definition nle (a b : num) : bool :=
  match a, b with
  | NaN, _ | _, NaN => false
  | Fin x, Fin y => Qle_bool x y
  | NInf, _ | _, PInf => true
  | _, _ => false
  end.

Definition nge (a b : num) : bool := nle b a.
Definition nlt (a b : num) : bool :=
  match a, b with
  | NaN, _ | _, NaN => false
  | _, _ => negb (nle b a)
  end.
Definition ngt (a b : num) : bool := nlt b a.

(** [Math.min] and [Math.max] of two numbers. *)
Definition Math_min (a b : num) : num :=
  match a, b with
  | NaN, _ | _, NaN => NaN
  | _, _ => if nle a b then a else b
  end.

Definition Math_max (a b : num) : num :=
  match a, b with
  | NaN, _ | _, NaN => NaN
  | _, _ => if nle a b then b else a
  end.

(** Truthiness: [0] and [NaN] are falsy; [null], [undefined] and the empty
    string are falsy. *)
Definition truthy_num (a : num) : bool :=
  match a with
  | Fin x => negb (is_zero x)
  | NaN => false
  | _ => true
  end.

Definition truthy_str (s : string) : bool :=
  match s with
  | EmptyString => false
  | _ => true
  end.

Definition truthy_opt {A} (t : A -> bool) (o : option A) : bool :=
  match o with
  | Some a => t a
  | None => false
  end.

(** [a || b] on a value that may be [undefined]. *)
Definition or_else {A} (t : A -> bool) (o : option A) (d : A) : A :=
  match o with
  | Some a => if t a then a else d
  | None => d
  end.

Definition isDigit (c : ascii) : bool :=
  let n := N_of_ascii c in ((48 <=? n) && (n <=? 57))%N.

Definition digitVal (c : ascii) : Z := Z.of_N (N_of_ascii c) - 48.

(** *** [Number(s)]

    The string is read as the bytes of its UTF-8 form.  White space and
    line terminators are stripped from both ends; what is left is the
    empty string ([0]), [Infinity] with an optional sign, a decimal
    literal (optional sign, digits with an optional fraction, optional
    exponent) or a binary, octal or hexadecimal integer ([0b], [0o],
    [0x], no sign); any other string is [NaN].  The value is the exact
    one: it is not rounded to a double (a literal beyond the range of
    doubles is finite here, [Infinity] in the code), and [-0] is [0]. *)

(** A run of decimal digits, read from the left onto [acc]. *)
Fixpoint digitsVal (acc : Z) (s : string) : option Z :=
  match s with
  | EmptyString => Some acc
  | String c r => if isDigit c then digitsVal (10 * acc + digitVal c) r else None
  end.

(** TAB, LF, VT, FF, CR and the space. *)
Definition isWhiteSpace1 (c : ascii) : bool :=
  let n := N_of_ascii c in (((9 <=? n) && (n <=? 13)) || (n =? 32))%N.

(** U+00A0, in two bytes. *)
Definition isWhiteSpace2 (c1 c2 : ascii) : bool :=
  ((N_of_ascii c1 =? 194) && (N_of_ascii c2 =? 160))%N.

(** U+1680, U+2000 to U+200A, U+2028, U+2029, U+202F, U+205F, U+3000 and
    U+FEFF, in three bytes. *)
Definition isWhiteSpace3 (c1 c2 c3 : ascii) : bool :=
  let a := N_of_ascii c1 in
  let b := N_of_ascii c2 in
  let c := N_of_ascii c3 in
  (((a =? 225) && (b =? 154) && (c =? 128))
   || ((a =? 226) && (b =? 128)
       && (((128 <=? c) && (c <=? 138)) || (c =? 168) || (c =? 169) || (c =? 175)))
   || ((a =? 226) && (b =? 129) && (c =? 159))
   || ((a =? 227) && (b =? 128) && (c =? 128))
   || ((a =? 239) && (b =? 187) && (c =? 191)))%N.

Fixpoint trimStart (s : string) : string :=
  match s with
  | EmptyString => EmptyString
  | String c1 r1 =>
      if isWhiteSpace1 c1 then trimStart r1
      else
        match r1 with
        | EmptyString => s
        | String c2 r2 =>
            if isWhiteSpace2 c1 c2 then trimStart r2
            else
              match r2 with
              | EmptyString => s
              | String c3 r3 => if isWhiteSpace3 c1 c2 c3 then trimStart r3 else s
              end
        end
  end.

Fixpoint trimEnd (s : string) : string :=
  match s with
  | EmptyString => EmptyString
  | String c r =>
      if String.eqb (trimStart s) EmptyString then EmptyString
      else String c (trimEnd r)
  end.

Definition trim (s : string) : string := trimEnd (trimStart s).

(** The digits at the head of [s], read onto [acc]: their value, their
    number added to [count], and the rest of the string. *)
Fixpoint takeDigits (acc : Z) (count : nat) (s : string) : Z * nat * string :=
  match s with
  | EmptyString => (acc, count, s)
  | String c r =>
      if isDigit c then takeDigits (10 * acc + digitVal c) (S count) r
      else (acc, count, s)
  end.

(** The value of a digit of a binary, octal or hexadecimal literal. *)
Definition radixDigit (radix : Z) (c : ascii) : option Z :=
  let n := Z.of_N (N_of_ascii c) in
  let v :=
    if (48 <=? n) && (n <=? 57) then Some (n - 48)
    else if (97 <=? n) && (n <=? 102) then Some (n - 87)
    else if (65 <=? n) && (n <=? 70) then Some (n - 55)
    else None in
  match v with
  | Some d => if d <? radix then Some d else None
  | None => None
  end.

Fixpoint radixVal (radix acc : Z) (s : string) : option Z :=
  match s with
  | EmptyString => Some acc
  | String c r =>
      match radixDigit radix c with
      | Some d => radixVal radix (radix * acc + d) r
      | None => None
      end
  end.

(** [0b...], [0o...] or [0x...], with at least one digit. *)
Definition nonDecimalLiteral (s : string) : option Z :=
  match s with
  | String "0" (String p (String c r)) =>
      let radix :=
        if Ascii.eqb p "b" || Ascii.eqb p "B" then Some 2
        else if Ascii.eqb p "o" || Ascii.eqb p "O" then Some 8
        else if Ascii.eqb p "x" || Ascii.eqb p "X" then Some 16
        else None in
      match radix with
      | Some k => radixVal k 0 (String c r)
      | None => None
      end
  | _ => None
  end.

(** The exponent part: nothing, or [e] or [E], an optional sign and at
    least one digit. *)
Definition exponentPart (s : string) : option Z :=
  match s with
  | EmptyString => Some 0
  | String e r =>
      if Ascii.eqb e "e" || Ascii.eqb e "E" then
        let '(negative, digits) :=
          match r with
          | String "+" d => (false, d)
          | String "-" d => (true, d)
          | _ => (false, r)
          end in
        match digits with
        | EmptyString => None
        | _ =>
            match digitsVal 0 digits with
            | Some z => Some (if negative then - z else z)
            | None => None
            end
        end
      else None
  end.

(** Digits with an optional fraction, or a fraction alone, and an optional
    exponent. *)
Definition unsignedDecimal (s : string) : option Q :=
  let '(int, n1, r1) := takeDigits 0 0 s in
  let '(mantissa, n2, r2) :=
    match r1 with
    | String "." r => takeDigits int 0 r
    | _ => (int, 0%nat, r1)
    end in
  if (n1 + n2 =? 0)%nat then None
  else
    match exponentPart r2 with
    | Some e => Some (inject_Z mantissa * Qpower 10 (e - Z.of_nat n2))%Q
    | None => None
    end.

Definition strDecimalLiteral (s : string) : option num :=
  let '(negative, u) :=
    match s with
    | String "+" r => (false, r)
    | String "-" r => (true, r)
    | _ => (false, s)
    end in
  if String.eqb u "Infinity" then Some (if negative then NInf else PInf)
  else
    match unsignedDecimal u with
    | Some q => Some (Fin (if negative then - q else q))
    | None => None
    end.

Definition Number (s : string) : num :=
  let t := trim s in
  match t with
  | EmptyString => Fin 0
  | _ =>
      match nonDecimalLiteral t with
      | Some z => Fin (inject_Z z)
      | None =>
          match strDecimalLiteral t with
          | Some v => v
          | None => NaN
          end
      end
  end.

(** *** Tables written as object literals *)

(** The names that an object literal inherits from [Object.prototype]:
    looking one of them up in a table gives the inherited member (a
    function or, for [__proto__], an object), not [undefined]. *)
Definition inherited_names : list string :=
  [ "constructor"; "__proto__"; "hasOwnProperty"; "isPrototypeOf";
    "propertyIsEnumerable"; "toLocaleString"; "toString"; "valueOf";
    "__defineGetter__"; "__defineSetter__"; "__lookupGetter__";
    "__lookupSetter__" ].

Definition inherited (k : string) : bool :=
  existsb (String.eqb k) inherited_names.

(** [table[k] || d], as the number that it is in the product that the
    code forms with it: the table's own entry when it is truthy; [NaN]
    for an inherited name, whose member is truthy and converts to [NaN];
    [d] otherwise.  The table gives its own entries. *)
Definition table_or (table : string -> option num) (k : string) (d : num) : num :=
  match table k with
  | Some v => if truthy_num v then v else d
  | None => if inherited k then NaN else d
  end.

(** [s.split(sep)[0]]: the part of [s] before the first [sep]. *)
Fixpoint split_head (sep : ascii) (s : string) : string :=
  match s with
  | EmptyString => EmptyString
  | String c r => if Ascii.eqb c sep then EmptyString else String c (split_head sep r)
  end.

End Js.

Import Js.

(** ** The score as the server returns it *)

Record Score := {
  title : string;
  key_signature : string;
  time_signature : string;
  tempo : num;
  total_measures : Z
}.

(** A row of [measure_signatures]; a [NULL] column is [None]. *)
Record MeasureSignature := {
  ms_measure : Z;
  ms_key_signature : option string;
  ms_time_signature : option string;
  ms_tempo : option num
}.

Record Note := {
  note_id : string;
  instrument_id : string;
  pitch : string;
  measure : Z;
  beat : num;
  duration : string;
  is_rest : Z;
  dynamic : option string;
  vibrato : Z
}.

Record ScoreData := {
  score : Score;
  notes : list Note;
  measureSignatures : list MeasureSignature
}.

(** ** renderer.js *)

Module Renderer.

(** The table's own entries.  The code looks a duration up as
    [DUR_TO_BEATS[d] || 1]: see [table_or] for the names that the object
    inherits. *)
Definition DUR_TO_BEATS (d : string) : option num :=
  if String.eqb d "whole" then Some (Fin 4)
  else if String.eqb d "half" then Some (Fin 2)
  else if String.eqb d "quarter" then Some (Fin 1)
  else if String.eqb d "eighth" then Some (Fin 0.5)
  else if String.eqb d "sixteenth" then Some (Fin 0.25)
  else None.

Record Signature := { key : string; time : string; sig_tempo : num }.

(** One turn of the loop of [getEffectiveSignature]. *)
Definition applySignature (target : Z) (acc : Signature) (s : MeasureSignature)
  : Signature :=
  if (ms_measure s <=? target)%Z then
    {| key := or_else truthy_str (ms_key_signature s) (key acc);
       time := or_else truthy_str (ms_time_signature s) (time acc);
       sig_tempo := or_else truthy_num (ms_tempo s) (sig_tempo acc) |}
  else acc.

Definition getEffectiveSignature (m : Z) (sd : ScoreData) : Signature :=
  fold_left (applySignature m) (measureSignatures sd)
    {| key := key_signature (score sd);
       time := time_signature (score sd);
       sig_tempo := tempo (score sd) |}.

End Renderer.

(** ** playback.js: tables and pitch names *)

Module Playback.

Import Renderer.

Definition INST_TO_SOUNDFONT (i : string) : option string :=
  if String.eqb i "violin1" then Some "violin"
  else if String.eqb i "violin2" then Some "violin"
  else if String.eqb i "viola" then Some "viola"
  else if String.eqb i "cello" then Some "cello"
  else if String.eqb i "contrabass" then Some "contrabass"
  else None.

Definition SHARP_TO_FLAT (k : string) : option string :=
  if String.eqb k "C#" then Some "Db"
  else if String.eqb k "D#" then Some "Eb"
  else if String.eqb k "F#" then Some "Gb"
  else if String.eqb k "G#" then Some "Ab"
  else if String.eqb k "A#" then Some "Bb"
  else None.

Definition isNoteLetter (c : ascii) : bool :=
  let n := N_of_ascii c in ((65 <=? n) && (n <=? 71))%N.

Definition isAccidental (c : ascii) : bool :=
  Ascii.eqb c "#" || Ascii.eqb c "b".

(** [pitch.match(/^([A-G])(#|b)?(\d)$/)]: the three groups, the second
    [None] when the optional group took nothing. *)
Definition matchPitch (p : string) : option (ascii * option ascii * ascii) :=
  match p with
  | String l (String d EmptyString) =>
      if isNoteLetter l && isDigit d then Some (l, None, d) else None
  | String l (String a (String d EmptyString)) =>
      if isNoteLetter l && isAccidental a && isDigit d then Some (l, Some a, d)
      else None
  | _ => None
  end.

Definition str1 (c : ascii) : string := String c EmptyString.

Definition pitchToSampleKey (p : string) : string :=
  match matchPitch p with
  | None => "C4"
  | Some (letter, acc, oct) =>
      let plain :=
        str1 letter +:+ match acc with Some a => str1 a | None => "" end +:+ str1 oct in
      match acc with
      | Some a =>
          if Ascii.eqb a "#" then
            match SHARP_TO_FLAT (str1 letter +:+ "#") with
            | Some flat => flat +:+ str1 oct
            | None => plain
            end
          else plain
      | None => plain
      end
  end.

Definition NOTE_SEMITONES (c : ascii) : Z :=
  if Ascii.eqb c "C" then -9
  else if Ascii.eqb c "D" then -7
  else if Ascii.eqb c "E" then -5
  else if Ascii.eqb c "F" then -4
  else if Ascii.eqb c "G" then -2
  else if Ascii.eqb c "A" then 0
  else 2.

(** A frequency is the literal [440], or [440 * Math.pow(2, s / 12)], kept
    as its number [s] of semitones from A4: the power is irrational for
    most [s]. *)
Inductive Freq : Type :=
  | Hz (q : Q)
  | Tempered (semitones : Z).

Definition pitchToFreq (p : string) : Freq :=
  match matchPitch p with
  | None => Hz 440
  | Some (note, acc, oct) =>
      let semitones := NOTE_SEMITONES note + (digitVal oct - 4) * 12 in
      let semitones :=
        match acc with
        | Some a => if Ascii.eqb a "#" then semitones + 1 else semitones
        | None => semitones
        end in
      let semitones :=
        match acc with
        | Some a => if Ascii.eqb a "b" then semitones - 1 else semitones
        | None => semitones
        end in
      Tempered semitones
  end.

Definition DYNAMIC_GAIN (d : string) : option num :=
  if String.eqb d "pp" then Some (Fin 0.3)
  else if String.eqb d "p" then Some (Fin 0.5)
  else if String.eqb d "mp" then Some (Fin 0.7)
  else if String.eqb d "mf" then Some (Fin 1)
  else if String.eqb d "f" then Some (Fin 1.3)
  else if String.eqb d "ff" then Some (Fin 1.6)
  else None.

Definition SCHEDULE_AHEAD : num := Fin 0.12.

Definition INST_GAIN (i : string) : option num :=
  if String.eqb i "violin1" then Some (Fin 0.9)
  else if String.eqb i "violin2" then Some (Fin 0.85)
  else if String.eqb i "viola" then Some (Fin 0.9)
  else if String.eqb i "cello" then Some (Fin 1)
  else if String.eqb i "contrabass" then Some (Fin 1.1)
  else None.

(** ** playback.js: SampleCache *)

(** [_cache] maps a cache key to the decoded sample (named here by its
    URL); [_pending] maps a cache key to the promise of the load in
    flight.  A promise is the index of its fetch in the browser's list of
    the fetches issued. *)
Record SampleCache := {
  _cache : gmap string string;
  _pending : gmap string nat
}.

Definition SAMPLE_BASE : string :=
  "https://gleitz.github.io/midi-js-soundfonts/FluidR3_GM".

Definition sample_url (sfInst sampleKey : string) : string :=
  SAMPLE_BASE +:+ "/" +:+ sfInst +:+ "-mp3/" +:+ sampleKey +:+ ".mp3".

Definition soundfont_of (instrumentId : string) : string :=
  or_else truthy_str (INST_TO_SOUNDFONT instrumentId) "violin".

Definition cacheKey_of (n : Note) : string :=
  soundfont_of (instrument_id n) +:+ ":" +:+ pitchToSampleKey (pitch n).

(** The network: the cache key and URL of every fetch issued so far, in
    order of issue. *)
Record Fetch := { fetch_key : string; fetch_url : string }.

(** [_load], up to the first [await]: the promise it returns, and the
    fetch it issues when no load of the key is in flight. *)
Definition _load (c : SampleCache) (net : list Fetch)
    (sfInst sampleKey cacheKey : string) : SampleCache * list Fetch * nat :=
  match _pending c !! cacheKey with
  | Some promise => (c, net, promise)
  | None =>
      let promise := length net in
      ({| _cache := _cache c; _pending := <[cacheKey := promise]> (_pending c) |},
       (net ++ [{| fetch_key := cacheKey; fetch_url := sample_url sfInst sampleKey |}])%list,
       promise)
  end.

(** [_load], after its [await]s: the fetch of [cacheKey] has succeeded and
    been decoded ([ok]) or has failed; in both cases the entry in flight
    is removed. *)
Definition _load_settle (c : SampleCache) (f : Fetch) (ok : bool) : SampleCache :=
  {| _cache := if ok then <[fetch_key f := fetch_url f]> (_cache c) else _cache c;
     _pending := delete (fetch_key f) (_pending c) |}.

(** The loop of [preload]: [seen] and [jobs] are its two locals. *)
Fixpoint preload_loop (ns : list Note) (seen : gset string) (jobs : list nat)
    (c : SampleCache) (net : list Fetch) : SampleCache * list Fetch * list nat :=
  match ns with
  | [] => (c, net, jobs)
  | n :: rest =>
      if negb (is_rest n =? 0) then preload_loop rest seen jobs c net
      else
        let sfInst := soundfont_of (instrument_id n) in
        let sampleKey := pitchToSampleKey (pitch n) in
        let cacheKey := sfInst +:+ ":" +:+ sampleKey in
        if bool_decide (cacheKey ∈ seen) || bool_decide (is_Some (_cache c !! cacheKey))
        then preload_loop rest seen jobs c net
        else
          let '(c', net', promise) := _load c net sfInst sampleKey cacheKey in
          preload_loop rest ({[cacheKey]} ∪ seen) (jobs ++ [promise])%list c' net'
  end.

(** [preload], up to [await Promise.all(jobs)]. *)
Definition preload (c : SampleCache) (net : list Fetch) (ns : list Note)
  : SampleCache * list Fetch * list nat :=
  preload_loop ns ∅ [] c net.

Definition SampleCache_get (c : SampleCache) (instrumentId pitch : string)
  : option string :=
  _cache c !! (soundfont_of instrumentId +:+ ":" +:+ pitchToSampleKey pitch).

(** ** playback.js: the audio nodes of one note *)

Inductive AutomationEvent : Type :=
  | setValueAtTime (value at_time : num)
  | linearRampToValueAtTime (value at_time : num)
  | exponentialRampToValueAtTime (value at_time : num).

(** What the low-frequency oscillator drives. *)
Inductive LfoTarget : Type := Detune | Frequency.

(** The nodes that are started and pushed on [scheduledNodes]. *)
Inductive NodeKind : Type :=
  | BufferSource (buffer : string)
  | Oscillator (frequency : Freq)
  | Lfo (target : LfoTarget).

(** A started node, with the automation of the gain node it feeds
    ([noteGain] for a source or an oscillator, [lfoGain] for an LFO), the
    times given to [start] and [stop], and whether [stop()] has been
    called on it since.  [node_note] and [node_session] are ghost fields:
    the note and the call of [play] the node was made for. *)
Record AudioNode := {
  node_kind : NodeKind;
  node_gain : list AutomationEvent;
  node_start : num;
  node_stop : num;
  node_note : string;
  node_session : nat;
  node_halted : bool
}.

Definition lfoNode (session : nat) (note : Note) (target : LfoTarget)
    (depth tail : num) (startTime duration : num) : AudioNode :=
  {| node_kind := Lfo target;
     node_gain :=
       [ setValueAtTime (Fin 0) startTime;
         linearRampToValueAtTime depth
           (nadd startTime (Math_min (Fin 0.4) (nmul duration (Fin 0.5)))) ];
     node_start := startTime;
     node_stop := nadd (nadd startTime duration) tail;
     node_note := note_id note;
     node_session := session;
     node_halted := false |}.

(** [_scheduleNote]: the nodes it pushes on [scheduledNodes], in order.
    The gains and the times of the envelope are exact here; in doubles a
    product or a sum can fall on the other side of a bound that it meets
    exactly ([Doubles]). *)
Definition _scheduleNote (samples : SampleCache) (session : nat) (note : Note)
    (startTime duration : num) : list AudioNode :=
  let dynGain :=
    match dynamic note with
    | Some d => table_or DYNAMIC_GAIN d (Fin 1)
    | None => Fin 1
    end in
  let instGain := table_or INST_GAIN (instrument_id note) (Fin 1) in
  let totalGain := nmul dynGain instGain in
  let useVibrato := vibrato note =? 1 in
  match SampleCache_get samples (instrument_id note) (pitch note) with
  | Some buffer =>
      let attack := Math_min (Fin 0.06) (nmul duration (Fin 0.15)) in
      let release := Math_min (Fin 0.2) (nmul duration (Fin 0.3)) in
      let sustainStart := nadd startTime attack in
      let releaseStart := nsub (nadd startTime duration) release in
      let source :=
        {| node_kind := BufferSource buffer;
           node_gain :=
             [ setValueAtTime (Fin 0.001) startTime;
               exponentialRampToValueAtTime totalGain sustainStart;
               setValueAtTime totalGain sustainStart;
               exponentialRampToValueAtTime
                 (Math_max (nmul totalGain (Fin 0.85)) (Fin 0.001)) releaseStart;
               exponentialRampToValueAtTime (Fin 0.001) (nadd startTime duration) ];
           node_start := startTime;
           node_stop := nadd (nadd startTime duration) (Fin 0.1);
           node_note := note_id note;
           node_session := session;
           node_halted := false |} in
      (if useVibrato
       then [lfoNode session note Detune (Fin 12) (Fin 0.1) startTime duration]
       else []) ++ [source]
  | None =>
      let osc :=
        {| node_kind := Oscillator (pitchToFreq (pitch note));
           node_gain :=
             [ setValueAtTime (Fin 0.001) startTime;
               exponentialRampToValueAtTime (nmul totalGain (Fin 0.12))
                 (nadd startTime (Fin 0.05));
               setValueAtTime (nmul totalGain (Fin 0.1))
                 (nsub (nadd startTime duration) (Fin 0.1));
               exponentialRampToValueAtTime (Fin 0.001) (nadd startTime duration) ];
           node_start := startTime;
           node_stop := nadd (nadd startTime duration) (Fin 0.05);
           node_note := note_id note;
           node_session := session;
           node_halted := false |} in
      (if useVibrato
       then [lfoNode session note Frequency (Fin 3) (Fin 0.05) startTime duration]
       else []) ++ [osc]
  end%list.

(** ** playback.js: PlaybackEngine *)

(** The two callbacks are set by the page or left [null]; a field says
    which, and each call made is appended to the browser's list [calls]. *)
Inductive Callback : Type :=
  | MeasureChange (m : Z)
  | PlaybackTick (m : Z) (beatFraction : num)
  | PlaybackStopped.

(** The fields that the constructor leaves undefined ([_lastPlayMeasure],
    the two tables, [_totalDuration]) hold a default until [play] sets
    them; nothing reads them before.  Left out: [audioCtx] and
    [_reverbBuf] (made once by [_ensureContext]), the master graph
    ([_compressor], [_reverb], [_dryBus], built by every [play] after its
    [await]) and [_scoreData] (written, never read); the audio context
    appears as the list of the nodes started and as the clock value
    passed to the events that read it. *)
Record PlaybackEngine := {
  playing : bool;
  loading : bool;
  startTime : num;
  startMeasure : Z;
  scheduledNodes : list nat;
  mutedInstruments : gset string;
  soloInstrument : option string;
  onMeasureChange : bool;
  onPlaybackTick : bool;
  _animFrame : option nat;
  _samples : SampleCache;
  _lastPlayMeasure : Z;
  _measureStartTimes : gmap Z num;
  _measureSecPerBeat : gmap Z num;
  _totalDuration : num
}.

Definition newEngine : PlaybackEngine :=
  {| playing := false; loading := false; startTime := Fin 0; startMeasure := 1;
     scheduledNodes := []; mutedInstruments := ∅; soloInstrument := None;
     onMeasureChange := false; onPlaybackTick := false; _animFrame := None;
     _samples := {| _cache := ∅; _pending := ∅ |};
     _lastPlayMeasure := 1; _measureStartTimes := ∅; _measureSecPerBeat := ∅;
     _totalDuration := Fin 0 |}.

(** A call of [play] waiting at [await this._samples.preload(...)]: its
    arguments, its local [playable], the promises that [Promise.all]
    waits for, and whether it has been resumed.

    [scoreData] is an object of the page, and [notes] is its array, not a
    copy: [sus_scoreData] is the object as it is now.  The page pushes
    notes onto the array while the call waits ([Push_note] below), and
    the call reads the array again when it resumes.  [playable] is the
    new array that [filter] made when [play] was called; nothing writes
    it. *)
Record Suspended := {
  sus_scoreData : ScoreData;
  sus_fromMeasure : Z;
  sus_playable : list Note;
  sus_jobs : list nat;
  sus_resumed : bool
}.

(** What the closure [tick] of [_animateMeasure] has captured. *)
Record FrameRequest := {
  fr_scoreData : ScoreData;
  fr_lastMeasure : Z
}.

(** The engine in its page: the audio context's nodes (a node is its index
    in [nodes]), the fetches issued and the promises settled, the calls of
    [play] suspended (a call is its index: the session number), the
    animation frames requested and not yet fired or cancelled, and the
    callbacks called. *)
Record Browser := {
  engine : PlaybackEngine;
  nodes : list AudioNode;
  fetches : list Fetch;
  settled : gset nat;
  suspended : list Suspended;
  frames : gmap nat FrameRequest;
  nextFrame : nat;
  calls : list Callback
}.

Definition newBrowser : Browser :=
  {| engine := newEngine; nodes := []; fetches := []; settled := ∅;
     suspended := []; frames := ∅; nextFrame := 1%nat; calls := [] |}.

Definition set_engine (b : Browser) (e : PlaybackEngine) : Browser :=
  {| engine := e; nodes := nodes b; fetches := fetches b; settled := settled b;
     suspended := suspended b; frames := frames b; nextFrame := nextFrame b;
     calls := calls b |}.

Definition halted (n : AudioNode) : AudioNode :=
  {| node_kind := node_kind n; node_gain := node_gain n; node_start := node_start n;
     node_stop := node_stop n; node_note := node_note n;
     node_session := node_session n; node_halted := true |}.

(** [try { node.stop(); } catch (_) {}] on the node of index [i]. *)
Definition halt (ns : list AudioNode) (i : nat) : list AudioNode :=
  alter halted i ns.

(** [stop()]. *)
Definition stop (b : Browser) : Browser :=
  let e := engine b in
  let cancel :=
    match _animFrame e with
    | Some f => negb (f =? 0)%nat
    | None => false
    end in
  {| engine :=
       {| playing := false; loading := false;
          startTime := startTime e; startMeasure := startMeasure e;
          scheduledNodes := [];
          mutedInstruments := mutedInstruments e; soloInstrument := soloInstrument e;
          onMeasureChange := onMeasureChange e; onPlaybackTick := onPlaybackTick e;
          _animFrame := if cancel then None else _animFrame e;
          _samples := _samples e;
          _lastPlayMeasure := _lastPlayMeasure e;
          _measureStartTimes := _measureStartTimes e;
          _measureSecPerBeat := _measureSecPerBeat e;
          _totalDuration := _totalDuration e |};
     nodes := foldl halt (nodes b) (scheduledNodes e);
     fetches := fetches b;
     settled := settled b;
     suspended := suspended b;
     frames :=
       match _animFrame e with
       | Some f => if cancel then delete f (frames b) else frames b
       | None => frames b
       end;
     nextFrame := nextFrame b;
     calls := (calls b ++ if onPlaybackTick e then [PlaybackStopped] else [])%list |}.

Definition toggleMute (e : PlaybackEngine) (instrumentId : string) : PlaybackEngine :=
  {| playing := playing e; loading := loading e;
     startTime := startTime e; startMeasure := startMeasure e;
     scheduledNodes := scheduledNodes e;
     mutedInstruments :=
       if bool_decide (instrumentId ∈ mutedInstruments e)
       then mutedInstruments e ∖ {[instrumentId]}
       else {[instrumentId]} ∪ mutedInstruments e;
     soloInstrument := soloInstrument e;
     onMeasureChange := onMeasureChange e; onPlaybackTick := onPlaybackTick e;
     _animFrame := _animFrame e; _samples := _samples e;
     _lastPlayMeasure := _lastPlayMeasure e;
     _measureStartTimes := _measureStartTimes e;
     _measureSecPerBeat := _measureSecPerBeat e;
     _totalDuration := _totalDuration e |}.

Definition toggleSolo (e : PlaybackEngine) (instrumentId : string) : PlaybackEngine :=
  {| playing := playing e; loading := loading e;
     startTime := startTime e; startMeasure := startMeasure e;
     scheduledNodes := scheduledNodes e;
     mutedInstruments := mutedInstruments e;
     soloInstrument :=
       if bool_decide (soloInstrument e = Some instrumentId) then None
       else Some instrumentId;
     onMeasureChange := onMeasureChange e; onPlaybackTick := onPlaybackTick e;
     _animFrame := _animFrame e; _samples := _samples e;
     _lastPlayMeasure := _lastPlayMeasure e;
     _measureStartTimes := _measureStartTimes e;
     _measureSecPerBeat := _measureSecPerBeat e;
     _totalDuration := _totalDuration e |}.

(** *** [play], up to its [await] *)

(** [notes.filter(n => !n.is_rest && n.measure >= fromMeasure)] *)
Definition playable (fromMeasure : Z) (n : Note) : bool :=
  (is_rest n =? 0) && (fromMeasure <=? measure n).

Definition play_begin (b : Browser) (scoreData : ScoreData) (fromMeasure : Z)
  : Browser :=
  let b := stop b in
  let e := engine b in
  let playable := filter (λ n, playable fromMeasure n) (notes scoreData) in
  let '(samples, net, jobs) := preload (_samples e) (fetches b) playable in
  {| engine :=
       {| playing := true; loading := true;
          startTime := startTime e; startMeasure := fromMeasure;
          scheduledNodes := scheduledNodes e;
          mutedInstruments := mutedInstruments e; soloInstrument := soloInstrument e;
          onMeasureChange := onMeasureChange e; onPlaybackTick := onPlaybackTick e;
          _animFrame := _animFrame e;
          _samples := samples;
          _lastPlayMeasure := _lastPlayMeasure e;
          _measureStartTimes := _measureStartTimes e;
          _measureSecPerBeat := _measureSecPerBeat e;
          _totalDuration := _totalDuration e |};
     nodes := nodes b;
     fetches := net;
     settled := settled b;
     suspended :=
       (suspended b ++
        [{| sus_scoreData := scoreData; sus_fromMeasure := fromMeasure;
            sus_playable := playable; sus_jobs := jobs; sus_resumed := false |}])%list;
     frames := frames b;
     nextFrame := nextFrame b;
     calls := calls b |}.

(** *** [play], from its [await] on *)

(** The last measure that has a note to play. *)
Definition lastNotesMeasure (fromMeasure : Z) (ns : list Note) : Z :=
  fold_left
    (λ last n,
       if (is_rest n =? 0) && (fromMeasure <=? measure n) && (last <? measure n)
       then measure n else last)
    ns fromMeasure.

(** [mSig.tempo || score.tempo] and [60 / mTempo] *)
Definition measureSecPerBeat (scoreData : ScoreData) (m : Z) : num :=
  let mSig := getEffectiveSignature m scoreData in
  let mTempo :=
    if truthy_num (sig_tempo mSig) then sig_tempo mSig else tempo (score scoreData) in
  ndiv (Fin 60) mTempo.

(** [const [mBeats] = mSig.time.split('/').map(Number)] *)
Definition measureBeats (scoreData : ScoreData) (m : Z) : num :=
  Number (split_head "/" (time (getEffectiveSignature m scoreData))).

(** The loop [for (let m = fromMeasure; m <= lastNotesMeasure; m++)], with
    [n] the number of turns left. *)
Fixpoint measureTimes (scoreData : ScoreData) (n : nat) (m : Z) (cumTime : num)
    (starts secs : gmap Z num) : gmap Z num * gmap Z num * num :=
  match n with
  | O => (starts, secs, cumTime)
  | S n' =>
      let starts := <[m := cumTime]> starts in
      let mSecPerBeat := measureSecPerBeat scoreData m in
      let secs := <[m := mSecPerBeat]> secs in
      let mBeats := measureBeats scoreData m in
      measureTimes scoreData n' (m + 1) (nadd cumTime (nmul mBeats mSecPerBeat))
        starts secs
  end.

Definition timing (scoreData : ScoreData) (fromMeasure last : Z)
  : gmap Z num * gmap Z num * num :=
  measureTimes scoreData (Z.to_nat (last - fromMeasure + 1)) fromMeasure (Fin 0) ∅ ∅.

(** The four tests that open the body of the scheduling loop: [true] when
    the note goes on to [_scheduleNote]. *)
Definition scheduled (e : PlaybackEngine) (fromMeasure : Z) (note : Note) : bool :=
  if negb (is_rest note =? 0) then false
  else if measure note <? fromMeasure then false
  else if truthy_opt truthy_str (soloInstrument e)
          && negb (bool_decide (Some (instrument_id note) = soloInstrument e))
  then false
  else if bool_decide (instrument_id note ∈ mutedInstruments e) then false
  else true.

Definition noteSecPerBeat (e : PlaybackEngine) (sc : Score) (note : Note) : num :=
  or_else truthy_num (_measureSecPerBeat e !! measure note) (ndiv (Fin 60) (tempo sc)).

Definition noteStart (e : PlaybackEngine) (sc : Score) (note : Note) : num :=
  let measureStart := or_else truthy_num (_measureStartTimes e !! measure note) (Fin 0) in
  let secPerBeat := noteSecPerBeat e sc note in
  nadd (nadd (nadd (startTime e) SCHEDULE_AHEAD) measureStart)
       (nmul (nsub (beat note) (Fin 1)) secPerBeat).

Definition noteDur (e : PlaybackEngine) (sc : Score) (note : Note) : num :=
  let durBeats := table_or DUR_TO_BEATS (duration note) (Fin 1) in
  nmul durBeats (noteSecPerBeat e sc note).

(** The arguments of each call of [_scheduleNote], in order. *)
Definition schedule (e : PlaybackEngine) (sc : Score) (fromMeasure : Z)
    (ns : list Note) : list (Note * num * num) :=
  map (λ note, (note, noteStart e sc note, noteDur e sc note))
      (filter (λ note, scheduled e fromMeasure note) ns).

Definition scheduleAll (e : PlaybackEngine) (session : nat)
    (todo : list (Note * num * num)) : list AudioNode :=
  flat_map (λ '(note, start, dur), _scheduleNote (_samples e) session note start dur) todo.

Definition mark_resumed (s : Suspended) : Suspended :=
  {| sus_scoreData := sus_scoreData s; sus_fromMeasure := sus_fromMeasure s;
     sus_playable := sus_playable s; sus_jobs := sus_jobs s; sus_resumed := true |}.

(** The rest of [play] for the suspended call [s] of index [session], run
    when the audio clock reads [currentTime]. *)
Definition play_resume (b : Browser) (session : nat) (s : Suspended)
    (currentTime : num) : Browser :=
  let e := engine b in
  let waiting := alter mark_resumed session (suspended b) in
  if negb (playing e) then
    {| engine := e; nodes := nodes b; fetches := fetches b; settled := settled b;
       suspended := waiting; frames := frames b; nextFrame := nextFrame b;
       calls := calls b |}
  else
    let scoreData := sus_scoreData s in
    let fromMeasure := sus_fromMeasure s in
    let last := lastNotesMeasure fromMeasure (notes scoreData) in
    let '(starts, secs, total) := timing scoreData fromMeasure last in
    let e1 :=
      {| playing := playing e; loading := false;
         startTime := currentTime; startMeasure := startMeasure e;
         scheduledNodes := scheduledNodes e;
         mutedInstruments := mutedInstruments e; soloInstrument := soloInstrument e;
         onMeasureChange := onMeasureChange e; onPlaybackTick := onPlaybackTick e;
         _animFrame := _animFrame e; _samples := _samples e;
         _lastPlayMeasure := last;
         _measureStartTimes := starts;
         _measureSecPerBeat := secs;
         _totalDuration := total |} in
    let new :=
      scheduleAll e1 session (schedule e1 (score scoreData) fromMeasure (notes scoreData)) in
    {| engine :=
         {| playing := playing e1; loading := loading e1;
            startTime := startTime e1; startMeasure := startMeasure e1;
            scheduledNodes :=
              (scheduledNodes e1 ++ seq (length (nodes b)) (length new))%list;
            mutedInstruments := mutedInstruments e1; soloInstrument := soloInstrument e1;
            onMeasureChange := onMeasureChange e1; onPlaybackTick := onPlaybackTick e1;
            _animFrame := Some (nextFrame b);
            _samples := _samples e1;
            _lastPlayMeasure := _lastPlayMeasure e1;
            _measureStartTimes := _measureStartTimes e1;
            _measureSecPerBeat := _measureSecPerBeat e1;
            _totalDuration := _totalDuration e1 |};
       nodes := (nodes b ++ new)%list;
       fetches := fetches b;
       settled := settled b;
       suspended := waiting;
       frames :=
         <[nextFrame b := {| fr_scoreData := scoreData; fr_lastMeasure := last |}]>
           (frames b);
       nextFrame := S (nextFrame b);
       calls := calls b |}.

(** *** [_animateMeasure] and its [tick] *)

(** The loop of [tick] that finds the current measure, with [n] the number
    of turns left. *)
Fixpoint findMeasure (e : PlaybackEngine) (elapsed : num) (n : nat) (m current : Z) : Z :=
  match n with
  | O => current
  | S n' =>
      let mStart := or_else truthy_num (_measureStartTimes e !! m) (Fin 0) in
      if nge elapsed mStart then findMeasure e elapsed n' (m + 1) m else current
  end.

Definition add_calls (b : Browser) (cs : list Callback) : Browser :=
  {| engine := engine b; nodes := nodes b; fetches := fetches b; settled := settled b;
     suspended := suspended b; frames := frames b; nextFrame := nextFrame b;
     calls := (calls b ++ cs)%list |}.

(** [this._animFrame = requestAnimationFrame(tick)] *)
Definition requestFrame (b : Browser) (fr : FrameRequest) : Browser :=
  let e := engine b in
  {| engine :=
       {| playing := playing e; loading := loading e;
          startTime := startTime e; startMeasure := startMeasure e;
          scheduledNodes := scheduledNodes e;
          mutedInstruments := mutedInstruments e; soloInstrument := soloInstrument e;
          onMeasureChange := onMeasureChange e; onPlaybackTick := onPlaybackTick e;
          _animFrame := Some (nextFrame b);
          _samples := _samples e;
          _lastPlayMeasure := _lastPlayMeasure e;
          _measureStartTimes := _measureStartTimes e;
          _measureSecPerBeat := _measureSecPerBeat e;
          _totalDuration := _totalDuration e |};
     nodes := nodes b; fetches := fetches b; settled := settled b;
     suspended := suspended b;
     frames := <[nextFrame b := fr]> (frames b);
     nextFrame := S (nextFrame b);
     calls := calls b |}.

(** One run of [tick], the audio clock reading [currentTime]. *)
Definition tick (b : Browser) (fr : FrameRequest) (currentTime : num) : Browser :=
  let e := engine b in
  if negb (playing e) then b
  else
    let elapsed := nsub currentTime (startTime e) in
    if nge elapsed (nadd (_totalDuration e) SCHEDULE_AHEAD) then
      add_calls (stop b)
        (if onMeasureChange e then [MeasureChange (startMeasure e)] else [])
    else
      let scoreData := fr_scoreData fr in
      let currentMeasure :=
        findMeasure e elapsed
          (Z.to_nat (fr_lastMeasure fr - startMeasure e + 1))
          (startMeasure e) (startMeasure e) in
      let mBeats := measureBeats scoreData currentMeasure in
      let mSecPerBeat :=
        or_else truthy_num (_measureSecPerBeat e !! currentMeasure)
          (ndiv (Fin 60) (tempo (score scoreData))) in
      let secPerMeasure := nmul mBeats mSecPerBeat in
      let measureStartTime :=
        or_else truthy_num (_measureStartTimes e !! currentMeasure) (Fin 0) in
      let elapsedInMeasure := nsub elapsed measureStartTime in
      let beatFraction := ndiv elapsedInMeasure secPerMeasure in
      requestFrame
        (add_calls b
           ((if onMeasureChange e then [MeasureChange currentMeasure] else []) ++
            (if onPlaybackTick e then [PlaybackTick currentMeasure beatFraction] else []))%list)
        fr.

(** *** The event loop *)

(** The events.  [Call_play] passes the score object as it is at the call.
    [Push_note] is [scoreData.notes.push(n)] of the page (app.js, the
    polling for the notes of other contributors): [holders] are the calls
    of [play] that were given the array pushed onto, and the push reaches
    each of them, the array being one object.  The closure [tick] holds
    the score object too but reads only its [score] and
    [measureSignatures], which nothing in the page writes. *)
Inductive Event : Type :=
  | Call_play (scoreData : ScoreData) (fromMeasure : Z)
  | Call_stop
  | Call_toggleMute (instrumentId : string)
  | Call_toggleSolo (instrumentId : string)
  | Set_callbacks (measureChange playbackTick : bool)
  | Settle (promise : nat) (ok : bool)
  | Resume (session : nat) (currentTime : num)
  | AnimationFrame (frame : nat) (currentTime : num)
  | Push_note (holders : list nat) (note : Note).

(** [notes.push(n)], seen from a call of [play] that holds the array. *)
Definition pushed (n : Note) (s : Suspended) : Suspended :=
  {| sus_scoreData :=
       {| score := score (sus_scoreData s);
          notes := (notes (sus_scoreData s) ++ [n])%list;
          measureSignatures := measureSignatures (sus_scoreData s) |};
     sus_fromMeasure := sus_fromMeasure s;
     sus_playable := sus_playable s;
     sus_jobs := sus_jobs s;
     sus_resumed := sus_resumed s |}.

Definition push (b : Browser) (holders : list nat) (n : Note) : Browser :=
  {| engine := engine b; nodes := nodes b; fetches := fetches b; settled := settled b;
     suspended :=
       imap (λ i s, if bool_decide (i ∈ holders) then pushed n s else s) (suspended b);
     frames := frames b; nextFrame := nextFrame b; calls := calls b |}.

Definition set_callbacks (e : PlaybackEngine) (mc pt : bool) : PlaybackEngine :=
  {| playing := playing e; loading := loading e;
     startTime := startTime e; startMeasure := startMeasure e;
     scheduledNodes := scheduledNodes e;
     mutedInstruments := mutedInstruments e; soloInstrument := soloInstrument e;
     onMeasureChange := mc; onPlaybackTick := pt;
     _animFrame := _animFrame e; _samples := _samples e;
     _lastPlayMeasure := _lastPlayMeasure e;
     _measureStartTimes := _measureStartTimes e;
     _measureSecPerBeat := _measureSecPerBeat e;
     _totalDuration := _totalDuration e |}.

(** The load behind [promise] settles. *)
Definition settle (b : Browser) (promise : nat) (f : Fetch) (ok : bool) : Browser :=
  let e := engine b in
  {| engine :=
       {| playing := playing e; loading := loading e;
          startTime := startTime e; startMeasure := startMeasure e;
          scheduledNodes := scheduledNodes e;
          mutedInstruments := mutedInstruments e; soloInstrument := soloInstrument e;
          onMeasureChange := onMeasureChange e; onPlaybackTick := onPlaybackTick e;
          _animFrame := _animFrame e;
          _samples := _load_settle (_samples e) f ok;
          _lastPlayMeasure := _lastPlayMeasure e;
          _measureStartTimes := _measureStartTimes e;
          _measureSecPerBeat := _measureSecPerBeat e;
          _totalDuration := _totalDuration e |};
     nodes := nodes b; fetches := fetches b;
     settled := {[promise]} ∪ settled b;
     suspended := suspended b; frames := frames b; nextFrame := nextFrame b;
     calls := calls b |}.

Definition all_settled (b : Browser) (jobs : list nat) : bool :=
  forallb (λ j, bool_decide (j ∈ settled b)) jobs.

Definition drop_frame (b : Browser) (f : nat) : Browser :=
  {| engine := engine b; nodes := nodes b; fetches := fetches b; settled := settled b;
     suspended := suspended b; frames := delete f (frames b); nextFrame := nextFrame b;
     calls := calls b |}.

(** One turn of the event loop; [None] when the event cannot happen in
    [b]: a promise settles once, a call of [play] resumes once and only
    when every promise it waits for has settled, and a frame fires only
    while it is requested. *)
Definition step (b : Browser) (ev : Event) : option Browser :=
  match ev with
  | Call_play scoreData fromMeasure => Some (play_begin b scoreData fromMeasure)
  | Call_stop => Some (stop b)
  | Call_toggleMute i => Some (set_engine b (toggleMute (engine b) i))
  | Call_toggleSolo i => Some (set_engine b (toggleSolo (engine b) i))
  | Set_callbacks mc pt => Some (set_engine b (set_callbacks (engine b) mc pt))
  | Settle promise ok =>
      match fetches b !! promise with
      | Some f =>
          if bool_decide (promise ∈ settled b) then None
          else Some (settle b promise f ok)
      | None => None
      end
  | Resume session currentTime =>
      match suspended b !! session with
      | Some s =>
          if sus_resumed s then None
          else if all_settled b (sus_jobs s)
          then Some (play_resume b session s currentTime)
          else None
      | None => None
      end
  | AnimationFrame f currentTime =>
      match frames b !! f with
      | Some fr => Some (tick (drop_frame b f) fr currentTime)
      | None => None
      end
  | Push_note holders n => Some (push b holders n)
  end.

Fixpoint run (b : Browser) (evs : list Event) : option Browser :=
  match evs with
  | [] => Some b
  | ev :: rest =>
      match step b ev with
      | Some b' => run b' rest
      | None => None
      end
  end.

End Playback.

(** ** The timing loop in the arithmetic of doubles *)

(** The loop of [play] that fills [_measureStartTimes], with the sums and
    products done in binary64 as the browser does them.  The inputs (a
    tempo, a number of beats) are the doubles nearest to their values. *)
Module Binary64.

Import Renderer Playback.

Definition Z_to_double (z : Z) : float :=
  if z <? 0 then PrimFloat.opp (PrimFloat.of_uint63 (Uint63.of_Z (- z)))
  else PrimFloat.of_uint63 (Uint63.of_Z z).

(** The double nearest to a number whose numerator and denominator are
    below 2^53: their quotient, rounded once. *)
Definition to_double (a : num) : float :=
  match a with
  | Fin q => PrimFloat.div (Z_to_double (Qnum q)) (Z_to_double (Z.pos (Qden q)))
  | PInf => PrimFloat.infinity
  | NInf => PrimFloat.neg_infinity
  | NaN => PrimFloat.nan
  end.

Fixpoint measureTimes64 (scoreData : ScoreData) (n : nat) (m : Z) (cumTime : float)
    (starts : gmap Z float) : gmap Z float * float :=
  match n with
  | O => (starts, cumTime)
  | S n' =>
      let starts := <[m := cumTime]> starts in
      let mSig := getEffectiveSignature m scoreData in
      let mTempo :=
        if truthy_num (sig_tempo mSig) then sig_tempo mSig else tempo (score scoreData) in
      let mSecPerBeat := PrimFloat.div (Z_to_double 60) (to_double mTempo) in
      let mBeats := to_double (measureBeats scoreData m) in
      measureTimes64 scoreData n' (m + 1)
        (PrimFloat.add cumTime (PrimFloat.mul mBeats mSecPerBeat)) starts
  end.

End Binary64.

(** ** server.js: PUT /api/measure-signature/:measure *)

Module Server.

(** The three override columns of a row of [measure_signatures], keyed in
    the table by the measure. *)
Record Row := {
  row_key_signature : option string;
  row_time_signature : option string;
  row_tempo : option num
}.

(** The fields read from the request body; [None] when the body leaves the
    field out or gives [null]. *)
Record Body := {
  body_key_signature : option string;
  body_time_signature : option string;
  body_tempo : option num
}.

Inductive Response : Type :=
  | Json (measure : Z) (row : Row)
  | BadRequest (error : string).

(** [v || null] *)
Definition or_null {A} (t : A -> bool) (v : option A) : option A :=
  match v with
  | Some a => if t a then Some a else None
  | None => None
  end.

Definition tempo_out_of_range (v : option num) : bool :=
  match v with
  | Some t => nlt t (Fin 20) || ngt t (Fin 300)
  | None => false
  end.

(** The handler, on the measure that [parseInt] read from the path. *)
Definition put_measure_signature (total_measures : Z) (table : gmap Z Row)
    (m : Z) (body : Body) : gmap Z Row * Response :=
  if (m <? 1) || (total_measures <? m) then
    (table, BadRequest "Measure out of range")
  else if tempo_out_of_range (body_tempo body) then
    (table, BadRequest "Tempo must be between 20 and 300 BPM")
  else
    let row :=
      {| row_key_signature := or_null truthy_str (body_key_signature body);
         row_time_signature := or_null truthy_str (body_time_signature body);
         row_tempo := or_null truthy_num (body_tempo body) |} in
    (<[m := row]> table, Json m row).

End Server.

(** ** server.js: the other routes of the measure signatures *)

Module Api.

Import Server.

(** DELETE /api/measure-signature/:measure, on the measure that [parseInt]
    read from the path. *)
Definition delete_measure_signature (table : gmap Z Row) (m : Z) : gmap Z Row :=
  delete m table.

(** A row of [measure_signatures] as the object that the query returns. *)
Definition row_signature (mr : Z * Row) : MeasureSignature :=
  {| ms_measure := mr.1;
     ms_key_signature := row_key_signature mr.2;
     ms_time_signature := row_time_signature mr.2;
     ms_tempo := row_tempo mr.2 |}.

(** [ORDER BY measure] *)
Definition by_measure (a b : Z * Row) : Prop := a.1 ≤ b.1.

#[global] Instance by_measure_dec (a b : Z * Row) : Decision (by_measure a b) :=
  decide (a.1 ≤ b.1).

(** [SELECT * FROM measure_signatures ORDER BY measure] *)
Definition select_measure_signatures (table : gmap Z Row) : list MeasureSignature :=
  row_signature <$> merge_sort by_measure (map_to_list table).

(** GET /api/score, from the row of [score] and the rows of [notes] as
    their queries return them; the instruments are left out. *)
Definition get_score (s : Score) (ns : list Note) (table : gmap Z Row) : ScoreData :=
  {| score := s; notes := ns;
     measureSignatures := select_measure_signatures table |}.

(** The requests that write the table, and the table after one. *)
Inductive Request : Type :=
  | Put (m : Z) (body : Body)
  | Delete (m : Z).

Definition handle (total_measures : Z) (table : gmap Z Row) (r : Request)
  : gmap Z Row :=
  match r with
  | Put m body => (put_measure_signature total_measures table m body).1
  | Delete m => delete_measure_signature table m
  end.

End Api.

(** ** renderer.js: the rests that fill a measure *)

Module Notation.

(** Ordered from longest to shortest. *)
Definition REST_DURATIONS : list (num * string) :=
  [ (Fin 4, "w"); (Fin 2, "h"); (Fin 1, "q"); (Fin 0.5, "8"); (Fin 0.25, "16") ].

Definition restPosition (clef : string) : string :=
  if String.eqb clef "treble" then "b/4"
  else if String.eqb clef "alto" then "c/4"
  else if String.eqb clef "bass" then "d/3"
  else "b/4".

(** The options that a [VF.StaveNote] is made from. *)
Record StaveNote := {
  sn_clef : string;
  sn_keys : list string;
  sn_duration : string
}.

(** The rest that [pushRests] makes for a duration code. *)
Definition restNote (clef durVex : string) : StaveNote :=
  {| sn_clef := clef; sn_keys := [restPosition clef]; sn_duration := durVex +:+ "r" |}.

(** The [while] loop of [pushRests] for one duration: [None] when the
    fuel runs out before the loop ends.  The result is the array and the
    value of [rem] when the loop ends.  The threshold [durBeats - 0.001]
    and the remainder are exact here; [Doubles.rest_loop64] is the loop in
    binary64, where the threshold is rounded. *)
Fixpoint rest_loop (fuel : nat) (clef : string) (durBeats : num) (durVex : string)
    (arr : list StaveNote) (rem : num) : option (list StaveNote * num) :=
  match fuel with
  | O => None
  | S fuel' =>
      if nge rem (nsub durBeats (Fin 0.001)) then
        rest_loop fuel' clef durBeats durVex (arr ++ [restNote clef durVex])%list
          (nsub rem durBeats)
      else Some (arr, rem)
  end.

(** [pushRests]: the array after the pushes, and what is left of [rem]. *)
Definition pushRests (fuel : nat) (arr : list StaveNote) (beats : num) (clef : string)
  : option (list StaveNote * num) :=
  foldl (λ st d, st ≫= λ '(arr, rem), rest_loop fuel clef d.1 d.2 arr rem)
    (Some (arr, beats)) REST_DURATIONS.

End Notation.

(** ** The envelope and the rests in the arithmetic of doubles *)

(** The comparisons of [_scheduleNote] and of [pushRests] that turn on a
    difference of a thousandth, with the sums, products and differences
    done in binary64 as the browser does them.  A constant is the double
    nearest to its decimal. *)
Module Doubles.

Import Playback Binary64 Notation.

(** The exact value of a double. *)
Definition exact (f : float) : num :=
  match Prim2SF f with
  | SpecFloat.S754_zero _ => Fin 0
  | SpecFloat.S754_finite s m e =>
      Fin ((if s then - inject_Z (Z.pos m) else inject_Z (Z.pos m)) * Qpower 2 e)
  | SpecFloat.S754_infinity s => if s then NInf else PInf
  | SpecFloat.S754_nan => NaN
  end.

(** [this.startTime + SCHEDULE_AHEAD + measureStart + (note.beat - 1) * secPerBeat] *)
Definition noteStart64 (startTime measureStart beat secPerBeat : float) : float :=
  PrimFloat.add
    (PrimFloat.add (PrimFloat.add startTime (to_double SCHEDULE_AHEAD)) measureStart)
    (PrimFloat.mul (PrimFloat.sub beat (Z_to_double 1)) secPerBeat).

(** [durBeats * secPerBeat] *)
Definition noteDur64 (durBeats secPerBeat : float) : float :=
  PrimFloat.mul durBeats secPerBeat.

(** On the synthesis path: whether the end of the attack,
    [startTime + 0.05], is no later than the sustain point,
    [startTime + duration - 0.1]. *)
Definition sustain_after_attack64 (startTime duration : float) : bool :=
  PrimFloat.leb
    (PrimFloat.add startTime (to_double (Fin 0.05)))
    (PrimFloat.sub (PrimFloat.add startTime duration) (to_double (Fin 0.1))).

(** [dynGain * instGain] *)
Definition totalGain64 (dynGain instGain : num) : float :=
  PrimFloat.mul (to_double dynGain) (to_double instGain).

(** The [while] loop of [pushRests]. *)
Fixpoint rest_loop64 (fuel : nat) (clef : string) (durBeats : float) (durVex : string)
    (arr : list StaveNote) (rem : float) : option (list StaveNote * float) :=
  match fuel with
  | O => None
  | S fuel' =>
      if PrimFloat.leb (PrimFloat.sub durBeats (to_double (Fin 0.001))) rem then
        rest_loop64 fuel' clef durBeats durVex (arr ++ [restNote clef durVex])%list
          (PrimFloat.sub rem durBeats)
      else Some (arr, rem)
  end.

Definition pushRests64 (fuel : nat) (arr : list StaveNote) (beats : float) (clef : string)
  : option (list StaveNote * float) :=
  foldl (λ st d, st ≫= λ '(arr, rem), rest_loop64 fuel clef (to_double d.1) d.2 arr rem)
    (Some (arr, beats)) REST_DURATIONS.

End Doubles.

Import Renderer Playback.

(** * Vocabulary of the statements *)

(** A pitch name: a letter A to G, an optional sharp or flat, one digit. *)
Definition pitch_pattern (p : string) : Prop :=
  ∃ (l : ascii) (acc : string) (d : ascii),
    l ∈ ["A"; "B"; "C"; "D"; "E"; "F"; "G"]%char ∧
    (acc = "" ∨ acc = "#" ∨ acc = "b") ∧
    d ∈ ["0"; "1"; "2"; "3"; "4"; "5"; "6"; "7"; "8"; "9"]%char ∧
    p = str1 l +:+ acc +:+ str1 d.

(** The browser without the record of the callbacks called. *)
Definition state_of (b : Browser)
  : PlaybackEngine * list AudioNode * list Fetch * gset nat * list Suspended
    * gmap nat FrameRequest * nat :=
  (engine b, nodes b, fetches b, settled b, suspended b, frames b, nextFrame b).

(** No session is active: nothing plays or loads, no node is scheduled and
    no animation frame is requested. *)
Definition idle (e : PlaybackEngine) : Prop :=
  playing e = false ∧ loading e = false ∧ scheduledNodes e = [] ∧ _animFrame e = None.


(** A score of one measure holding one quarter note of the cello. *)
Definition celloNote : Note :=
  {| note_id := "n1"; instrument_id := "cello"; pitch := "C3"; measure := 1;
     beat := Fin 1; duration := "quarter"; is_rest := 0; dynamic := Some "mf";
     vibrato := 0 |}.

Definition baseScore : Score :=
  {| title := "Global Symphonia No. 1"; key_signature := "D";
     time_signature := "4/4"; tempo := Fin 100; total_measures := 32 |}.

Definition celloScore : ScoreData :=
  {| score := baseScore; notes := [celloNote]; measureSignatures := [] |}.

(** The length in seconds of measure [m]: its beats times its seconds
    per beat, from its own effective time signature and tempo. *)
Definition measureDuration (sd : ScoreData) (m : Z) : num :=
  nmul (measureBeats sd m) (measureSecPerBeat sd m).

(** The sum of the lengths of the [k] measures from [fromMeasure] on,
    added in order. *)
Fixpoint sumDurations (sd : ScoreData) (fromMeasure : Z) (k : nat) : num :=
  match k with
  | O => Fin 0
  | S k' =>
      nadd (sumDurations sd fromMeasure k')
           (measureDuration sd (fromMeasure + Z.of_nat k'))
  end.

(** The sum of the lengths of the measures of the range before [m]. *)
Definition startOf (sd : ScoreData) (fromMeasure m : Z) : num :=
  sumDurations sd fromMeasure (Z.to_nat (m - fromMeasure)).

(** The running value of [cumTime] after [k] more turns of the loop. *)
Fixpoint accum (sd : ScoreData) (m : Z) (cumTime : num) (k : nat) : num :=
  match k with
  | O => cumTime
  | S k' => accum sd (m + 1) (nadd cumTime (measureDuration sd m)) k'
  end.

(** Measure [m] has a finite number of beats and a finite, positive length
    of beat (its effective tempo is finite and positive). *)
Definition regular (sd : ScoreData) (m : Z) : Prop :=
  ∃ b s, measureBeats sd m = Fin b ∧ measureSecPerBeat sd m = Fin s ∧ (0 < s)%Q.

Definition positive (a : num) : bool :=
  match a with
  | Fin q => is_pos q
  | _ => false
  end.

(** The time signature has a numeral (or nothing) before its slash. *)
Definition numeral_time (t : string) : bool :=
  match digitsVal 0 (split_head "/" t) with
  | Some _ => true
  | None => false
  end.

Definition well_formed_override (s : MeasureSignature) : bool :=
  match ms_time_signature s with
  | Some t => numeral_time t
  | None => true
  end &&
  match ms_tempo s with
  | Some t => negb (truthy_num t) || positive t
  | None => true
  end.

(** The well-formed scores: the base tempo is finite and positive, an
    override's tempo is absent, falsy, or finite and positive, and every
    time signature has a numeral before its slash. *)
Definition well_formed (sd : ScoreData) : bool :=
  positive (tempo (score sd)) && numeral_time (time_signature (score sd))
  && forallb well_formed_override (measureSignatures sd).

(** A score of three measures whose second measure changes the time
    signature to 3/4 and the tempo to 120. *)
Definition changingScore : ScoreData :=
  {| score := baseScore;
     notes :=
       [ celloNote;
         {| note_id := "n2"; instrument_id := "viola"; pitch := "F#4"; measure := 3;
            beat := Fin 2; duration := "half"; is_rest := 0; dynamic := None;
            vibrato := 1 |} ];
     measureSignatures :=
       [ {| ms_measure := 2; ms_key_signature := None;
            ms_time_signature := Some "3/4"; ms_tempo := Some (Fin 120) |} ] |}.

(** The viola's half note of [changingScore], in its third measure. *)
Definition violaNote : Note :=
  {| note_id := "n2"; instrument_id := "viola"; pitch := "F#4"; measure := 3;
     beat := Fin 2; duration := "half"; is_rest := 0; dynamic := None;
     vibrato := 1 |}.

(** The call [play(changingScore, 1)] once its two samples have loaded,
    and the browser then. *)
Definition changingSuspended : Suspended :=
  {| sus_scoreData := changingScore; sus_fromMeasure := 1;
     sus_playable := [celloNote; violaNote]; sus_jobs := [0%nat; 1%nat];
     sus_resumed := false |}.

Definition changingLoaded : Browser :=
  settle
    (settle (play_begin newBrowser changingScore 1) 0
       {| fetch_key := "cello:C3"; fetch_url := sample_url "cello" "C3" |} true)
    1 {| fetch_key := "viola:Gb4"; fetch_url := sample_url "viola" "Gb4" |} true.

(** ... and the call has then been resumed at time 10. *)
Definition changingPlaying : Browser :=
  play_resume changingLoaded 0 changingSuspended (Fin 10).





(** The scenario of the specification: one quarter note at beat 2.5 of
    the first measure, in 4/4 at 120 beats a minute. *)
Definition scenarioNote : Note :=
  {| note_id := "q"; instrument_id := "violin1"; pitch := "A4"; measure := 1;
     beat := Fin 2.5; duration := "quarter"; is_rest := 0; dynamic := Some "mf";
     vibrato := 0 |}.

Definition scenarioScore : ScoreData :=
  {| score :=
       {| title := "Scenario"; key_signature := "C"; time_signature := "4/4";
          tempo := Fin 120; total_measures := 4 |};
     notes := [scenarioNote];
     measureSignatures := [] |}.

(** The browser when [play(scenarioScore, 1)] has been called on a new
    engine and its one sample has loaded. *)
Definition scenarioLoaded : Browser :=
  settle (play_begin newBrowser scenarioScore 1) 0
    {| fetch_key := "violin:A4"; fetch_url := sample_url "violin" "A4" |} true.

Definition scenarioSuspended : Suspended :=
  {| sus_scoreData := scenarioScore; sus_fromMeasure := 1;
     sus_playable := [scenarioNote]; sus_jobs := [0%nat]; sus_resumed := false |}.

(** ... and the suspended call has then been resumed at time 10. *)
Definition scenarioPlaying : Browser :=
  play_resume scenarioLoaded 0 scenarioSuspended (Fin 10).

(** The number of fetches of the cache key [k] among [net]. *)
Definition issued (k : string) (net : list Fetch) : nat :=
  length (filter (λ f, fetch_key f = k) net).

(** Whether the loop of [preload], entered with [seen] and the cache [c],
    starts a fetch of [k] over the notes [ns]. *)
Definition fetches_key (k : string) (seen : gset string) (c : SampleCache)
    (ns : list Note) : bool :=
  bool_decide (k ∉ seen) && bool_decide (_cache c !! k = None)
  && bool_decide (_pending c !! k = None)
  && existsb (λ n, (is_rest n =? 0) && bool_decide (cacheKey_of n = k)) ns.

(** The browsers that the event loop reaches from a new engine. *)
Definition reachable (b : Browser) : Prop :=
  ∃ evs, run newBrowser evs = Some b.

(** The load of the sample of cache key [k] has settled: the sample is in
    the cache, or a fetch of [k] has been issued and its promise has
    settled. *)
Definition key_settled (b : Browser) (k : string) : Prop :=
  is_Some (_cache (_samples (engine b)) !! k) ∨
  ∃ p f, fetches b !! p = Some f ∧ fetch_key f = k ∧ p ∈ settled b.

(** Every load in flight is the load of a fetch issued for its key. *)
Definition pending_points (b : Browser) : Prop :=
  ∀ k p, _pending (_samples (engine b)) !! k = Some p →
         ∃ f, fetches b !! p = Some f ∧ fetch_key f = k.

(** Every suspended call of [play] waits for the sample of each note of
    its [playable], unless the sample is cached. *)
Definition jobs_cover (b : Browser) : Prop :=
  ∀ i s, suspended b !! i = Some s →
  ∀ n, n ∈ sus_playable s →
       is_Some (_cache (_samples (engine b)) !! cacheKey_of n) ∨
       ∃ p f, p ∈ sus_jobs s ∧ fetches b !! p = Some f ∧ fetch_key f = cacheKey_of n.

(** The notes array of a call of [play] is the array that the call was
    given, [called], followed by the notes pushed since, [late]; the
    call's [playable] holds the notes to play of [called]. *)
Definition array_since_call (s : Suspended) (called late : list Note) : Prop :=
  notes (sus_scoreData s) = (called ++ late)%list ∧
  sus_playable s = filter (λ n, playable (sus_fromMeasure s) n) called.

Definition snapshots (b : Browser) : Prop :=
  ∀ i s, suspended b !! i = Some s → ∃ called late, array_since_call s called late.

(** The load of every note to play of the array has settled. *)
Definition array_preloaded (b : Browser) (s : Suspended) : Prop :=
  ∀ n, n ∈ notes (sus_scoreData s) → playable (sus_fromMeasure s) n = true →
       key_settled b (cacheKey_of n).

(** The part of a browser that the loading of samples reads and writes. *)
Definition loads (b : Browser) : SampleCache * list Fetch * list Suspended :=
  (_samples (engine b), fetches b, suspended b).

(** Every node that has not been stopped is on [scheduledNodes]. *)
Definition tracked (b : Browser) : Prop :=
  ∀ i n, nodes b !! i = Some n → node_halted n = false →
         i ∈ scheduledNodes (engine b).

(** The nodes of a session that have not been stopped. *)
Definition live (b : Browser) (session : nat) : list AudioNode :=
  filter (λ n, node_session n = session ∧ node_halted n = false) (nodes b).

(** The signature of the score itself, before any override. *)
Definition baseSignature (sd : ScoreData) : Signature :=
  {| key := key_signature (score sd);
     time := time_signature (score sd);
     sig_tempo := tempo (score sd) |}.

(** Two overrides that agree on their measure, key and time signature
    (their tempos may differ). *)
Definition same_key_and_time (s s' : MeasureSignature) : Prop :=
  ms_measure s = ms_measure s' ∧
  ms_key_signature s = ms_key_signature s' ∧
  ms_time_signature s = ms_time_signature s'.

(** Every pitch name: 7 letters, 3 accidentals (none, sharp, flat), 10
    octave digits. *)
Definition all_pitch_names : list string :=
  l ← ["A"; "B"; "C"; "D"; "E"; "F"; "G"]%char;
  acc ← [""; "#"; "b"];
  d ← ["0"; "1"; "2"; "3"; "4"; "5"; "6"; "7"; "8"; "9"]%char;
  [str1 l +:+ acc +:+ str1 d].

(** The string holds a sharp sign. *)
Fixpoint has_sharp (s : string) : bool :=
  match s with
  | EmptyString => false
  | String c r => Ascii.eqb c "#" || has_sharp r
  end.


(** What of a node never changes: all but whether it has been stopped. *)
Definition node_made (n : AudioNode)
  : NodeKind * list AutomationEvent * num * num * string * nat :=
  (node_kind n, node_gain n, node_start n, node_stop n, node_note n, node_session n).

(** The start time that [tick] reads for measure [m]:
    [this._measureStartTimes[m] || 0]. *)
Definition mStartOf (e : PlaybackEngine) (m : Z) : num :=
  or_else truthy_num (_measureStartTimes e !! m) (Fin 0).


Definition event_time (ev : AutomationEvent) : num :=
  match ev with
  | setValueAtTime _ t | linearRampToValueAtTime _ t
  | exponentialRampToValueAtTime _ t => t
  end.

(** The times are in non-decreasing order. *)
Fixpoint chronological (ts : list num) : bool :=
  match ts with
  | a :: (b :: _) as rest => nle a b && chronological rest
  | _ => true
  end.

(** The automation of a node is scheduled in the order of its times,
    from the node's start on and before its stop. *)
Definition envelope_in_order (n : AudioNode) : bool :=
  chronological (node_start n :: map event_time (node_gain n) ++ [node_stop n]).

(** The values that the node's gain is ramped to exponentially. *)
Definition exponential_targets (n : AudioNode) : list num :=
  omap (λ ev, match ev with
              | exponentialRampToValueAtTime v _ => Some v
              | _ => None
              end) (node_gain n).

(** A key that is not a name inherited from [Object.prototype]. *)
Definition table_key (k : string) : bool := negb (inherited k).

(** The loudest note: fortissimo on the contrabass. *)
Definition loudNote : Note :=
  {| note_id := "ff"; instrument_id := "contrabass"; pitch := "E2"; measure := 1;
     beat := Fin 1; duration := "whole"; is_rest := 0; dynamic := Some "ff";
     vibrato := 0 |}.

(** A finite number between the two bounds. *)
Definition within (lo hi : Q) (a : num) : Prop :=
  ∃ q, a = Fin q ∧ (lo <= q)%Q ∧ (q <= hi)%Q.

(** The tempo stored in a row is [null] or between 20 and 300. *)
Definition stored_tempo (r : Server.Row) : Prop :=
  Server.row_tempo r = None ∨
  ∃ q, Server.row_tempo r = Some (Fin q) ∧ (20 <= q)%Q ∧ (q <= 300)%Q.

(** The table of a new database after the requests, in order. *)
Definition served (total_measures : Z) (rs : list Api.Request) : gmap Z Server.Row :=
  foldl (Api.handle total_measures) ∅ rs.

(** A body that sets the three fields, and the requests of a session that
    sets measure 2, sets and then reverts measure 5. *)
Definition scenarioBody : Server.Body :=
  {| Server.body_key_signature := Some "G";
     Server.body_time_signature := Some "3/4";
     Server.body_tempo := Some (Fin 120) |}.

Definition scenarioRequests : list Api.Request :=
  [Api.Put 2 scenarioBody; Api.Put 5 scenarioBody; Api.Delete 5].

(** The number of quarter-note beats of a rest, by its duration code. *)
Definition rest_beats (n : Notation.StaveNote) : Q :=
  let d := Notation.sn_duration n in
  if String.eqb d "wr" then 4
  else if String.eqb d "hr" then 2
  else if String.eqb d "qr" then 1
  else if String.eqb d "8r" then 0.5
  else if String.eqb d "16r" then 0.25
  else 0.

Definition total_beats (l : list Notation.StaveNote) : Q :=
  foldr (λ n acc, (rest_beats n + acc)%Q) 0%Q l.

(** A natural number as a rational. *)
Definition Qnat (k : nat) : Q := inject_Z (Z.of_nat k).

(** The rests come longest first, any number of whole rests and at most
    one of each shorter duration. *)
Definition longest_first (clef : string) (rests : list Notation.StaveNote) : Prop :=
  ∃ w h q e s : nat,
    rests = (replicate w (Notation.restNote clef "w")
             ++ replicate h (Notation.restNote clef "h")
             ++ replicate q (Notation.restNote clef "q")
             ++ replicate e (Notation.restNote clef "8")
             ++ replicate s (Notation.restNote clef "16"))%list ∧
    (h ≤ 1)%nat ∧ (q ≤ 1)%nat ∧ (e ≤ 1)%nat ∧ (s ≤ 1)%nat.

(** * Properties *)

(** ** Pitch names *)

Lemma isNoteLetter_spec (c : ascii) :
  isNoteLetter c = true ↔ c ∈ ["A"; "B"; "C"; "D"; "E"; "F"; "G"]%char.
Proof.
  split.
  - destruct c as [[] [] [] [] [] [] [] []]; vm_compute; intros H;
      try discriminate H; set_solver.
  - intros H. repeat (apply elem_of_cons in H as [-> | H]; [reflexivity |]).
    by apply elem_of_nil in H.
Qed.

Lemma isDigit_spec (c : ascii) :
  isDigit c = true ↔ c ∈ ["0"; "1"; "2"; "3"; "4"; "5"; "6"; "7"; "8"; "9"]%char.
Proof.
  split.
  - destruct c as [[] [] [] [] [] [] [] []]; vm_compute; intros H;
      try discriminate H; set_solver.
  - intros H. repeat (apply elem_of_cons in H as [-> | H]; [reflexivity |]).
    by apply elem_of_nil in H.
Qed.

Lemma isAccidental_spec (c : ascii) :
  isAccidental c = true ↔ c = "#"%char ∨ c = "b"%char.
Proof.
  unfold isAccidental. rewrite orb_true_iff, !Ascii.eqb_eq. tauto.
Qed.

(** The regular expression matches exactly the pitch names. *)
Lemma matchPitch_pattern (p : string) :
  is_Some (matchPitch p) ↔ pitch_pattern p.
Proof.
  split.
  - intros [[[l a] d] H]. unfold matchPitch in H.
    destruct p as [| c1 [| c2 [| c3 [| c4 r]]]]; try discriminate H.
    + destruct (isNoteLetter c1) eqn:H1; [| discriminate H].
      destruct (isDigit c2) eqn:H2; [| discriminate H].
      exists c1, "", c2. rewrite <- isNoteLetter_spec, <- isDigit_spec. auto.
    + destruct (isNoteLetter c1) eqn:H1; [| discriminate H].
      destruct (isAccidental c2) eqn:H2; [| discriminate H].
      destruct (isDigit c3) eqn:H3; [| discriminate H].
      exists c1, (str1 c2), c3. rewrite <- isNoteLetter_spec, <- isDigit_spec.
      apply isAccidental_spec in H2 as [-> | ->]; auto 6.
  - intros (l & acc & d & Hl & Hacc & Hd & ->).
    apply isNoteLetter_spec in Hl. apply isDigit_spec in Hd.
    destruct Hacc as [-> | [-> | ->]].
    + change (is_Some (if isNoteLetter l && isDigit d then Some (l, @None ascii, d) else None)).
      rewrite Hl, Hd. eauto.
    + change (is_Some (if isNoteLetter l && isAccidental "#" && isDigit d
                       then Some (l, Some "#"%char, d) else None)).
      rewrite Hl, Hd. eauto.
    + change (is_Some (if isNoteLetter l && isAccidental "b" && isDigit d
                       then Some (l, Some "b"%char, d) else None)).
      rewrite Hl, Hd. eauto.
Qed.

(** C9.  The two pitch functions are total functions of the string, and on
    every string that is not a pitch name (letter A to G, optional sharp
    or flat, one digit) [pitchToSampleKey] is the sample key C4 and
    [pitchToFreq] is 440 Hz. *)
Theorem pitch_fallback (p : string) :
  ¬ pitch_pattern p →
  pitchToSampleKey p = "C4" ∧ pitchToFreq p = Hz 440.
Proof.
  intros Hno. unfold pitchToSampleKey, pitchToFreq.
  destruct (matchPitch p) as [g |] eqn:Hm; [| done].
  exfalso. apply Hno, matchPitch_pattern. by exists g.
Qed.

Lemma pitch_fallback_witness :
  ¬ pitch_pattern "H#42" ∧
  pitchToSampleKey "H#42" = "C4" ∧ pitchToFreq "H#42" = Hz 440.
Proof.
  assert (Hno : ¬ pitch_pattern "H#42").
  { intros (l & acc & d & _ & Hacc & _ & Heq).
    destruct Hacc as [-> | [-> | ->]]; discriminate Heq. }
  split; [exact Hno | exact (pitch_fallback "H#42" Hno)].
Defined.

(** ** The measure-signature route *)

(** C10.  A PUT that the handler accepts (measure in range, tempo absent
    or within 20..300) stores a row made of the request alone: each of the
    three columns is the body's field when that field is present and
    truthy, and NULL otherwise, whatever the row held before; the other
    rows are untouched.  So a body with a tempo only leaves the key and
    time signature of that measure NULL. *)
Theorem put_measure_signature_replaces (total_measures : Z)
    (table : gmap Z Server.Row) (m : Z) (body : Server.Body) :
  1 ≤ m ≤ total_measures →
  Server.tempo_out_of_range (Server.body_tempo body) = false →
  ∃ row,
    Server.put_measure_signature total_measures table m body
      = (<[m := row]> table, Server.Json m row) ∧
    Server.row_key_signature row
      = (if truthy_opt truthy_str (Server.body_key_signature body)
         then Server.body_key_signature body else None) ∧
    Server.row_time_signature row
      = (if truthy_opt truthy_str (Server.body_time_signature body)
         then Server.body_time_signature body else None) ∧
    Server.row_tempo row
      = (if truthy_opt truthy_num (Server.body_tempo body)
         then Server.body_tempo body else None) ∧
    (Server.body_key_signature body = None → Server.body_time_signature body = None →
     (<[m := row]> table) !! m
       = Some {| Server.row_key_signature := None;
                 Server.row_time_signature := None;
                 Server.row_tempo := Server.row_tempo row |}).
Proof.
  intros [Hlo Hhi] Htempo. unfold Server.put_measure_signature.
  assert (Hrange : (m <? 1) || (total_measures <? m) = false).
  { apply orb_false_iff. split; apply Z.ltb_ge; lia. }
  rewrite Hrange, Htempo. eexists. split; [reflexivity |].
  cbn [Server.row_key_signature Server.row_time_signature Server.row_tempo].
  repeat split.
  - destruct (Server.body_key_signature body) as [k |]; [cbn; by destruct (truthy_str k) | done].
  - destruct (Server.body_time_signature body) as [k |]; [cbn; by destruct (truthy_str k) | done].
  - destruct (Server.body_tempo body) as [k |]; [cbn; by destruct (truthy_num k) | done].
  - intros -> ->. by rewrite lookup_insert_eq.
Qed.

Lemma put_measure_signature_replaces_witness :
  ∃ row,
    Server.put_measure_signature 32
      {[ 5 := {| Server.row_key_signature := Some "G";
                 Server.row_time_signature := Some "3/4";
                 Server.row_tempo := None |} ]}
      5
      {| Server.body_key_signature := None; Server.body_time_signature := None;
         Server.body_tempo := Some (Fin 120) |}
    = (<[5 := row]>
         {[ 5 := {| Server.row_key_signature := Some "G";
                    Server.row_time_signature := Some "3/4";
                    Server.row_tempo := None |} ]},
       Server.Json 5 row) ∧
    row = {| Server.row_key_signature := None; Server.row_time_signature := None;
             Server.row_tempo := Some (Fin 120) |}.
Proof.
  destruct (put_measure_signature_replaces 32
              {[ 5 := {| Server.row_key_signature := Some "G";
                         Server.row_time_signature := Some "3/4";
                         Server.row_tempo := None |} ]}
              5
              {| Server.body_key_signature := None; Server.body_time_signature := None;
                 Server.body_tempo := Some (Fin 120) |}
              ltac:(lia) ltac:(reflexivity))
    as (row & Hput & Hk & Ht & Hq & _).
  exists row. split; [exact Hput |].
  destruct row as [k t q]. cbn in Hk, Ht, Hq. by subst.
Defined.

(** ** Vibrato *)


(** The viola's half note of [changingScore] asks for vibrato; with no
    sample cached it is synthesised, and its LFO drives the frequency. *)
Example vibrato_on_synthesised_note :
  map node_kind
    (_scheduleNote (_samples newEngine) 0
       {| note_id := "n2"; instrument_id := "viola"; pitch := "F#4"; measure := 3;
          beat := Fin 2; duration := "half"; is_rest := 0; dynamic := None;
          vibrato := 1 |}
       (Fin 1) (Fin 0.5))
  = [Lfo Frequency; Oscillator (Tempered (-3))] ∧
  map node_kind (_scheduleNote (_samples newEngine) 0 celloNote (Fin 1) (Fin 0.5))
  = [Oscillator (Tempered (-21))].
Proof. split; reflexivity. Qed.

(** ** stop() *)

Lemma halted_halted (n : AudioNode) : halted (halted n) = halted n.
Proof. reflexivity. Qed.

Lemma halt_lookup (ns : list AudioNode) (i j : nat) :
  halt ns i !! j = (if decide (i = j) then halted <$> ns !! j else ns !! j).
Proof.
  unfold halt. destruct (decide (i = j)) as [-> | Hne].
  - apply list_lookup_alter_eq.
  - by apply list_lookup_alter_ne.
Qed.

(** Stopping the nodes of a list halts exactly those nodes. *)
Lemma foldl_halt_lookup (l : list nat) (ns : list AudioNode) (j : nat) :
  foldl halt ns l !! j
  = (if bool_decide (j ∈ l) then halted <$> ns !! j else ns !! j).
Proof.
  revert ns. induction l as [| i l IH]; intros ns; [done |].
  cbn [foldl]. rewrite IH, halt_lookup.
  destruct (decide (i = j)) as [-> | Hne].
  - rewrite (bool_decide_eq_true_2 (j ∈ j :: l)) by set_solver.
    case_bool_decide; [| done].
    destruct (ns !! j); [| done]. cbn. by rewrite halted_halted.
  - case_bool_decide as Hin.
    + rewrite bool_decide_eq_true_2; [done | by apply elem_of_cons; right].
    + rewrite bool_decide_eq_false_2; [done |].
      rewrite elem_of_cons. intros [? | ?]; [congruence | done].
Qed.

(** C7.  [stop()] is a total function of the state (it cannot throw: a
    failing [node.stop()] is caught).  A second [stop()] in a row changes
    nothing; with no session active the first changes nothing either (the
    only effect left is the call of [onPlaybackTick], when set, with
    [stopped]).  After [stop()] nothing plays or loads, every node that
    was scheduled has been stopped, none is left scheduled, and the
    animation frame that was requested is cancelled. *)
Theorem stop_idempotent (b : Browser) :
  state_of (stop (stop b)) = state_of (stop b) ∧
  (idle (engine b) → state_of (stop b) = state_of b) ∧
  (playing (engine (stop b)) = false ∧ loading (engine (stop b)) = false ∧
   scheduledNodes (engine (stop b)) = []) ∧
  (∀ i n, i ∈ scheduledNodes (engine b) → nodes b !! i = Some n →
          nodes (stop b) !! i = Some (halted n)) ∧
  (∀ f, _animFrame (engine b) = Some f → f ≠ 0%nat →
        frames (stop b) !! f = None ∧ _animFrame (engine (stop b)) = None).
Proof.
  destruct b as [e ns fs st su fr nf cs].
  destruct e as [pl lo t0 m0 sn mu so omc opt af sa lm mst msb td].
  unfold state_of, idle, stop. cbn.
  split; [| split; [| split; [| split]]].
  - destruct af as [f |]; cbn; [| done].
    destruct (negb (f =? 0)%nat) eqn:Hc; cbn; [done | by rewrite Hc].
  - by intros (-> & -> & -> & ->).
  - done.
  - intros i n Hi Hn. rewrite foldl_halt_lookup, Hn.
    by rewrite bool_decide_eq_true_2.
  - intros f -> Hf. apply Nat.eqb_neq in Hf. rewrite Hf. cbn.
    split; [apply lookup_delete_eq | done].
Qed.

(** On a new engine, and on one whose callbacks are set, [stop()] changes
    nothing but the record of the callbacks called. *)
Example stop_on_new_engine :
  idle (engine newBrowser) ∧
  stop newBrowser = newBrowser ∧
  (calls <$> run newBrowser [Set_callbacks true true; Call_stop; Call_stop])
  = Some [PlaybackStopped; PlaybackStopped].
Proof. repeat split; reflexivity. Qed.

(** ** Solo and mute *)




(** ** Numbers *)


Lemma num_eq_sym (a b : num) : num_eq a b → num_eq b a.
Proof. destruct a, b; cbn; auto. intros H. by symmetry. Qed.

Lemma num_eq_trans (a b c : num) : num_eq a b → num_eq b c → num_eq a c.
Proof.
  destruct a, b, c; cbn; auto; try tauto. intros H1 H2. by rewrite H1.
Qed.


Lemma is_zero_true (q : Q) : is_zero q = true ↔ (q == 0)%Q.
Proof. unfold is_zero. apply Qeq_bool_iff. Qed.

Lemma is_pos_true (q : Q) : is_pos q = true ↔ (0 < q)%Q.
Proof.
  unfold is_pos. rewrite negb_true_iff. split.
  - intros H. apply Qnot_le_lt. intros Hle. apply Qle_bool_iff in Hle. congruence.
  - intros H. destruct (Qle_bool q 0) eqn:E; [| done].
    apply Qle_bool_iff in E. lra.
Qed.



(** ** The timing tables *)

Lemma accum_S (sd : ScoreData) (k : nat) :
  ∀ m cum, accum sd m cum (S k)
           = nadd (accum sd m cum k) (measureDuration sd (m + Z.of_nat k)).
Proof.
  induction k as [| k IH]; intros m cum.
  - cbn. by rewrite Z.add_0_r.
  - change (accum sd m cum (S (S k)))
      with (accum sd (m + 1) (nadd cum (measureDuration sd m)) (S k)).
    rewrite IH. cbn [accum].
    by replace (m + 1 + Z.of_nat k) with (m + Z.of_nat (S k)) by lia.
Qed.

Lemma accum_sum (sd : ScoreData) (m : Z) (k : nat) :
  accum sd m (Fin 0) k = sumDurations sd m k.
Proof.
  induction k as [| k IH]; [done |]. rewrite accum_S, IH. done.
Qed.

(** What the loop leaves in the two tables and in [cumTime]. *)
Lemma measureTimes_spec (sd : ScoreData) (n : nat) :
  ∀ m cum starts secs,
    let r := measureTimes sd n m cum starts secs in
    (∀ k, (k < n)%nat → r.1.1 !! (m + Z.of_nat k) = Some (accum sd m cum k)) ∧
    (∀ k, (k < n)%nat →
          r.1.2 !! (m + Z.of_nat k) = Some (measureSecPerBeat sd (m + Z.of_nat k))) ∧
    (∀ j, ¬ (m ≤ j < m + Z.of_nat n) →
          r.1.1 !! j = starts !! j ∧ r.1.2 !! j = secs !! j) ∧
    r.2 = accum sd m cum n.
Proof.
  induction n as [| n IH]; intros m cum starts secs r.
  - subst r. cbn. repeat split; intros; try lia; done.
  - subst r. cbn [measureTimes accum].
    specialize (IH (m + 1) (nadd cum (measureDuration sd m))
                  (<[m := cum]> starts) (<[m := measureSecPerBeat sd m]> secs)).
    cbn zeta in IH. destruct IH as (IH1 & IH2 & IH3 & IH4).
    unfold measureDuration in *.
    split; [| split; [| split]].
    + intros [| k] Hk.
      * rewrite Z.add_0_r. destruct (IH3 m) as [-> _]; [lia |].
        by rewrite lookup_insert_eq.
      * replace (m + Z.of_nat (S k)) with (m + 1 + Z.of_nat k) by lia.
        apply IH1. lia.
    + intros [| k] Hk.
      * rewrite Z.add_0_r. destruct (IH3 m) as [_ ->]; [lia |].
        by rewrite lookup_insert_eq.
      * replace (m + Z.of_nat (S k)) with (m + 1 + Z.of_nat k) by lia.
        apply IH2. lia.
    + intros j Hj. destruct (IH3 j) as [-> ->]; [lia |].
      rewrite !lookup_insert_ne by lia. done.
    + exact IH4.
Qed.

(** The tables of [play] over the span [fromMeasure .. last]. *)
Lemma timing_spec (sd : ScoreData) (fromMeasure last : Z) :
  let r := timing sd fromMeasure last in
  (∀ m, fromMeasure ≤ m ≤ last →
        r.1.1 !! m = Some (startOf sd fromMeasure m) ∧
        r.1.2 !! m = Some (measureSecPerBeat sd m)) ∧
  (∀ m, ¬ (fromMeasure ≤ m ≤ last) → r.1.1 !! m = None ∧ r.1.2 !! m = None) ∧
  (fromMeasure ≤ last → r.2 = startOf sd fromMeasure (last + 1)).
Proof.
  intros r. subst r. unfold timing, startOf.
  pose proof (measureTimes_spec sd (Z.to_nat (last - fromMeasure + 1))
                fromMeasure (Fin 0) ∅ ∅) as H.
  cbn zeta in H. destruct H as (H1 & H2 & H3 & H4).
  split; [| split].
  - intros m Hm.
    specialize (H1 (Z.to_nat (m - fromMeasure)) ltac:(lia)).
    specialize (H2 (Z.to_nat (m - fromMeasure)) ltac:(lia)).
    replace (fromMeasure + Z.of_nat (Z.to_nat (m - fromMeasure))) with m in * by lia.
    rewrite H1, H2, accum_sum. done.
  - intros m Hm. destruct (H3 m) as [-> ->]; [lia |]. by rewrite !lookup_empty.
  - intros Hle. rewrite H4, accum_sum. f_equal. lia.
Qed.

(** [lastNotesMeasure] is at least [fromMeasure] and at least the measure
    of every note to play. *)
Lemma lastNotesMeasure_bounds (fromMeasure : Z) (ns : list Note) :
  fromMeasure ≤ lastNotesMeasure fromMeasure ns ∧
  ∀ n, n ∈ ns → playable fromMeasure n = true →
       measure n ≤ lastNotesMeasure fromMeasure ns.
Proof.
  unfold lastNotesMeasure.
  assert (G : ∀ acc,
    acc ≤ fold_left
            (λ last n,
               if (is_rest n =? 0) && (fromMeasure <=? measure n) && (last <? measure n)
               then measure n else last) ns acc ∧
    ∀ n, n ∈ ns → playable fromMeasure n = true →
         measure n ≤ fold_left
            (λ last n,
               if (is_rest n =? 0) && (fromMeasure <=? measure n) && (last <? measure n)
               then measure n else last) ns acc).
  { induction ns as [| x ns IH]; intros acc.
    - cbn. split; [lia |]. intros n Hn. by apply elem_of_nil in Hn.
    - cbn [fold_left].
      set (acc' := if (is_rest x =? 0) && (fromMeasure <=? measure x) && (acc <? measure x)
                   then measure x else acc).
      destruct (IH acc') as [IH1 IH2].
      assert (Hacc : acc ≤ acc').
      { subst acc'. destruct ((is_rest x =? 0) && (fromMeasure <=? measure x)); cbn [andb];
          [| lia]. destruct (acc <? measure x) eqn:E; [| lia]. apply Z.ltb_lt in E. lia. }
      split; [lia |]. intros n Hn Hp. apply elem_of_cons in Hn as [-> | Hn].
      + assert (measure x ≤ acc'); [| lia].
        subst acc'. unfold playable in Hp. rewrite Hp. cbn [andb].
        destruct (acc <? measure x) eqn:E; [lia |]. apply Z.ltb_ge in E. lia.
      + by apply IH2. }
  apply G.
Qed.

Lemma regular_duration (sd : ScoreData) (m : Z) :
  regular sd m → ∃ d, measureDuration sd m = Fin d.
Proof.
  intros (b & s & Hb & Hs & _). unfold measureDuration. rewrite Hb, Hs. by eexists.
Qed.

Lemma regular_duration_pos (sd : ScoreData) (m : Z) :
  regular sd m → nle (Fin 1) (measureBeats sd m) = true →
  ∃ d, measureDuration sd m = Fin d ∧ (0 < d)%Q.
Proof.
  intros (b & s & Hb & Hs & Hpos) Hone. unfold measureDuration.
  rewrite Hb in Hone |- *. rewrite Hs. cbn in Hone. apply Qle_bool_iff in Hone.
  eexists. split; [reflexivity |]. nra.
Qed.

Lemma sumDurations_finite (sd : ScoreData) (fromMeasure : Z) (k : nat) :
  (∀ j, (j < k)%nat → regular sd (fromMeasure + Z.of_nat j)) →
  ∃ q, sumDurations sd fromMeasure k = Fin q.
Proof.
  induction k as [| k IH]; intros Hreg; [by eexists |].
  destruct IH as [q Hq]; [intros j Hj; apply Hreg; lia |].
  destruct (regular_duration sd (fromMeasure + Z.of_nat k)) as [d Hd];
    [apply Hreg; lia |].
  cbn [sumDurations]. rewrite Hq, Hd. by eexists.
Qed.

Lemma sumDurations_increasing (sd : ScoreData) (fromMeasure : Z) (k k' : nat) :
  (∀ j, (j < k')%nat →
        regular sd (fromMeasure + Z.of_nat j) ∧
        nle (Fin 1) (measureBeats sd (fromMeasure + Z.of_nat j)) = true) →
  (k < k')%nat →
  ∃ q q', sumDurations sd fromMeasure k = Fin q ∧
          sumDurations sd fromMeasure k' = Fin q' ∧ (q < q')%Q.
Proof.
  intros Hreg Hlt.
  destruct (sumDurations_finite sd fromMeasure k) as [q Hq];
    [intros j Hj; apply Hreg; lia |].
  exists q. induction k' as [| k' IH]; [lia |].
  destruct (regular_duration_pos sd (fromMeasure + Z.of_nat k')) as (d & Hd & Hpos);
    [apply Hreg; lia | apply Hreg; lia |].
  cbn [sumDurations]. rewrite Hd.
  destruct (decide (k = k')) as [-> | Hne].
  - rewrite Hq. eexists. split; [done |]. split; [done |]. lra.
  - destruct IH as (q' & _ & Hq' & Hlt'); [intros j Hj; apply Hreg; lia | lia |].
    rewrite Hq'. eexists. split; [done |]. split; [done |]. lra.
Qed.

(** The effective signature of a well-formed score has a numeral time
    signature and a finite, positive tempo. *)
Lemma getEffectiveSignature_well_formed (sd : ScoreData) (m : Z) :
  well_formed sd = true →
  numeral_time (time (getEffectiveSignature m sd)) = true ∧
  positive (sig_tempo (getEffectiveSignature m sd)) = true.
Proof.
  unfold well_formed, getEffectiveSignature.
  rewrite !andb_true_iff. intros [[Ht Hn] Hall].
  set (base := {| key := key_signature (score sd);
                  time := time_signature (score sd);
                  sig_tempo := tempo (score sd) |}).
  assert (Hbase : numeral_time (time base) = true ∧ positive (sig_tempo base) = true)
    by done.
  clearbody base. revert base Hbase.
  induction (measureSignatures sd) as [| s l IH]; intros base Hbase; [done |].
  cbn [forallb] in Hall. apply andb_true_iff in Hall as [Hs Hl].
  cbn [fold_left]. apply IH; [done |].
  unfold applySignature. destruct (ms_measure s <=? m); [| done].
  unfold well_formed_override in Hs. apply andb_true_iff in Hs as [Hs1 Hs2].
  destruct Hbase as [Hb1 Hb2]. cbn [time sig_tempo]. split.
  - destruct (ms_time_signature s) as [t |]; cbn; [| done].
    by destruct (truthy_str t).
  - destruct (ms_tempo s) as [t |]; cbn; [| done].
    destruct (truthy_num t); [| done]. done.
Qed.

(** [Number] on a run of digits (the empty run too) is a finite number. *)
Lemma isDigit_bounds (c : ascii) :
  isDigit c = true → (48 <= N_of_ascii c <= 57)%N.
Proof.
  unfold isDigit. cbn zeta. intros H. apply andb_true_iff in H as [H1 H2].
  apply N.leb_le in H1, H2. done.
Qed.

Lemma trimStart_digit (c : ascii) (r : string) :
  isDigit c = true → trimStart (String c r) = String c r.
Proof.
  intros Hc. apply isDigit_bounds in Hc.
  assert (H1 : isWhiteSpace1 c = false).
  { unfold isWhiteSpace1. cbn zeta. apply orb_false_iff. split.
    - apply andb_false_iff. right. apply N.leb_gt. lia.
    - apply N.eqb_neq. lia. }
  assert (Hne : ∀ k, (57 < k)%N → (N_of_ascii c =? k)%N = false)
    by (intros k Hk; apply N.eqb_neq; lia).
  cbn [trimStart]. rewrite H1. destruct r as [| c2 [| c3 r]]; [done | |].
  - unfold isWhiteSpace2. by rewrite (Hne 194%N) by lia.
  - unfold isWhiteSpace2, isWhiteSpace3. cbn zeta.
    rewrite (Hne 194%N), (Hne 225%N), (Hne 226%N), (Hne 227%N), (Hne 239%N) by lia.
    done.
Qed.

Lemma trimEnd_digits (s : string) :
  ∀ acc z, digitsVal acc s = Some z → trimEnd s = s.
Proof.
  induction s as [| c r IH]; intros acc z H; [done |].
  cbn [digitsVal] in H. destruct (isDigit c) eqn:Hc; [| done].
  cbn [trimEnd]. rewrite (trimStart_digit c r Hc). cbn [String.eqb].
  by rewrite (IH _ _ H).
Qed.

Lemma takeDigits_digits (s : string) :
  ∀ acc k z, digitsVal acc s = Some z →
             takeDigits acc k s = (z, (k + String.length s)%nat, EmptyString).
Proof.
  induction s as [| c r IH]; intros acc k z H; cbn [digitsVal takeDigits] in *.
  - injection H as <-. cbn. by rewrite Nat.add_0_r.
  - destruct (isDigit c); [| done]. rewrite (IH _ (S k) _ H). cbn [String.length].
    by rewrite Nat.add_succ_r.
Qed.

Lemma unsignedDecimal_digits (c : ascii) (r : string) (z : Z) :
  digitsVal 0 (String c r) = Some z →
  is_Some (unsignedDecimal (String c r)).
Proof.
  intros H. unfold unsignedDecimal.
  rewrite (takeDigits_digits _ 0 0%nat z H). cbn. eauto.
Qed.

Lemma strDecimalLiteral_digits (c : ascii) (r : string) (z : Z) :
  digitsVal 0 (String c r) = Some z →
  ∃ q, strDecimalLiteral (String c r) = Some (Fin q).
Proof.
  intros H. destruct (unsignedDecimal_digits c r z H) as [q Hq].
  assert (Hc : isDigit c = true).
  { cbn [digitsVal] in H. by destruct (isDigit c). }
  exists q. revert Hq.
  destruct c as [[] [] [] [] [] [] [] []]; try discriminate Hc;
    unfold strDecimalLiteral; cbn [String.eqb Ascii.eqb Bool.eqb];
    by intros ->.
Qed.

Lemma Number_digits (s : string) (z : Z) :
  digitsVal 0 s = Some z → ∃ q, Number s = Fin q.
Proof.
  intros H. destruct s as [| c r]; [by exists 0%Q |].
  assert (Hc : isDigit c = true).
  { cbn [digitsVal] in H. by destruct (isDigit c). }
  unfold Number, trim. rewrite (trimStart_digit c r Hc), (trimEnd_digits _ _ _ H).
  cbn zeta. destruct (nonDecimalLiteral (String c r)) as [v |]; [eauto |].
  destruct (strDecimalLiteral_digits c r z H) as [q ->]. eauto.
Qed.

Lemma well_formed_regular (sd : ScoreData) (m : Z) :
  well_formed sd = true → regular sd m.
Proof.
  intros Hwf. destruct (getEffectiveSignature_well_formed sd m Hwf) as [Ht Hp].
  unfold regular, measureBeats, measureSecPerBeat.
  unfold numeral_time in Ht.
  destruct (digitsVal 0 (split_head "/" (time (getEffectiveSignature m sd))))
    as [z |] eqn:Hz0; [| done].
  destruct (Number_digits _ _ Hz0) as [bt ->].
  destruct (sig_tempo (getEffectiveSignature m sd)) as [q | | |] eqn:Hq; try done.
  cbn in Hp. apply is_pos_true in Hp.
  assert (Hz : is_zero q = false).
  { destruct (is_zero q) eqn:E; [| done]. apply is_zero_true in E. lra. }
  cbn. rewrite Hz. cbn. rewrite Hz.
  eexists _, _. split; [done |]. split; [done |].
  apply Qlt_shift_div_l; lra.
Qed.

(** C3, as stated, fails at the last measure of the span.  The table of
    start times stops at the last measure played: for the score of one
    measure, [cumulativeStart[1 + 1]] is undefined, so the
    difference claimed for every measure of the span is not there for its
    last measure. *)
Lemma no_start_after_last_measure :
  lastNotesMeasure 1 (notes celloScore) = 1 ∧
  ¬ (∀ m, 1 ≤ m ≤ 1 →
       ∃ a b, (timing celloScore 1 1).1.1 !! m = Some a ∧
              (timing celloScore 1 1).1.1 !! (m + 1) = Some b ∧
              num_eq (nsub b a) (measureDuration celloScore m)).
Proof.
  split; [reflexivity |]. intros H.
  destruct (H 1 ltac:(lia)) as (a & b & _ & Hb & _).
  vm_compute in Hb. discriminate Hb.
Qed.

(** In doubles the differences of the table hold up to rounding only:
    at the base tempo 100 in 4/4 a measure lasts [4 * (60 / 100)], yet the
    fourth start time less the third is not that double: it is below it. *)
Example start_times_round_in_doubles :
  let starts := (Binary64.measureTimes64 celloScore 4 1 (Binary64.Z_to_double 0) ∅).1 in
  ∃ third fourth,
    starts !! 3 = Some third ∧ starts !! 4 = Some fourth ∧
    PrimFloat.eqb (PrimFloat.sub fourth third)
      (PrimFloat.mul (Binary64.Z_to_double 4)
         (PrimFloat.div (Binary64.Z_to_double 60) (Binary64.Z_to_double 100)))
    = false ∧
    PrimFloat.ltb (PrimFloat.sub fourth third)
      (PrimFloat.mul (Binary64.Z_to_double 4)
         (PrimFloat.div (Binary64.Z_to_double 60) (Binary64.Z_to_double 100)))
    = true.
Proof.
  eexists _, _. split; [vm_compute; reflexivity |].
  split; [vm_compute; reflexivity |]. vm_compute. split; reflexivity.
Qed.

(** C3, amended.  Over a span [fromMeasure .. last] whose measures have a
    finite number of beats and a finite positive tempo, for every measure
    [m] of the span: the table's start time of [m] is the sum, over the
    measures of the span before [m], of beats times seconds per beat, each
    from that measure's own effective time signature and tempo; the start
    times are strictly increasing when every measure has at least one
    beat; for [m] before [last] the next entry exceeds this one by the
    length of [m]; and the table has no entry after [last], where the
    total duration exceeds the start of [last] by the length of [last]. *)
Theorem cumulative_start_times (sd : ScoreData) (fromMeasure last m : Z) :
  fromMeasure ≤ m ≤ last →
  (∀ k, fromMeasure ≤ k ≤ last → regular sd k) →
  let r := timing sd fromMeasure last in
  r.1.1 !! m = Some (startOf sd fromMeasure m) ∧
  r.1.2 !! m = Some (measureSecPerBeat sd m) ∧
  ((∀ k, fromMeasure ≤ k ≤ last → nle (Fin 1) (measureBeats sd k) = true) →
   ∀ m', m < m' ≤ last →
         nlt (startOf sd fromMeasure m) (startOf sd fromMeasure m') = true) ∧
  (m < last →
   r.1.1 !! (m + 1) = Some (startOf sd fromMeasure (m + 1)) ∧
   num_eq (nsub (startOf sd fromMeasure (m + 1)) (startOf sd fromMeasure m))
          (measureDuration sd m)) ∧
  r.1.1 !! (last + 1) = None ∧
  num_eq (nsub r.2 (startOf sd fromMeasure last)) (measureDuration sd last).
Proof.
  intros Hm Hreg r. subst r.
  destruct (timing_spec sd fromMeasure last) as (Hin & Hout & Htot).
  assert (Hstep : ∀ k, fromMeasure ≤ k ≤ last →
            startOf sd fromMeasure (k + 1)
            = nadd (startOf sd fromMeasure k) (measureDuration sd k)).
  { intros k Hk. unfold startOf.
    replace (Z.to_nat (k + 1 - fromMeasure)) with (S (Z.to_nat (k - fromMeasure))) by lia.
    cbn [sumDurations]. do 2 f_equal. lia. }
  assert (Hdiff : ∀ k, fromMeasure ≤ k ≤ last →
            num_eq (nsub (startOf sd fromMeasure (k + 1)) (startOf sd fromMeasure k))
                   (measureDuration sd k)).
  { intros k Hk. rewrite (Hstep k Hk).
    destruct (sumDurations_finite sd fromMeasure (Z.to_nat (k - fromMeasure)))
      as [q Hq]; [intros j Hj; apply Hreg; lia |].
    destruct (regular_duration sd k (Hreg k Hk)) as [d Hd].
    unfold startOf. rewrite Hq, Hd. cbn. ring. }
  split; [apply Hin, Hm |]. split; [apply Hin, Hm |].
  split; [| split; [| split]].
  - intros Hone m' Hm'. unfold startOf.
    destruct (sumDurations_increasing sd fromMeasure
                (Z.to_nat (m - fromMeasure)) (Z.to_nat (m' - fromMeasure)))
      as (q & q' & -> & -> & Hlt); [| lia |].
    + intros j Hj. split; [apply Hreg | apply Hone]; lia.
    + cbn. apply negb_true_iff. destruct (Qle_bool q' q) eqn:E; [| done].
      apply Qle_bool_iff in E. lra.
  - intros Hlt. split; [apply Hin; lia | apply Hdiff, Hm].
  - apply Hout. lia.
  - rewrite Htot by lia. apply Hdiff. lia.
Qed.

Lemma cumulative_start_times_witness :
  (timing changingScore 1 3).1.1 !! 2 = Some (startOf changingScore 1 2) ∧
  nlt (startOf changingScore 1 2) (startOf changingScore 1 3) = true ∧
  num_eq (nsub (startOf changingScore 1 3) (startOf changingScore 1 2)) (Fin 1.5) ∧
  (timing changingScore 1 3).1.1 !! 4 = None.
Proof.
  destruct (cumulative_start_times changingScore 1 3 2 ltac:(lia)
              (λ k _, well_formed_regular changingScore k eq_refl))
    as (H1 & _ & H2 & H3 & H4 & _).
  split; [exact H1 |]. split; [| split; [| exact H4]].
  - apply H2; [| lia]. intros k Hk.
    assert (Hc : k = 1 ∨ k = 2 ∨ k = 3) by lia.
    destruct Hc as [-> | [-> | ->]]; reflexivity.
  - destruct (H3 ltac:(lia)) as [_ H].
    apply (num_eq_trans _ _ _ H). vm_compute. reflexivity.
Defined.

(** ** The start and the duration of a note *)

(** What a resumed [play] leaves, while the engine is still playing. *)
Lemma play_resume_playing (b : Browser) (session : nat) (s : Suspended) (now : num) :
  playing (engine b) = true →
  let sd := sus_scoreData s in
  let fromMeasure := sus_fromMeasure s in
  let r := timing sd fromMeasure (lastNotesMeasure fromMeasure (notes sd)) in
  let b' := play_resume b session s now in
  let new := scheduleAll (engine b') session
               (schedule (engine b') (score sd) fromMeasure (notes sd)) in
  startTime (engine b') = now ∧
  _measureStartTimes (engine b') = r.1.1 ∧
  _measureSecPerBeat (engine b') = r.1.2 ∧
  _totalDuration (engine b') = r.2 ∧
  nodes b' = (nodes b ++ new)%list ∧
  scheduledNodes (engine b')
  = (scheduledNodes (engine b) ++ seq (length (nodes b)) (length new))%list ∧
  playing (engine b') = true ∧ loading (engine b') = false.
Proof.
  intros Hp. cbn zeta. unfold play_resume. rewrite Hp. cbn [negb].
  destruct (timing _ _ _) as [[starts secs] total]. cbn. done.
Qed.




Example scenarioLoaded_reached :
  run newBrowser [Call_play scenarioScore 1; Settle 0 true] = Some scenarioLoaded ∧
  suspended scenarioLoaded !! 0%nat = Some scenarioSuspended ∧
  step scenarioLoaded (Resume 0 (Fin 10)) = Some scenarioPlaying.
Proof. vm_compute. repeat split; reflexivity. Qed.

(** The scenario of the specification, for every session start [t0]: the
    note is given the start [t0 + 0.12 + 0.75] and the duration 0.5. *)
Example quarter_note_at_beat_2_5 (t0 : Q) :
  let e := engine (play_resume scenarioLoaded 0 scenarioSuspended (Fin t0)) in
  scheduled e 1 scenarioNote = true ∧
  num_eq (noteStart e (score scenarioScore) scenarioNote) (Fin (t0 + 0.12 + 0.75)) ∧
  num_eq (noteDur e (score scenarioScore) scenarioNote) (Fin 0.5).
Proof.
  destruct (play_resume_playing scenarioLoaded 0 scenarioSuspended (Fin t0) eq_refl)
    as (Hst & Hstarts & Hsecs & _).
  cbn zeta in *. split; [reflexivity |].
  unfold noteDur, noteStart, noteSecPerBeat. rewrite Hst, Hstarts, Hsecs.
  replace (or_else truthy_num
             ((timing scenarioScore 1 (lastNotesMeasure 1 (notes scenarioScore))).1.1
                !! measure scenarioNote) (Fin 0))
    with (Fin 0) by (vm_compute; reflexivity).
  replace (or_else truthy_num
             ((timing scenarioScore 1 (lastNotesMeasure 1 (notes scenarioScore))).1.2
                !! measure scenarioNote) (ndiv (Fin 60) (tempo (score scenarioScore))))
    with (Fin (60 # 120)) by (vm_compute; reflexivity).
  split.
  - unfold SCHEDULE_AHEAD. cbn [nadd nmul nsub nneg num_eq beat scenarioNote]. ring.
  - vm_compute. reflexivity.
Qed.

Example changingLoaded_reached :
  run newBrowser [Call_play changingScore 1; Settle 0 true; Settle 1 true]
  = Some changingLoaded ∧
  suspended changingLoaded !! 0%nat = Some changingSuspended ∧
  step changingLoaded (Resume 0 (Fin 10)) = Some changingPlaying.
Proof. vm_compute. repeat split; reflexivity. Qed.


(** ** The sample cache *)

(** One turn of the loop of [preload]. *)
Lemma preload_loop_cons (n : Note) (rest : list Note) (seen : gset string)
    (jobs : list nat) (c : SampleCache) (net : list Fetch) :
  preload_loop (n :: rest) seen jobs c net =
  if negb (is_rest n =? 0) then preload_loop rest seen jobs c net
  else if bool_decide (cacheKey_of n ∈ seen)
          || bool_decide (is_Some (_cache c !! cacheKey_of n))
  then preload_loop rest seen jobs c net
  else
    match _pending c !! cacheKey_of n with
    | Some p => preload_loop rest ({[cacheKey_of n]} ∪ seen) (jobs ++ [p])%list c net
    | None =>
        preload_loop rest ({[cacheKey_of n]} ∪ seen) (jobs ++ [length net])%list
          {| _cache := _cache c;
             _pending := <[cacheKey_of n := length net]> (_pending c) |}
          (net ++ [{| fetch_key := cacheKey_of n;
                      fetch_url := sample_url (soundfont_of (instrument_id n))
                                     (pitchToSampleKey (pitch n)) |}])%list
    end.
Proof.
  cbn [preload_loop]. unfold cacheKey_of, _load.
  destruct (negb (is_rest n =? 0)); [done |].
  destruct (_ || _); [done |].
  by destruct (_pending c !! _).
Qed.

Lemma issued_app (k : string) (net new : list Fetch) :
  issued k (net ++ new) = (issued k net + issued k new)%nat.
Proof. unfold issued. by rewrite filter_app, length_app. Qed.

Lemma issued_one (k : string) (f : Fetch) :
  issued k [f] = if bool_decide (fetch_key f = k) then 1%nat else 0%nat.
Proof.
  unfold issued. rewrite filter_cons, filter_nil.
  destruct (decide (fetch_key f = k)) as [H | H].
  - by rewrite bool_decide_eq_true_2.
  - by rewrite bool_decide_eq_false_2.
Qed.

(** The cache is not written by [preload] up to its [await]; loads in
    flight stay in flight; the promises collected are kept; fetches are
    only added. *)
Lemma preload_loop_keeps (ns : list Note) :
  ∀ seen jobs c net,
    let r := preload_loop ns seen jobs c net in
    _cache r.1.1 = _cache c ∧
    (∀ k p, _pending c !! k = Some p → _pending r.1.1 !! k = Some p) ∧
    (∀ p, p ∈ jobs → p ∈ r.2) ∧
    (∃ new, r.1.2 = net ++ new)%list.
Proof.
  induction ns as [| n ns IH]; intros seen jobs c net r; subst r.
  - cbn. repeat split; auto. exists []. by rewrite app_nil_r.
  - rewrite preload_loop_cons.
    destruct (negb (is_rest n =? 0)); [apply IH |].
    destruct (_ || _); [apply IH |].
    destruct (_pending c !! cacheKey_of n) as [p |] eqn:Hp.
    + destruct (IH ({[cacheKey_of n]} ∪ seen) (jobs ++ [p])%list c net)
        as (H1 & H2 & H3 & H4).
      repeat split; auto. intros q Hq. apply H3, elem_of_app. by left.
    + match goal with |- context [preload_loop ns ?s ?j ?c' ?n'] =>
        destruct (IH s j c' n') as (H1 & H2 & H3 & [new H4]) end.
      cbn [_cache _pending] in *.
      split; [done |]. split; [| split].
      * intros k q Hk. apply H2. rewrite lookup_insert_ne; [done |].
        intros <-. congruence.
      * intros q Hq. apply H3, elem_of_app. by left.
      * eexists. rewrite H4, <- app_assoc. reflexivity.
Qed.

Lemma seen_other (k k' : string) (seen : gset string) :
  k' ≠ k → bool_decide (k ∉ {[k']} ∪ seen) = bool_decide (k ∉ seen).
Proof.
  intros Hk. apply bool_decide_ext.
  rewrite not_elem_of_union, not_elem_of_singleton.
  split; [by intros [_ ?] | intros ?; split; [congruence | done]].
Qed.

(** How many fetches of a key one [preload] starts: one when the key is
    not yet seen, cached or in flight and some note to play has it, none
    otherwise. *)
Lemma preload_loop_issued (k : string) (ns : list Note) :
  ∀ seen jobs c net,
    issued k (preload_loop ns seen jobs c net).1.2
    = (issued k net + if fetches_key k seen c ns then 1 else 0)%nat.
Proof.
  induction ns as [| n ns IH]; intros seen jobs c net.
  - unfold fetches_key. cbn [existsb preload_loop fst snd]. rewrite andb_false_r.
    by rewrite Nat.add_0_r.
  - rewrite preload_loop_cons. unfold fetches_key in *. cbn [existsb].
    destruct (is_rest n =? 0) eqn:Hrest; cbn [negb andb orb]; [| apply IH].
    destruct (decide (cacheKey_of n ∈ seen)) as [Hseen | Hseen].
    { rewrite (bool_decide_eq_true_2 _ Hseen). cbn [orb]. rewrite IH.
      destruct (decide (cacheKey_of n = k)) as [<- | Hk].
      - rewrite (bool_decide_eq_false_2 (cacheKey_of n ∉ seen)) by auto. done.
      - by rewrite (bool_decide_eq_false_2 _ Hk). }
    rewrite (bool_decide_eq_false_2 _ Hseen). cbn [orb].
    destruct (_cache c !! cacheKey_of n) as [buf |] eqn:Hcache.
    { rewrite bool_decide_eq_true_2 by eauto. rewrite IH.
      destruct (decide (cacheKey_of n = k)) as [<- | Hk].
      - rewrite (bool_decide_eq_false_2 (_cache c !! cacheKey_of n = None)) by congruence.
        by rewrite andb_false_r.
      - by rewrite (bool_decide_eq_false_2 _ Hk). }
    rewrite bool_decide_eq_false_2 by (by intros [? ?]).
    destruct (_pending c !! cacheKey_of n) as [p |] eqn:Hpend.
    + rewrite IH. destruct (decide (cacheKey_of n = k)) as [<- | Hk].
      * rewrite (bool_decide_eq_false_2 (cacheKey_of n ∉ _ ∪ seen))
          by (intros H; apply H, elem_of_union_l, elem_of_singleton; done).
        rewrite (bool_decide_eq_false_2 (_pending c !! cacheKey_of n = None))
          by congruence.
        rewrite !andb_false_r. cbn [andb]. done.
      * rewrite (bool_decide_eq_false_2 _ Hk). cbn [orb].
        by rewrite (seen_other _ _ _ Hk).
    + rewrite IH. cbn [_cache _pending]. rewrite issued_app, issued_one.
      cbn [fetch_key].
      destruct (decide (cacheKey_of n = k)) as [<- | Hk].
      * rewrite (bool_decide_eq_true_2 (cacheKey_of n = cacheKey_of n)) by done.
        rewrite (bool_decide_eq_false_2 (cacheKey_of n ∉ _ ∪ seen))
          by (intros H; apply H, elem_of_union_l, elem_of_singleton; done).
        rewrite (bool_decide_eq_true_2 (cacheKey_of n ∉ seen)) by done.
        rewrite (bool_decide_eq_true_2 (_cache c !! cacheKey_of n = None)) by done.
        rewrite (bool_decide_eq_true_2 (_pending c !! cacheKey_of n = None)) by done.
        cbn. lia.
      * rewrite !(bool_decide_eq_false_2 _ Hk). cbn [orb].
        rewrite lookup_insert_ne by done.
        by rewrite Nat.add_0_r, (seen_other _ _ _ Hk).
Qed.

(** Every note to play whose sample is not cached has, after the loop, a
    load in flight whose promise is among those awaited. *)
Lemma preload_loop_jobs (ns : list Note) :
  ∀ seen jobs c net n,
    n ∈ ns → is_rest n = 0 → _cache c !! cacheKey_of n = None →
    cacheKey_of n ∈ seen ∨
    ∃ p, _pending (preload_loop ns seen jobs c net).1.1 !! cacheKey_of n = Some p ∧
         p ∈ (preload_loop ns seen jobs c net).2.
Proof.
  induction ns as [| x ns IH]; intros seen jobs c net n Hn Hrest Hcache.
  { by apply elem_of_nil in Hn. }
  rewrite preload_loop_cons.
  destruct (decide (cacheKey_of x = cacheKey_of n ∧ is_rest x = 0)) as [[Hk Hx] | Hne].
  - (* the turn for [x] settles the key of [n] *)
    rewrite Hx, Hk. cbn [Z.eqb negb].
    destruct (decide (cacheKey_of n ∈ seen)) as [Hseen | Hseen]; [by left |].
    right. rewrite (bool_decide_eq_false_2 _ Hseen).
    rewrite bool_decide_eq_false_2 by (rewrite Hcache; by intros [? ?]).
    cbn [orb].
    destruct (_pending c !! cacheKey_of n) as [p |] eqn:Hp.
    + exists p.
      destruct (preload_loop_keeps ns ({[cacheKey_of n]} ∪ seen) (jobs ++ [p])%list c net)
        as (_ & H2 & H3 & _).
      split; [by apply H2 | apply H3, elem_of_app; right; apply list_elem_of_here].
    + exists (length net).
      match goal with |- context [preload_loop ns ?s ?j ?c' ?n'] =>
        destruct (preload_loop_keeps ns s j c' n') as (_ & H2 & H3 & _) end.
      split; [apply H2; cbn; apply lookup_insert_eq |].
      apply H3, elem_of_app. right. apply list_elem_of_here.
  - apply elem_of_cons in Hn as [-> | Hn]; [by destruct Hne |].
    destruct (negb (is_rest x =? 0)) eqn:Hx; [by apply IH |].
    destruct (_ || _); [by apply IH |].
    assert (Hkx : cacheKey_of x ≠ cacheKey_of n).
    { intros E. apply Hne. split; [done |].
      apply negb_false_iff, Z.eqb_eq in Hx. done. }
    destruct (_pending c !! cacheKey_of x) as [p |] eqn:Hp.
    + destruct (IH ({[cacheKey_of x]} ∪ seen) (jobs ++ [p])%list c net n Hn Hrest Hcache)
        as [Hs | Hs]; [| by right].
      left. apply elem_of_union in Hs as [Hs | Hs]; [| done].
      apply elem_of_singleton in Hs. congruence.
    + match goal with |- context [preload_loop ns ?s ?j ?c' ?n'] =>
        destruct (IH s j c' n' n Hn Hrest Hcache) as [Hs | Hs]; [| by right] end.
      left. apply elem_of_union in Hs as [Hs | Hs]; [| done].
      apply elem_of_singleton in Hs. congruence.
Qed.

(** Every load in flight is the load of a fetch issued for its key, and
    a load started by this loop is a fetch issued by this loop. *)
Lemma preload_loop_points (ns : list Note) :
  ∀ seen jobs c net,
    (∀ k p, _pending c !! k = Some p → ∃ f, net !! p = Some f ∧ fetch_key f = k) →
    ∀ k p, _pending (preload_loop ns seen jobs c net).1.1 !! k = Some p →
           (∃ f, (preload_loop ns seen jobs c net).1.2 !! p = Some f ∧ fetch_key f = k) ∧
           (_pending c !! k = None → (length net ≤ p)%nat).
Proof.
  induction ns as [| x ns IH]; intros seen jobs c net Hinv k p.
  { cbn. intros Hp. split; [by apply Hinv | congruence]. }
  rewrite preload_loop_cons.
  destruct (negb (is_rest x =? 0)); [by apply IH |].
  destruct (_ || _); [by apply IH |].
  destruct (_pending c !! cacheKey_of x) as [q |] eqn:Hq; [by apply IH |].
  match goal with |- context [preload_loop ns ?s ?j ?c' ?n'] =>
    specialize (IH s j c' n');
    pose proof (preload_loop_keeps ns s j c' n') as (_ & Hkeep & _) end.
  cbn [_cache _pending] in IH, Hkeep.
  intros Hp. destruct IH with (k := k) (p := p) as [Hf Hlen]; [| done |].
  - intros k' p' Hk'. destruct (decide (cacheKey_of x = k')) as [<- | Hne].
    + rewrite lookup_insert_eq in Hk'. injection Hk' as <-.
      eexists. split; [by apply list_lookup_middle | reflexivity].
    + rewrite lookup_insert_ne in Hk' by done.
      destruct (Hinv k' p' Hk') as (f & Hf & Hkf). exists f. split; [| done].
      by apply lookup_app_l_Some.
  - split; [done |]. intros Hnone.
    destruct (decide (cacheKey_of x = k)) as [<- | Hne].
    + specialize (Hkeep (cacheKey_of x) (length net)).
      rewrite lookup_insert_eq in Hkeep. specialize (Hkeep eq_refl).
      rewrite Hkeep in Hp. injection Hp as <-. lia.
    + rewrite lookup_insert_ne in Hlen by done. specialize (Hlen Hnone).
      rewrite length_app in Hlen. cbn in Hlen. lia.
Qed.

Lemma existsb_key (k : string) (ns : list Note) :
  (∃ n, n ∈ ns ∧ is_rest n = 0 ∧ cacheKey_of n = k) →
  existsb (λ n, (is_rest n =? 0) && bool_decide (cacheKey_of n = k)) ns = true.
Proof.
  intros (n & Hn & Hr & Hk). apply existsb_exists. exists n.
  split; [by apply list_elem_of_In |].
  rewrite Hr, (bool_decide_eq_true_2 _ Hk). done.
Qed.

(** A load that this loop puts in flight is a fetch that this loop
    issues, for that key. *)
Lemma preload_loop_new (ns : list Note) :
  ∀ seen jobs c net k p,
    _pending c !! k = None →
    _pending (preload_loop ns seen jobs c net).1.1 !! k = Some p →
    (length net ≤ p)%nat ∧
    ∃ f, (preload_loop ns seen jobs c net).1.2 !! p = Some f ∧ fetch_key f = k.
Proof.
  induction ns as [| x ns IH]; intros seen jobs c net k p Hnone.
  { cbn. congruence. }
  rewrite preload_loop_cons.
  destruct (negb (is_rest x =? 0)); [by apply IH |].
  destruct (_ || _); [by apply IH |].
  destruct (_pending c !! cacheKey_of x) as [q |] eqn:Hq; [by apply IH |].
  match goal with |- context [preload_loop ns ?s ?j ?c' ?n'] =>
    specialize (IH s j c' n' k p);
    pose proof (preload_loop_keeps ns s j c' n') as (_ & Hkeep & _ & [new Hnew]) end.
  cbn [_cache _pending] in IH, Hkeep.
  destruct (decide (cacheKey_of x = k)) as [<- | Hne].
  - intros Hp. specialize (Hkeep (cacheKey_of x) (length net)).
    rewrite lookup_insert_eq in Hkeep. specialize (Hkeep eq_refl).
    rewrite Hkeep in Hp. injection Hp as <-. split; [lia |].
    eexists.
    split; [rewrite Hnew; apply lookup_app_l_Some; by apply list_lookup_middle |].
    reflexivity.
  - rewrite lookup_insert_ne in IH by done. intros Hp.
    destruct (IH Hnone Hp) as [Hlen Hf]. split; [| done].
    rewrite length_app in Hlen. cbn in Hlen. lia.
Qed.

(** C6.  Let two calls of [preload] run one after the other with no load
    settling in between, both over a note whose cache key [k] is neither
    cached nor in flight before.  Then the two calls together issue
    exactly one fetch for [k]; its promise is among those the first call
    awaits and among those the second call awaits, and it is the entry in
    flight for [k]; and when that load settles, whether it succeeded or
    failed, [k] has no entry in flight any more. *)
Theorem concurrent_preload_one_fetch (c : SampleCache) (net : list Fetch)
    (ns1 ns2 : list Note) (k : string) :
  _cache c !! k = None →
  _pending c !! k = None →
  (∃ n, n ∈ ns1 ∧ is_rest n = 0 ∧ cacheKey_of n = k) →
  (∃ n, n ∈ ns2 ∧ is_rest n = 0 ∧ cacheKey_of n = k) →
  let r1 := preload c net ns1 in
  let r2 := preload r1.1.1 r1.1.2 ns2 in
  ∃ p f,
    issued k r2.1.2 = S (issued k net) ∧
    r2.1.2 !! p = Some f ∧ fetch_key f = k ∧ (length net ≤ p)%nat ∧
    p ∈ r1.2 ∧ p ∈ r2.2 ∧
    _pending r2.1.1 !! k = Some p ∧
    ∀ ok, _pending (_load_settle r2.1.1 f ok) !! k = None.
Proof.
  intros Hcache Hpend Hn1 Hn2 r1 r2. subst r1 r2. unfold preload.
  set (r1 := preload_loop ns1 ∅ [] c net).
  set (r2 := preload_loop ns2 ∅ [] r1.1.1 r1.1.2).
  destruct (preload_loop_keeps ns1 ∅ [] c net) as (Hc1 & _ & _ & _).
  destruct (preload_loop_keeps ns2 ∅ [] r1.1.1 r1.1.2) as (_ & Hkeep2 & _ & [new Hnew]).
  fold r1 in Hc1. fold r2 in Hkeep2, Hnew.
  (* the first call *)
  assert (Hi1 : issued k r1.1.2 = S (issued k net)).
  { subst r1. rewrite preload_loop_issued. unfold fetches_key.
    rewrite (bool_decide_eq_true_2 (k ∉ ∅)) by apply not_elem_of_empty.
    rewrite !bool_decide_eq_true_2 by done.
    rewrite (existsb_key k ns1 Hn1). cbn. lia. }
  destruct Hn1 as (n1 & Hin1 & Hr1 & Hk1). destruct Hn2 as (n2 & Hin2 & Hr2 & Hk2).
  destruct (preload_loop_jobs ns1 ∅ [] c net n1 Hin1 Hr1) as [He | (p & Hp & Hj1)];
    [by rewrite Hk1 | by apply elem_of_empty in He |].
  rewrite Hk1 in Hp. fold r1 in Hp, Hj1.
  destruct (preload_loop_new ns1 ∅ [] c net k p Hpend Hp) as (Hlen & f & Hf & Hkf).
  fold r1 in Hf.
  (* the second call *)
  assert (Hi2 : issued k r2.1.2 = issued k r1.1.2).
  { subst r2. rewrite preload_loop_issued. unfold fetches_key.
    rewrite (bool_decide_eq_false_2 (_pending r1.1.1 !! k = None)) by congruence.
    rewrite andb_false_r. cbn. lia. }
  destruct (preload_loop_jobs ns2 ∅ [] r1.1.1 r1.1.2 n2 Hin2 Hr2)
    as [He | (p' & Hp' & Hj2)];
    [by rewrite Hc1, Hk2 | by apply elem_of_empty in He |].
  rewrite Hk2 in Hp'. fold r2 in Hp', Hj2.
  pose proof (Hkeep2 k p Hp) as Hp2. rewrite Hp2 in Hp'. injection Hp' as <-.
  exists p, f. split; [by rewrite Hi2 |].
  split; [rewrite Hnew; by apply lookup_app_l_Some |].
  do 5 (split; [done |]).
  intros ok. unfold _load_settle. cbn [_pending]. rewrite Hkf. apply lookup_delete_eq.
Qed.

Lemma concurrent_preload_one_fetch_witness :
  ∃ p f,
    issued "cello:C3"
      (preload (preload (_samples newEngine) [] [celloNote]).1.1
               (preload (_samples newEngine) [] [celloNote]).1.2
               (notes changingScore)).1.2 = 1%nat ∧
    (preload (preload (_samples newEngine) [] [celloNote]).1.1
             (preload (_samples newEngine) [] [celloNote]).1.2
             (notes changingScore)).1.2 !! p = Some f ∧
    fetch_key f = "cello:C3" ∧ p = 0%nat.
Proof.
  destruct (concurrent_preload_one_fetch (_samples newEngine) []
              [celloNote] (notes changingScore) "cello:C3"
              (lookup_empty _) (lookup_empty _))
    as (p & f & H1 & H2 & H3 & _ & H4 & _).
  - exists celloNote. split; [apply list_elem_of_here | done].
  - exists celloNote. split; [apply list_elem_of_here | done].
  - exists p, f. split; [exact H1 |]. split; [exact H2 |]. split; [exact H3 |].
    apply list_elem_of_singleton in H4. exact H4.
Defined.

(** ** The event loop *)

Lemma length_foldl_halt (l : list nat) (ns : list AudioNode) :
  length (foldl halt ns l) = length ns.
Proof.
  revert ns. induction l as [| i l IH]; intros ns; [done |].
  cbn [foldl]. rewrite IH. unfold halt. apply length_alter.
Qed.

Lemma stop_loads (b : Browser) : loads (stop b) = loads b.
Proof. reflexivity. Qed.

Lemma stop_nodes_length (b : Browser) : length (nodes (stop b)) = length (nodes b).
Proof. unfold stop. cbn. apply length_foldl_halt. Qed.

Lemma tick_loads (b : Browser) (fr : FrameRequest) (now : num) :
  loads (tick b fr now) = loads b.
Proof.
  unfold tick. destruct (negb (playing (engine b))); [done |].
  destruct (nge _ _); reflexivity.
Qed.

Lemma tick_nodes_length (b : Browser) (fr : FrameRequest) (now : num) :
  length (nodes (tick b fr now)) = length (nodes b).
Proof.
  unfold tick. destruct (negb (playing (engine b))); [done |].
  destruct (nge _ _); [| reflexivity].
  cbn. apply length_foldl_halt.
Qed.

Lemma play_resume_loads (b : Browser) (session : nat) (s : Suspended) (now : num) :
  loads (play_resume b session s now)
  = (_samples (engine b), fetches b, alter mark_resumed session (suspended b)).
Proof.
  unfold play_resume. destruct (negb (playing (engine b))); [done |].
  by destruct (timing _ _ _) as [[? ?] ?].
Qed.

(** What [play] does up to its [await]: the previous session is stopped,
    the loads are started, the call is suspended; no node is created. *)
Lemma play_begin_spec (b : Browser) (sd : ScoreData) (fromMeasure : Z) :
  let r := preload (_samples (engine b)) (fetches b)
             (filter (λ n, playable fromMeasure n) (notes sd)) in
  let b' := play_begin b sd fromMeasure in
  _samples (engine b') = r.1.1 ∧
  fetches b' = r.1.2 ∧
  suspended b'
  = (suspended b ++ [{| sus_scoreData := sd; sus_fromMeasure := fromMeasure;
                        sus_playable := filter (λ n, playable fromMeasure n) (notes sd);
                        sus_jobs := r.2; sus_resumed := false |}])%list ∧
  nodes b' = nodes (stop b) ∧
  settled b' = settled b ∧
  frames b' = frames (stop b) ∧
  playing (engine b') = true ∧ loading (engine b') = true ∧
  scheduledNodes (engine b') = [] ∧
  _animFrame (engine b') = _animFrame (engine (stop b)).
Proof.
  cbn zeta. unfold play_begin.
  change (_samples (engine (stop b))) with (_samples (engine b)).
  change (fetches (stop b)) with (fetches b).
  destruct (preload _ _ _) as [[samples net] jobs]. cbn. done.
Qed.

Lemma loads_invariants (b b' : Browser) :
  loads b' = loads b →
  pending_points b ∧ jobs_cover b ∧ snapshots b →
  pending_points b' ∧ jobs_cover b' ∧ snapshots b'.
Proof.
  unfold loads, pending_points, jobs_cover, snapshots.
  intros [= Hs Hf Hu]. rewrite Hs, Hf, Hu. done.
Qed.

Lemma play_begin_invariants (b : Browser) (sd : ScoreData) (fromMeasure : Z) :
  pending_points b ∧ jobs_cover b ∧ snapshots b →
  pending_points (play_begin b sd fromMeasure) ∧ jobs_cover (play_begin b sd fromMeasure)
  ∧ snapshots (play_begin b sd fromMeasure).
Proof.
  intros (Hpp & Hjc & Hsn).
  destruct (play_begin_spec b sd fromMeasure) as (Hs & Hf & Hu & _).
  set (b' := play_begin b sd fromMeasure) in *.
  set (ns := filter (λ n, playable fromMeasure n) (notes sd)) in *.
  unfold preload in *.
  destruct (preload_loop_keeps ns ∅ [] (_samples (engine b)) (fetches b))
    as (Hcache & _ & _ & [new Hnew]).
  assert (Hpp' : pending_points b').
  { intros k p Hk. rewrite Hs in Hk. rewrite Hf.
    by apply (preload_loop_points ns ∅ [] (_samples (engine b)) (fetches b) Hpp k p). }
  split; [exact Hpp' |]. split.
  - intros i s Hi n Hn. rewrite Hs, Hcache, Hf.
    rewrite Hu in Hi. apply lookup_app_Some in Hi as [Hi | [_ Hi]].
    + destruct (Hjc i s Hi n Hn) as [Hc | (p & f & Hp & Hfp & Hk)]; [by left |].
      right. exists p, f. split; [done |]. split; [| done].
      rewrite Hnew. by apply lookup_app_l_Some.
    + apply list_lookup_singleton_Some in Hi as [_ <-].
      cbn [sus_playable sus_jobs] in *.
      destruct (_cache (_samples (engine b)) !! cacheKey_of n) as [buf |] eqn:Hc;
        [left; eauto |].
      right.
      assert (Hrest : is_rest n = 0).
      { apply list_elem_of_filter in Hn as [Hplay _]. unfold playable in Hplay.
        apply Is_true_true, andb_true_iff in Hplay as [H _]. by apply Z.eqb_eq. }
      destruct (preload_loop_jobs ns ∅ [] (_samples (engine b)) (fetches b) n Hn Hrest Hc)
        as [He | (p & Hp & Hj)]; [by apply elem_of_empty in He |].
      destruct (Hpp' (cacheKey_of n) p) as (f & Hfp & Hk); [by rewrite Hs |].
      exists p, f. rewrite Hf in Hfp. done.
  - intros i s Hi. rewrite Hu in Hi. apply lookup_app_Some in Hi as [Hi | [_ Hi]].
    + by apply (Hsn i).
    + apply list_lookup_singleton_Some in Hi as [_ <-].
      exists (notes sd), []. split; [by rewrite app_nil_r | done].
Qed.

Lemma settle_invariants (b : Browser) (p : nat) (f : Fetch) (ok : bool) :
  pending_points b ∧ jobs_cover b ∧ snapshots b →
  pending_points (settle b p f ok) ∧ jobs_cover (settle b p f ok)
  ∧ snapshots (settle b p f ok).
Proof.
  intros (Hpp & Hjc & Hsn). split; [| split; [| exact Hsn]].
  - intros k q Hk. cbn in Hk.
    destruct (decide (fetch_key f = k)) as [<- | Hne].
    + by rewrite lookup_delete_eq in Hk.
    + rewrite lookup_delete_ne in Hk by done. by apply Hpp.
  - intros i s Hi n Hn. cbn in Hi |- *.
    destruct (Hjc i s Hi n Hn) as [Hc | H]; [| by right].
    left. destruct ok; [| done].
    destruct (decide (fetch_key f = cacheKey_of n)) as [<- | Hne].
    + rewrite lookup_insert_eq. eauto.
    + by rewrite lookup_insert_ne.
Qed.

Lemma play_resume_invariants (b : Browser) (session : nat) (s : Suspended) (now : num) :
  pending_points b ∧ jobs_cover b ∧ snapshots b →
  pending_points (play_resume b session s now) ∧ jobs_cover (play_resume b session s now)
  ∧ snapshots (play_resume b session s now).
Proof.
  intros (Hpp & Hjc & Hsn).
  pose proof (play_resume_loads b session s now) as Hl.
  unfold loads in Hl. injection Hl as Hs Hf Hu.
  unfold pending_points, jobs_cover, snapshots. rewrite Hs, Hf, Hu.
  split; [exact Hpp |]. split.
  - intros i s' Hi. rewrite list_lookup_alter in Hi.
    destruct (decide (session = i)) as [-> | Hne]; [| exact (Hjc i s' Hi)].
    destruct (suspended b !! i) as [s0 |] eqn:Hs0; [| done].
    cbn in Hi. injection Hi as <-. exact (Hjc i s0 Hs0).
  - intros i s' Hi. rewrite list_lookup_alter in Hi.
    destruct (decide (session = i)) as [-> | Hne]; [| exact (Hsn i s' Hi)].
    destruct (suspended b !! i) as [s0 |] eqn:Hs0; [| done].
    cbn in Hi. injection Hi as <-. exact (Hsn i s0 Hs0).
Qed.

(** A push reaches the array and nothing else: the call's [playable] and
    its promises are as they were. *)
Lemma push_lookup (b : Browser) (holders : list nat) (n : Note) (i : nat) (s : Suspended) :
  suspended (push b holders n) !! i = Some s →
  ∃ s0, suspended b !! i = Some s0 ∧ (s = s0 ∨ s = pushed n s0).
Proof.
  unfold push. cbn [suspended]. rewrite list_lookup_imap.
  destruct (suspended b !! i) as [s0 |]; [| done]. cbn.
  intros [= <-]. exists s0. split; [done |]. case_bool_decide; auto.
Qed.

Lemma push_invariants (b : Browser) (holders : list nat) (n : Note) :
  pending_points b ∧ jobs_cover b ∧ snapshots b →
  pending_points (push b holders n) ∧ jobs_cover (push b holders n)
  ∧ snapshots (push b holders n).
Proof.
  intros (Hpp & Hjc & Hsn). split; [exact Hpp |]. split.
  - intros i s Hi. destruct (push_lookup b holders n i s Hi) as (s0 & Hs0 & [-> | ->]);
      exact (Hjc i s0 Hs0).
  - intros i s Hi. destruct (push_lookup b holders n i s Hi) as (s0 & Hs0 & [-> | ->]);
      destruct (Hsn i s0 Hs0) as (called & late & Hnotes & Hplay);
      [by exists called, late |].
    exists called, (late ++ [n])%list. split; [| done].
    cbn [pushed sus_scoreData notes]. by rewrite Hnotes, app_assoc.
Qed.

Lemma step_invariants (b : Browser) (ev : Event) (b' : Browser) :
  step b ev = Some b' →
  pending_points b ∧ jobs_cover b ∧ snapshots b →
  pending_points b' ∧ jobs_cover b' ∧ snapshots b'.
Proof.
  destruct ev as [sd m | | i | i | mc pt | p ok | session now | f now | hs n];
    cbn [step].
  - intros [= <-]. apply play_begin_invariants.
  - intros [= <-]. by apply loads_invariants.
  - intros [= <-]. by apply loads_invariants.
  - intros [= <-]. by apply loads_invariants.
  - intros [= <-]. by apply loads_invariants.
  - destruct (fetches b !! p) as [f |]; [| done].
    destruct (bool_decide (p ∈ settled b)); [done |].
    intros [= <-]. apply settle_invariants.
  - destruct (suspended b !! session) as [s |]; [| done].
    destruct (sus_resumed s); [done |].
    destruct (all_settled b (sus_jobs s)); [| done].
    intros [= <-]. apply play_resume_invariants.
  - destruct (frames b !! f) as [fr |]; [| done].
    intros [= <-]. apply loads_invariants.
    by rewrite tick_loads.
  - intros [= <-]. apply push_invariants.
Qed.

Lemma run_invariants (evs : list Event) :
  ∀ b b', run b evs = Some b' →
          pending_points b ∧ jobs_cover b ∧ snapshots b →
          pending_points b' ∧ jobs_cover b' ∧ snapshots b'.
Proof.
  induction evs as [| ev evs IH]; intros b b'; cbn [run].
  - by intros [= <-].
  - destruct (step b ev) as [b1 |] eqn:Hstep; [| done].
    intros Hrun Hinv. apply (IH b1 b' Hrun). by apply (step_invariants b ev).
Qed.

Lemma reachable_invariants (b : Browser) :
  reachable b → pending_points b ∧ jobs_cover b ∧ snapshots b.
Proof.
  intros [evs Hrun]. apply (run_invariants evs newBrowser b Hrun). split; [| split].
  - intros k p Hk. cbn in Hk. by rewrite lookup_empty in Hk.
  - intros i s Hi. by cbn in Hi.
  - intros i s Hi. by cbn in Hi.
Qed.

(** C5, as stated, fails.  The page pushes the viola's note onto the
    notes array while [play] waits for the cello's sample.  When the call
    resumes it goes through the array as it is then: the viola's note is
    scheduled, although no load of its sample has settled, none having
    been started. *)
Lemma pushed_note_not_preloaded :
  ∃ b b' s node,
    run newBrowser [Call_play celloScore 1; Push_note [0%nat] violaNote; Settle 0 true]
    = Some b ∧
    suspended b !! 0%nat = Some s ∧
    (∀ p, p ∈ sus_jobs s → p ∈ settled b) ∧
    step b (Resume 0 (Fin 0)) = Some b' ∧
    node ∈ nodes b' ∧ node_note node = note_id violaNote ∧ node_halted node = false ∧
    issued (cacheKey_of violaNote) (fetches b') = 0%nat ∧
    ¬ array_preloaded b s.
Proof.
  eexists _, _, _, _. split; [vm_compute; reflexivity |].
  split; [vm_compute; reflexivity |].
  split.
  { intros p Hp. apply list_elem_of_singleton in Hp as ->.
    apply (bool_decide_unpack _). vm_compute. exact I. }
  split; [vm_compute; reflexivity |].
  split; [apply list_elem_of_further, list_elem_of_further, list_elem_of_here |].
  split; [reflexivity |]. split; [reflexivity |]. split; [reflexivity |].
  intros H.
  destruct (H violaNote) as [[buf Hc] | (p & f & Hf & Hk & _)].
  - apply list_elem_of_further, list_elem_of_here.
  - reflexivity.
  - vm_compute in Hc. discriminate Hc.
  - destruct p as [| p]; vm_compute in Hf; [| discriminate Hf].
    injection Hf as <-. vm_compute in Hk. discriminate Hk.
Qed.

(** C5, amended.  In every browser that the event loop reaches, the only
    event that creates an audio node is the resumption of a suspended
    [play] (its own call creates none), and the resumption happens only
    when every promise that the call waits for has settled.  By then the
    load of the sample of every note of the call's [playable] has
    settled: the sample is in the cache, or its fetch has settled without
    one.  These are the notes to play of the array as it was when [play]
    was called; the array may hold notes pushed since, which the call
    schedules as well. *)
Theorem schedule_after_preload (b : Browser) (ev : Event) (b' : Browser) :
  reachable b →
  step b ev = Some b' →
  (length (nodes b) < length (nodes b'))%nat →
  ∃ session now s called late,
    ev = Resume session now ∧
    suspended b !! session = Some s ∧
    (∀ p, p ∈ sus_jobs s → p ∈ settled b) ∧
    (∀ n, n ∈ sus_playable s → key_settled b (cacheKey_of n)) ∧
    array_since_call s called late ∧
    (∀ n, n ∈ called → playable (sus_fromMeasure s) n = true →
          key_settled b (cacheKey_of n)) ∧
    (late = [] → array_preloaded b s).
Proof.
  intros Hreach Hstep Hgrow.
  destruct (reachable_invariants b Hreach) as (_ & Hjc & Hsn).
  destruct ev as [sd m | | i | i | mc pt | p ok | session now | f now | hs n];
    cbn [step] in Hstep.
  - injection Hstep as <-.
    destruct (play_begin_spec b sd m) as (_ & _ & _ & Hn & _).
    rewrite Hn, stop_nodes_length in Hgrow. lia.
  - injection Hstep as <-. rewrite stop_nodes_length in Hgrow. lia.
  - injection Hstep as <-. cbn in Hgrow. lia.
  - injection Hstep as <-. cbn in Hgrow. lia.
  - injection Hstep as <-. cbn in Hgrow. lia.
  - destruct (fetches b !! p) as [f |]; [| done].
    destruct (bool_decide (p ∈ settled b)); [done |].
    injection Hstep as <-. cbn in Hgrow. lia.
  - destruct (suspended b !! session) as [s |] eqn:Hs; [| done].
    destruct (sus_resumed s); [done |].
    destruct (all_settled b (sus_jobs s)) eqn:Hall; [| done].
    destruct (Hsn session s Hs) as (called & late & Hnotes & Hplayable).
    exists session, now, s, called, late. split; [done |]. split; [done |].
    assert (Hjobs : ∀ p, p ∈ sus_jobs s → p ∈ settled b).
    { intros p Hp. unfold all_settled in Hall. rewrite forallb_forall in Hall.
      apply list_elem_of_In in Hp. apply Hall in Hp. by apply bool_decide_eq_true in Hp. }
    split; [exact Hjobs |].
    assert (Hsettled : ∀ n, n ∈ sus_playable s → key_settled b (cacheKey_of n)).
    { intros n Hn.
      destruct (Hjc session s Hs n Hn) as [Hc | (p & f & Hp & Hf & Hk)]; [by left |].
      right. exists p, f. auto. }
    split; [exact Hsettled |]. split; [done |].
    assert (Hcalled : ∀ n, n ∈ called → playable (sus_fromMeasure s) n = true →
                           key_settled b (cacheKey_of n)).
    { intros n Hn Hplay. apply Hsettled. rewrite Hplayable.
      apply list_elem_of_filter. split; [by rewrite Hplay | done]. }
    split; [exact Hcalled |].
    intros -> n Hn. rewrite Hnotes, app_nil_r in Hn. by apply Hcalled.
  - destruct (frames b !! f) as [fr |]; [| done].
    injection Hstep as <-. rewrite tick_nodes_length in Hgrow. cbn in Hgrow. lia.
  - injection Hstep as <-. cbn in Hgrow. lia.
Qed.

Lemma schedule_after_preload_witness :
  ∃ session now s called late,
    Resume 0 (Fin 10) = Resume session now ∧
    suspended changingLoaded !! session = Some s ∧
    (∀ p, p ∈ sus_jobs s → p ∈ settled changingLoaded) ∧
    (∀ n, n ∈ sus_playable s → key_settled changingLoaded (cacheKey_of n)) ∧
    array_since_call s called late ∧
    (∀ n, n ∈ called → playable (sus_fromMeasure s) n = true →
          key_settled changingLoaded (cacheKey_of n)) ∧
    (late = [] → array_preloaded changingLoaded s).
Proof.
  apply (schedule_after_preload changingLoaded (Resume 0 (Fin 10)) changingPlaying).
  - exists [Call_play changingScore 1; Settle 0 true; Settle 1 true].
    vm_compute. reflexivity.
  - vm_compute. reflexivity.
  - vm_compute. lia.
Defined.

(** ** play() on a session that plays, and on one that still loads *)

(** After [stop()] no node is left running, provided every running node
    was on [scheduledNodes]. *)
Lemma stop_all_halted (b : Browser) :
  tracked b → ∀ i n, nodes (stop b) !! i = Some n → node_halted n = true.
Proof.
  intros Ht i n. unfold stop. cbn [nodes]. rewrite foldl_halt_lookup.
  case_bool_decide as Hin.
  - destruct (nodes b !! i) as [n0 |]; [| done]. by intros [= <-].
  - intros Hn. destruct (node_halted n) eqn:Hh; [done |].
    by destruct Hin; apply (Ht i n).
Qed.

Lemma all_halted_tracked (b : Browser) :
  (∀ i n, nodes b !! i = Some n → node_halted n = true) → tracked b.
Proof. intros H i n Hn Hh. rewrite (H i n Hn) in Hh. done. Qed.

Lemma step_tracked (b : Browser) (ev : Event) (b' : Browser) :
  step b ev = Some b' → tracked b → tracked b'.
Proof.
  destruct ev as [sd m | | i | i | mc pt | p ok | session now | f now | hs pn];
    cbn [step].
  - intros [= <-] Ht. apply all_halted_tracked.
    destruct (play_begin_spec b sd m) as (_ & _ & _ & Hn & _). rewrite Hn.
    by apply stop_all_halted.
  - intros [= <-] Ht. by apply all_halted_tracked, stop_all_halted.
  - by intros [= <-].
  - by intros [= <-].
  - by intros [= <-].
  - destruct (fetches b !! p) as [f |]; [| done].
    destruct (bool_decide (p ∈ settled b)); [done |]. by intros [= <-].
  - destruct (suspended b !! session) as [s |]; [| done].
    destruct (sus_resumed s); [done |].
    destruct (all_settled b (sus_jobs s)); [| done].
    intros [= <-] Ht. destruct (playing (engine b)) eqn:Hp.
    + destruct (play_resume_playing b session s now Hp)
        as (_ & _ & _ & _ & Hn & Hs & _).
      intros i n. rewrite Hn, Hs. intros Hi Hh.
      apply elem_of_app. apply lookup_app_Some in Hi as [Hi | [Hge Hi]].
      * left. by apply (Ht i n).
      * right. apply elem_of_seq. apply lookup_lt_Some in Hi. lia.
    + unfold play_resume. rewrite Hp. exact Ht.
  - destruct (frames b !! f) as [fr |]; [| done].
    intros [= <-] Ht. unfold tick. cbn [engine drop_frame].
    destruct (negb (playing (engine b))); [exact Ht |].
    destruct (nge _ _); [| exact Ht].
    apply all_halted_tracked. intros i n. cbn [nodes add_calls].
    by apply (stop_all_halted (drop_frame b f)).
  - by intros [= <-].
Qed.

Lemma reachable_tracked (b : Browser) : reachable b → tracked b.
Proof.
  intros [evs Hrun].
  assert (G : ∀ b0, tracked b0 → run b0 evs = Some b → tracked b).
  { clear Hrun. induction evs as [| ev evs IH]; intros b0 Ht; cbn [run].
    - by intros [= <-].
    - destruct (step b0 ev) as [b1 |] eqn:Hstep; [| done].
      apply IH. by apply (step_tracked b0 ev). }
  apply (G newBrowser); [| done]. intros i n Hn. by cbn in Hn.
Qed.

Lemma stop_cancels_frame (b : Browser) (f : nat) :
  _animFrame (engine b) = Some f → f ≠ 0%nat → frames (stop b) !! f = None.
Proof.
  intros Hf Hne. unfold stop. cbn [frames]. rewrite Hf.
  apply Nat.eqb_neq in Hne. rewrite Hne. cbn [negb]. apply lookup_delete_eq.
Qed.

(** What [play] does to a session that plays: its synchronous part stops
    every node created so far, leaves none scheduled and cancels the
    animation frame. *)
Lemma play_stops_playing_session (b : Browser) (sd : ScoreData) (m : Z) :
  reachable b →
  (∀ i n, nodes (play_begin b sd m) !! i = Some n → node_halted n = true) ∧
  scheduledNodes (engine (play_begin b sd m)) = [] ∧
  (∀ f, _animFrame (engine b) = Some f → f ≠ 0%nat →
        frames (play_begin b sd m) !! f = None).
Proof.
  intros Hreach.
  destruct (play_begin_spec b sd m) as (_ & _ & _ & Hn & _ & Hf & _ & _ & Hs & _).
  rewrite Hn, Hf. split; [| split; [exact Hs |]].
  - by apply stop_all_halted, reachable_tracked.
  - intros f Haf Hne. by apply (stop_cancels_frame b f).
Qed.

(** C1.  What the engine does when [play] is called again while the
    previous call is still loading: both calls are suspended at their
    [await]; the [stop()] of the second call finds nothing to stop, and the
    test [if (!this.playing) return] of the first call passes when it
    resumes, because the second call has set [playing] again.  In either
    order of resumption, and also when [stop()] is called between the two
    calls, both sessions schedule their nodes: the one note of the score
    sounds twice, both nodes are on [scheduledNodes], neither is stopped,
    and two animation frames are requested. *)
Theorem play_while_loading_schedules_twice :
  let doubled (evs : list Event) : Prop :=
    ∃ b, run newBrowser evs = Some b ∧
         length (live b 0) = 1%nat ∧ length (live b 1) = 1%nat ∧
         scheduledNodes (engine b) = [0%nat; 1%nat] ∧
         size (frames b) = 2%nat in
  doubled [ Call_play celloScore 1; Call_play celloScore 1; Settle 0 true;
            Resume 0 (Fin 0); Resume 1 (Fin 0) ] ∧
  doubled [ Call_play celloScore 1; Call_play celloScore 1; Settle 0 true;
            Resume 1 (Fin 0); Resume 0 (Fin 0) ] ∧
  doubled [ Call_play celloScore 1; Call_stop; Call_play celloScore 1; Settle 0 true;
            Resume 0 (Fin 0); Resume 1 (Fin 0) ].
Proof.
  cbn zeta. repeat split; eexists; (split; [vm_compute; reflexivity |]);
    vm_compute; repeat split; reflexivity.
Qed.

(** When the second call comes after the first has resumed, the first
    session's node is stopped and only the second session's is running. *)
Example play_while_playing_restarts :
  ∃ b, run newBrowser
         [ Call_play celloScore 1; Settle 0 true; Resume 0 (Fin 0);
           Call_play celloScore 1; Resume 1 (Fin 5) ] = Some b ∧
       live b 0 = [] ∧ length (live b 1) = 1%nat ∧
       scheduledNodes (engine b) = [1%nat] ∧ size (frames b) = 1%nat.
Proof.
  eexists. split; [vm_compute; reflexivity |]. vm_compute. repeat split; reflexivity.
Qed.

(** * Further properties *)

(** ** getEffectiveSignature *)

Lemma fold_applySignature_ext (m m' : Z) (l : list MeasureSignature) :
  Forall (λ s, (ms_measure s <=? m) = (ms_measure s <=? m')) l →
  ∀ acc, fold_left (applySignature m) l acc = fold_left (applySignature m') l acc.
Proof.
  induction 1 as [| s l Hs _ IH]; intros acc; [done |].
  cbn [fold_left]. rewrite IH. f_equal. unfold applySignature. by rewrite Hs.
Qed.

(** X1.  The overrides of later measures do not reach back: when every
    override of the score is for a measure after [m] (in particular when
    there is none), the effective signature of [m] is the score's own
    key, time signature and tempo. *)
Theorem later_overrides_ignored (sd : ScoreData) (m : Z) :
  Forall (λ s, m < ms_measure s) (measureSignatures sd) →
  getEffectiveSignature m sd = baseSignature sd.
Proof.
  intros Hall. unfold getEffectiveSignature. fold (baseSignature sd).
  generalize (baseSignature sd) as acc.
  induction Hall as [| s l Hs _ IH]; intros acc; [done |].
  cbn [fold_left]. rewrite IH. unfold applySignature.
  destruct (ms_measure s <=? m) eqn:E; [| done]. apply Z.leb_le in E. lia.
Qed.

Lemma later_overrides_ignored_witness :
  getEffectiveSignature 1 changingScore = baseSignature changingScore.
Proof.
  apply later_overrides_ignored. repeat constructor.
Defined.

(** X2.  A signature stays in force until the next override: when no
    override is for a measure after [m] and up to [m'], the effective
    signature of [m'] is that of [m]. *)
Theorem signature_persists (sd : ScoreData) (m m' : Z) :
  m ≤ m' →
  Forall (λ s, ms_measure s ≤ m ∨ m' < ms_measure s) (measureSignatures sd) →
  getEffectiveSignature m' sd = getEffectiveSignature m sd.
Proof.
  intros Hle Hall. unfold getEffectiveSignature.
  apply fold_applySignature_ext.
  eapply Forall_impl; [exact Hall |]. intros s Hs. cbn in Hs.
  destruct (ms_measure s <=? m) eqn:E1, (ms_measure s <=? m') eqn:E2; try done.
  - apply Z.leb_le in E1. apply Z.leb_gt in E2. lia.
  - apply Z.leb_gt in E1. apply Z.leb_le in E2. lia.
Qed.

Lemma signature_persists_witness :
  getEffectiveSignature 3 changingScore = getEffectiveSignature 2 changingScore ∧
  sig_tempo (getEffectiveSignature 3 changingScore) = Fin 120.
Proof.
  split; [| reflexivity].
  apply signature_persists; [lia |]. repeat constructor. cbn. lia.
Defined.

(** X3.  The three fields are resolved independently: two scores with the
    same base key and time signature, whose overrides agree pairwise on
    measure, key and time signature, have the same effective key and time
    signature at every measure, whatever their tempos are. *)
Theorem tempo_does_not_alter_key_or_time (sd sd' : ScoreData) (m : Z) :
  key_signature (score sd) = key_signature (score sd') →
  time_signature (score sd) = time_signature (score sd') →
  Forall2 same_key_and_time (measureSignatures sd) (measureSignatures sd') →
  key (getEffectiveSignature m sd) = key (getEffectiveSignature m sd') ∧
  time (getEffectiveSignature m sd) = time (getEffectiveSignature m sd').
Proof.
  intros Hk Ht Hall. unfold getEffectiveSignature.
  assert (G : ∀ acc acc', key acc = key acc' → time acc = time acc' →
    key (fold_left (applySignature m) (measureSignatures sd) acc)
    = key (fold_left (applySignature m) (measureSignatures sd') acc') ∧
    time (fold_left (applySignature m) (measureSignatures sd) acc)
    = time (fold_left (applySignature m) (measureSignatures sd') acc')).
  { induction Hall as [| s s' l l' (Hm & Hsk & Hst) _ IH]; intros acc acc' Hka Hta;
      [done |].
    cbn [fold_left]. apply IH; unfold applySignature; rewrite Hm;
      destruct (ms_measure s' <=? m); cbn; congruence. }
  by apply G.
Qed.

Lemma tempo_does_not_alter_key_or_time_witness :
  key (getEffectiveSignature 3 changingScore)
  = key (getEffectiveSignature 3
           {| score := baseScore; notes := [];
              measureSignatures :=
                [ {| ms_measure := 2; ms_key_signature := None;
                     ms_time_signature := Some "3/4"; ms_tempo := Some (Fin 66) |} ] |}) ∧
  time (getEffectiveSignature 3 changingScore)
  = time (getEffectiveSignature 3
            {| score := baseScore; notes := [];
               measureSignatures :=
                 [ {| ms_measure := 2; ms_key_signature := None;
                      ms_time_signature := Some "3/4"; ms_tempo := Some (Fin 66) |} ] |}).
Proof.
  apply tempo_does_not_alter_key_or_time; [reflexivity | reflexivity |].
  repeat constructor.
Defined.

(** X4.  The latest override in force wins: when the list of overrides
    holds an override of a measure up to [m] with a truthy tempo, and no
    override after it in the list both is for a measure up to [m] and has
    a truthy tempo, that tempo is the effective tempo of [m]. *)
Theorem latest_tempo_wins (sd : ScoreData) (m : Z)
    (before after : list MeasureSignature) (s : MeasureSignature) (t : num) :
  measureSignatures sd = (before ++ s :: after)%list →
  ms_measure s ≤ m →
  ms_tempo s = Some t →
  truthy_num t = true →
  Forall (λ s', m < ms_measure s' ∨ truthy_opt truthy_num (ms_tempo s') = false) after →
  sig_tempo (getEffectiveSignature m sd) = t.
Proof.
  intros Hl Hm Ht Htr Hafter. unfold getEffectiveSignature. rewrite Hl.
  rewrite fold_left_app. cbn [fold_left].
  generalize (fold_left (applySignature m) before
                {| key := key_signature (score sd);
                   time := time_signature (score sd);
                   sig_tempo := tempo (score sd) |}).
  intros acc.
  assert (Hs : sig_tempo (applySignature m acc s) = t).
  { unfold applySignature. apply Z.leb_le in Hm. rewrite Hm, Ht. cbn. by rewrite Htr. }
  revert Hs. generalize (applySignature m acc s). clear acc Hl.
  induction Hafter as [| s' l Hs' _ IH]; intros acc Hacc; [done |].
  cbn [fold_left]. apply IH. unfold applySignature.
  destruct (ms_measure s' <=? m) eqn:E; [| done].
  destruct Hs' as [Hlt | Hfalse]; [apply Z.leb_le in E; lia |].
  cbn. destruct (ms_tempo s') as [t' |]; cbn in *; [| done]. by rewrite Hfalse.
Qed.

Lemma latest_tempo_wins_witness :
  sig_tempo (getEffectiveSignature 7 changingScore) = Fin 120.
Proof.
  apply (latest_tempo_wins changingScore 7 [] []
           {| ms_measure := 2; ms_key_signature := None;
              ms_time_signature := Some "3/4"; ms_tempo := Some (Fin 120) |}).
  - reflexivity.
  - cbn. lia.
  - reflexivity.
  - reflexivity.
  - constructor.
Defined.

(** ** Pitch names and sample keys *)

Lemma pitch_pattern_in (p : string) : pitch_pattern p → p ∈ all_pitch_names.
Proof.
  intros (l & acc & d & Hl & Hacc & Hd & ->). unfold all_pitch_names.
  apply list_elem_of_bind. exists l. split; [| done].
  apply list_elem_of_bind. exists acc. split.
  - apply list_elem_of_bind. exists d. split; [apply list_elem_of_here | done].
  - destruct Hacc as [-> | [-> | ->]]; repeat constructor.
Qed.

(** A test that holds of every pitch name holds of every string that
    matches the pattern. *)
Lemma pitch_names_forallb (f : string → bool) :
  forallb f all_pitch_names = true → ∀ p, pitch_pattern p → f p = true.
Proof.
  intros Hall p Hp. rewrite forallb_forall in Hall.
  apply Hall, list_elem_of_In, pitch_pattern_in, Hp.
Qed.

(** X5.  Whatever string it is given, [pitchToSampleKey] returns a pitch
    name (letter, optional accidental, digit), and it returns that name
    unchanged when applied to it again. *)
Theorem sample_key_is_pitch_name (p : string) :
  pitch_pattern (pitchToSampleKey p) ∧
  pitchToSampleKey (pitchToSampleKey p) = pitchToSampleKey p.
Proof.
  destruct (matchPitch p) as [g |] eqn:Hm.
  - assert (Hp : pitch_pattern p) by (apply matchPitch_pattern; eauto).
    pose (f := λ s, bool_decide (is_Some (matchPitch (pitchToSampleKey s)))
                    && String.eqb (pitchToSampleKey (pitchToSampleKey s))
                                  (pitchToSampleKey s)).
    assert (Hf : f p = true).
    { apply pitch_names_forallb; [vm_compute; reflexivity | exact Hp]. }
    unfold f in Hf. apply andb_true_iff in Hf as [H1 H2].
    apply bool_decide_eq_true in H1. apply String.eqb_eq in H2.
    split; [by apply matchPitch_pattern | done].
  - assert (H : pitchToSampleKey p = "C4")
      by (unfold pitchToSampleKey; by rewrite Hm).
    rewrite H. split; [| reflexivity].
    apply matchPitch_pattern. vm_compute. eexists. reflexivity.
Qed.

(** X6.  The sample keys use flats: the key holds a sharp sign only for
    E sharp and B sharp, the two sharps that [SHARP_TO_FLAT] has no entry
    for (a sample of that name does not exist in the soundfont). *)
Theorem sample_key_sharp_only_for_E_and_B (p : string) :
  has_sharp (pitchToSampleKey p) = true ↔
  ∃ d, isDigit d = true ∧
       (p = String "E" (String "#" (String d "")) ∨
        p = String "B" (String "#" (String d ""))).
Proof.
  split.
  - intros Hs. destruct (matchPitch p) as [g |] eqn:Hm.
    + assert (Hp : pitch_pattern p) by (apply matchPitch_pattern; eauto).
      pose (f := λ s,
        implb (has_sharp (pitchToSampleKey s))
          match s with
          | String l (String a (String d EmptyString)) =>
              (Ascii.eqb l "E" || Ascii.eqb l "B") && Ascii.eqb a "#" && isDigit d
          | _ => false
          end).
      assert (Hf : f p = true).
      { apply pitch_names_forallb; [vm_compute; reflexivity | exact Hp]. }
      unfold f in Hf. rewrite Hs in Hf. cbn [implb] in Hf.
      destruct p as [| l [| a [| d [| ? ?]]]]; try discriminate Hf.
      apply andb_true_iff in Hf as [Hf Hd]. apply andb_true_iff in Hf as [Hl Ha].
      apply Ascii.eqb_eq in Ha as ->. exists d. split; [done |].
      apply orb_true_iff in Hl as [Hl | Hl]; apply Ascii.eqb_eq in Hl as ->; auto.
    + unfold pitchToSampleKey in Hs. rewrite Hm in Hs. discriminate Hs.
  - intros (d & Hd & [-> | ->]); unfold pitchToSampleKey, matchPitch;
      rewrite Hd; reflexivity.
Qed.

(** X7.  The sample that is fetched for a pitch name has the pitch that
    the synthesis fallback plays for it: renaming a sharp as the flat of
    the next letter does not change the frequency. *)
Theorem sample_key_same_frequency (p : string) :
  pitch_pattern p → pitchToFreq (pitchToSampleKey p) = pitchToFreq p.
Proof.
  intros Hp.
  pose (f := λ s,
    match pitchToFreq (pitchToSampleKey s), pitchToFreq s with
    | Tempered x, Tempered y => x =? y
    | _, _ => false
    end).
  assert (Hf : f p = true).
  { apply pitch_names_forallb; [vm_compute; reflexivity | exact Hp]. }
  unfold f in Hf.
  destruct (pitchToFreq (pitchToSampleKey p)), (pitchToFreq p); try discriminate Hf.
  apply Z.eqb_eq in Hf. by subst.
Qed.

Lemma sample_key_same_frequency_witness :
  pitchToSampleKey "G#3" = "Ab3" ∧ pitchToFreq "Ab3" = pitchToFreq "G#3".
Proof.
  split; [reflexivity |].
  apply (sample_key_same_frequency "G#3").
  apply matchPitch_pattern. vm_compute. eexists. reflexivity.
Defined.

(** ** The sample cache: cached, loaded and failed samples *)

Lemma preload_loop_cached (ns : list Note) :
  ∀ seen jobs c net,
    (∀ n, n ∈ ns → is_rest n = 0 → is_Some (_cache c !! cacheKey_of n)) →
    preload_loop ns seen jobs c net = (c, net, jobs).
Proof.
  induction ns as [| x ns IH]; intros seen jobs c net Hall; [done |].
  rewrite preload_loop_cons.
  assert (Hrest : ∀ n, n ∈ ns → is_rest n = 0 → is_Some (_cache c !! cacheKey_of n)).
  { intros n Hn. apply Hall, elem_of_cons. by right. }
  destruct (is_rest x =? 0) eqn:Hx; cbn [negb]; [| by apply IH].
  apply Z.eqb_eq in Hx.
  rewrite (bool_decide_eq_true_2 (is_Some (_cache c !! cacheKey_of x)))
    by (apply Hall; [apply list_elem_of_here | done]).
  rewrite orb_true_r. by apply IH.
Qed.

(** X8.  A score whose samples are all in the cache starts no fetch and
    gives [play] nothing to wait for: [preload] leaves the cache and the
    network as they are and collects no promise. *)
Theorem preload_of_cached_notes (c : SampleCache) (net : list Fetch) (ns : list Note) :
  (∀ n, n ∈ ns → is_rest n = 0 → is_Some (_cache c !! cacheKey_of n)) →
  preload c net ns = (c, net, []).
Proof. apply preload_loop_cached. Qed.

Lemma preload_of_cached_notes_witness :
  preload (_samples (engine scenarioLoaded)) (fetches scenarioLoaded) (notes scenarioScore)
  = (_samples (engine scenarioLoaded), fetches scenarioLoaded, []).
Proof.
  apply preload_of_cached_notes. intros n Hn _.
  apply list_elem_of_singleton in Hn as ->. vm_compute. eexists. reflexivity.
Defined.

(** X9.  Load, then look up: when a note to play has its sample neither
    cached nor in flight, [preload] issues a fetch for it and awaits it;
    once that load has succeeded, [get] returns the decoded sample for
    the note's instrument and pitch. *)
Theorem get_after_load (c : SampleCache) (net : list Fetch) (ns : list Note) (n : Note) :
  n ∈ ns → is_rest n = 0 →
  _cache c !! cacheKey_of n = None →
  _pending c !! cacheKey_of n = None →
  ∃ p f,
    (preload c net ns).1.2 !! p = Some f ∧
    fetch_key f = cacheKey_of n ∧
    p ∈ (preload c net ns).2 ∧
    SampleCache_get (_load_settle (preload c net ns).1.1 f true)
      (instrument_id n) (pitch n) = Some (fetch_url f).
Proof.
  intros Hn Hrest Hc Hp. unfold preload.
  destruct (preload_loop_jobs ns ∅ [] c net n Hn Hrest Hc) as [He | (p & Hpp & Hj)];
    [by apply elem_of_empty in He |].
  destruct (preload_loop_new ns ∅ [] c net (cacheKey_of n) p Hp Hpp)
    as (_ & f & Hf & Hk).
  exists p, f. repeat split; try done.
  unfold SampleCache_get, _load_settle. cbn [_cache].
  fold (cacheKey_of n). rewrite Hk. apply lookup_insert_eq.
Qed.

Lemma get_after_load_witness :
  ∃ p f,
    (preload (_samples newEngine) [] [celloNote]).1.2 !! p = Some f ∧
    fetch_key f = cacheKey_of celloNote ∧
    p ∈ (preload (_samples newEngine) [] [celloNote]).2 ∧
    SampleCache_get (_load_settle (preload (_samples newEngine) [] [celloNote]).1.1 f true)
      "cello" "C3" = Some (fetch_url f).
Proof.
  apply (get_after_load (_samples newEngine) [] [celloNote] celloNote).
  - apply list_elem_of_here.
  - reflexivity.
  - apply lookup_empty.
  - apply lookup_empty.
Defined.

(** X10.  A failed load leaves nothing behind: after the load of a note's
    sample has failed, [get] still finds no sample, no load is in flight
    for the key, and the next [preload] of the note fetches it again. *)
Theorem failed_load_is_fetched_again (c : SampleCache) (net : list Fetch)
    (ns : list Note) (n : Note) (f : Fetch) :
  n ∈ ns → is_rest n = 0 →
  _cache c !! cacheKey_of n = None →
  fetch_key f = cacheKey_of n →
  SampleCache_get (_load_settle c f false) (instrument_id n) (pitch n) = None ∧
  _pending (_load_settle c f false) !! cacheKey_of n = None ∧
  issued (cacheKey_of n) (preload (_load_settle c f false) net ns).1.2
  = S (issued (cacheKey_of n) net).
Proof.
  intros Hn Hrest Hc Hk.
  assert (Hp : _pending (_load_settle c f false) !! cacheKey_of n = None).
  { unfold _load_settle. cbn [_pending]. rewrite Hk. apply lookup_delete_eq. }
  split; [exact Hc |]. split; [exact Hp |].
  unfold preload. rewrite preload_loop_issued. unfold fetches_key.
  rewrite (bool_decide_eq_true_2 (cacheKey_of n ∉ ∅)) by apply not_elem_of_empty.
  rewrite (bool_decide_eq_true_2 _ Hp).
  cbn [_load_settle _cache]. rewrite (bool_decide_eq_true_2 _ Hc).
  rewrite (existsb_key (cacheKey_of n) ns) by (exists n; done).
  cbn. lia.
Qed.

Lemma failed_load_is_fetched_again_witness :
  SampleCache_get
    (_load_settle (preload (_samples newEngine) [] [celloNote]).1.1
       {| fetch_key := "cello:C3"; fetch_url := sample_url "cello" "C3" |} false)
    "cello" "C3" = None ∧
  issued "cello:C3"
    (preload
       (_load_settle (preload (_samples newEngine) [] [celloNote]).1.1
          {| fetch_key := "cello:C3"; fetch_url := sample_url "cello" "C3" |} false)
       (preload (_samples newEngine) [] [celloNote]).1.2 [celloNote]).1.2 = 2%nat.
Proof.
  destruct (failed_load_is_fetched_again
              (preload (_samples newEngine) [] [celloNote]).1.1
              (preload (_samples newEngine) [] [celloNote]).1.2
              [celloNote] celloNote
              {| fetch_key := "cello:C3"; fetch_url := sample_url "cello" "C3" |})
    as (H1 & _ & H3).
  - apply list_elem_of_here.
  - reflexivity.
  - vm_compute. reflexivity.
  - reflexivity.
  - split; [exact H1 | exact H3].
Defined.

(** ** Mute, solo and what is scheduled *)

(** X11.  Muting is undone by muting again: two calls of [toggleMute] for
    the same instrument leave the engine as it was. *)
Theorem toggleMute_twice (e : PlaybackEngine) (i : string) :
  toggleMute (toggleMute e i) i = e.
Proof.
  destruct e as [pl lo t0 m0 sn mu so omc opt af sa lm mst msb td].
  unfold toggleMute. cbn. f_equal.
  destruct (decide (i ∈ mu)) as [Hin | Hin].
  - rewrite (bool_decide_eq_true_2 _ Hin).
    rewrite bool_decide_eq_false_2
      by (rewrite elem_of_difference, elem_of_singleton; tauto).
    apply leibniz_equiv. intros x.
    rewrite elem_of_union, elem_of_difference, !elem_of_singleton.
    split; [intros [-> | [? _]]; done |].
    intros Hx. destruct (decide (x = i)); [by left | by right].
  - rewrite (bool_decide_eq_false_2 _ Hin).
    rewrite bool_decide_eq_true_2
      by (rewrite elem_of_union, elem_of_singleton; tauto).
    apply leibniz_equiv. intros x.
    rewrite elem_of_difference, elem_of_union, !elem_of_singleton.
    split; [intros [[-> | ?] Hne]; done |].
    intros Hx. split; [by right | by intros ->].
Qed.



(** ** Nodes over the life of the engine *)

(** X13.  In every browser that the event loop reaches, [stop()] leaves no
    node running: every node ever started has been stopped, whichever
    session it belongs to. *)
Theorem stop_leaves_nothing_running (b : Browser) :
  reachable b → ∀ i n, nodes (stop b) !! i = Some n → node_halted n = true.
Proof. intros Hreach. by apply stop_all_halted, reachable_tracked. Qed.

Lemma stop_leaves_nothing_running_witness :
  length (nodes scenarioPlaying) = 1%nat ∧
  ∀ i n, nodes (stop scenarioPlaying) !! i = Some n → node_halted n = true.
Proof.
  split; [reflexivity |].
  apply stop_leaves_nothing_running.
  exists [Call_play scenarioScore 1; Settle 0 true; Resume 0 (Fin 10)].
  vm_compute. reflexivity.
Defined.

Lemma foldl_halt_keeps (l : list nat) (ns : list AudioNode) (i : nat) (n : AudioNode) :
  ns !! i = Some n →
  ∃ n', foldl halt ns l !! i = Some n' ∧ node_made n' = node_made n ∧
        (node_halted n = true → node_halted n' = true).
Proof.
  intros Hn. rewrite foldl_halt_lookup, Hn. case_bool_decide.
  - exists (halted n). done.
  - exists n. done.
Qed.

Lemma step_keeps_nodes (b : Browser) (ev : Event) (b' : Browser) (i : nat) (n : AudioNode) :
  step b ev = Some b' → nodes b !! i = Some n →
  ∃ n', nodes b' !! i = Some n' ∧ node_made n' = node_made n ∧
        (node_halted n = true → node_halted n' = true).
Proof.
  intros Hstep Hn.
  destruct ev as [sd m | | j | j | mc pt | p ok | session now | f now | hs pn];
    cbn [step] in Hstep.
  - injection Hstep as <-.
    destruct (play_begin_spec b sd m) as (_ & _ & _ & Hnodes & _). rewrite Hnodes.
    by apply foldl_halt_keeps.
  - injection Hstep as <-. by apply foldl_halt_keeps.
  - injection Hstep as <-. by exists n.
  - injection Hstep as <-. by exists n.
  - injection Hstep as <-. by exists n.
  - destruct (fetches b !! p) as [ft |]; [| done].
    destruct (bool_decide (p ∈ settled b)); [done |].
    injection Hstep as <-. by exists n.
  - destruct (suspended b !! session) as [s |]; [| done].
    destruct (sus_resumed s); [done |].
    destruct (all_settled b (sus_jobs s)); [| done].
    injection Hstep as <-. destruct (playing (engine b)) eqn:Hp.
    + destruct (play_resume_playing b session s now Hp) as (_ & _ & _ & _ & Hnodes & _).
      rewrite Hnodes. exists n. split; [by apply lookup_app_l_Some | done].
    + unfold play_resume. rewrite Hp. by exists n.
  - destruct (frames b !! f) as [fr |]; [| done].
    injection Hstep as <-. unfold tick. cbn [engine drop_frame].
    destruct (negb (playing (engine b))); [by exists n |].
    destruct (nge _ _); [| by exists n].
    cbn [nodes add_calls stop drop_frame engine]. by apply foldl_halt_keeps.
  - injection Hstep as <-. by exists n.
Qed.

(** X14.  Over any run of the event loop a node keeps its place and what
    it was made with (kind, envelope, start and stop times, note and
    session), and a node that has been stopped stays stopped: nothing
    removes a node or starts one again. *)
Theorem nodes_persist (evs : list Event) (b b' : Browser) (i : nat) (n : AudioNode) :
  run b evs = Some b' → nodes b !! i = Some n →
  ∃ n', nodes b' !! i = Some n' ∧ node_made n' = node_made n ∧
        (node_halted n = true → node_halted n' = true).
Proof.
  revert b n. induction evs as [| ev evs IH]; intros b n; cbn [run].
  - intros [= <-] Hn. by exists n.
  - destruct (step b ev) as [b1 |] eqn:Hstep; [| done]. intros Hrun Hn.
    destruct (step_keeps_nodes b ev b1 i n Hstep Hn) as (n1 & Hn1 & Hm1 & Hh1).
    destruct (IH b1 n1 Hrun Hn1) as (n' & Hn' & Hm' & Hh').
    exists n'. split; [done |]. split; [congruence | auto].
Qed.

Lemma nodes_persist_witness :
  ∃ b' n n',
    run scenarioPlaying [Call_stop; Call_play scenarioScore 1; Resume 1 (Fin 20)]
    = Some b' ∧
    length (nodes b') = 2%nat ∧
    nodes scenarioPlaying !! 0%nat = Some n ∧
    nodes b' !! 0%nat = Some n' ∧
    node_made n' = node_made n ∧
    (node_halted n = true → node_halted n' = true).
Proof.
  destruct (run scenarioPlaying [Call_stop; Call_play scenarioScore 1; Resume 1 (Fin 20)])
    as [b' |] eqn:Hrun; [| vm_compute in Hrun; discriminate Hrun].
  destruct (nodes scenarioPlaying !! 0%nat) as [n |] eqn:Hn;
    [| vm_compute in Hn; discriminate Hn].
  destruct (nodes_persist _ _ _ 0%nat n Hrun Hn) as (n' & Hn' & Hmade & Hh).
  exists b', n, n'. split; [reflexivity |]. split; [| done].
  vm_compute in Hrun. injection Hrun as <-. reflexivity.
Defined.

(** ** The span that is played *)

(** X15.  [play] takes as its last measure the greatest measure that holds
    a note to play, or the start measure when none lies after it: rests,
    notes before the start measure and empty measures at the end do not
    lengthen the span. *)
Theorem lastNotesMeasure_is_greatest (fromMeasure : Z) (ns : list Note) :
  fromMeasure ≤ lastNotesMeasure fromMeasure ns ∧
  (∀ n, n ∈ ns → playable fromMeasure n = true →
        measure n ≤ lastNotesMeasure fromMeasure ns) ∧
  (lastNotesMeasure fromMeasure ns = fromMeasure ∨
   ∃ n, n ∈ ns ∧ playable fromMeasure n = true ∧
        measure n = lastNotesMeasure fromMeasure ns).
Proof.
  destruct (lastNotesMeasure_bounds fromMeasure ns) as [H1 H2].
  split; [exact H1 |]. split; [exact H2 |]. clear H1 H2.
  unfold lastNotesMeasure.
  assert (G : ∀ acc,
    let r := fold_left
               (λ last n,
                  if (is_rest n =? 0) && (fromMeasure <=? measure n) && (last <? measure n)
                  then measure n else last) ns acc in
    r = acc ∨ ∃ n, n ∈ ns ∧ playable fromMeasure n = true ∧ measure n = r).
  { induction ns as [| x ns IH]; intros acc; [by left |].
    cbn [fold_left].
    match goal with |- context [fold_left ?f ns ?a] =>
      destruct (IH a) as [Hr | (n & Hn & Hp & Hr)] end.
    - cbn zeta in Hr |- *. rewrite Hr.
      destruct ((is_rest x =? 0) && (fromMeasure <=? measure x)) eqn:Hx; cbn [andb];
        [| by left].
      destruct (acc <? measure x); [| by left].
      right. exists x. split; [apply list_elem_of_here | done].
    - right. exists n. split; [by apply elem_of_cons; right | done]. }
  apply (G fromMeasure).
Qed.

(** ** The playhead *)

Lemma findMeasure_spec (e : PlaybackEngine) (elapsed : num) (n : nat) :
  ∀ m cur,
    let r := findMeasure e elapsed n m cur in
    (r = cur ∧ (n = 0%nat ∨ nge elapsed (mStartOf e m) = false)) ∨
    (m ≤ r < m + Z.of_nat n ∧
     (∀ k, m ≤ k ≤ r → nge elapsed (mStartOf e k) = true) ∧
     (r + 1 < m + Z.of_nat n → nge elapsed (mStartOf e (r + 1)) = false)).
Proof.
  induction n as [| n IH]; intros m cur r; subst r; [left; auto |].
  cbn [findMeasure]. fold (mStartOf e m).
  destruct (nge elapsed (mStartOf e m)) eqn:Hm; [| left; auto].
  right. destruct (IH (m + 1) m) as [[Hr Hn] | (Hr & Hk & Hnext)].
  - cbn zeta in Hr. rewrite Hr. split; [lia |]. split.
    + intros k Hk. by replace k with m by lia.
    + intros Hlt. destruct Hn as [-> | Hn]; [lia | done].
  - cbn zeta in Hr, Hk, Hnext. split; [lia |]. split.
    + intros k Hk'. destruct (decide (k = m)) as [-> | Hne]; [done |].
      apply Hk. lia.
    + intros Hlt. apply Hnext. lia.
Qed.

(** X16.  The loop of [tick] that finds the current measure returns a
    measure of the span.  When the elapsed time has reached the start of
    the first measure, it has reached the start of the measure returned
    and of every measure before it, and it has not reached the start of
    the next measure, unless the measure returned is the last. *)
Theorem findMeasure_brackets (e : PlaybackEngine) (elapsed : num) (m0 last : Z) :
  let r := findMeasure e elapsed (Z.to_nat (last - m0 + 1)) m0 m0 in
  m0 ≤ r ≤ Z.max m0 last ∧
  (nge elapsed (mStartOf e m0) = true →
   (∀ k, m0 ≤ k ≤ r → nge elapsed (mStartOf e k) = true) ∧
   (r < last → nge elapsed (mStartOf e (r + 1)) = false)).
Proof.
  intros r. subst r.
  destruct (findMeasure_spec e elapsed (Z.to_nat (last - m0 + 1)) m0 m0)
    as [[Hr Hn] | (Hr & Hk & Hnext)]; cbn zeta in *.
  - rewrite Hr. split; [lia |]. intros H0. split.
    + intros k Hk. by replace k with m0 by lia.
    + intros Hlt. destruct Hn as [Hn | Hn]; [lia | congruence].
  - split; [lia |]. intros _. split; [exact Hk |]. intros Hlt. apply Hnext. lia.
Qed.







(** ** The envelope of a note *)

Lemma Math_min_fin (a b : Q) :
  (0 <= a)%Q → (0 <= b)%Q →
  ∃ c, Math_min (Fin a) (Fin b) = Fin c ∧ (0 <= c)%Q ∧ (c <= a)%Q ∧ (c <= b)%Q.
Proof.
  intros H0a H0b. cbn. destruct (Qle_bool a b) eqn:E.
  - exists a. apply Qle_bool_iff in E. split; [done |]. lra.
  - exists b. split; [done |].
    assert (¬ (a <= b)%Q) by (intros H; apply Qle_bool_iff in H; congruence). lra.
Qed.

Lemma nle_fin (a b : Q) : nle (Fin a) (Fin b) = true ↔ (a <= b)%Q.
Proof. cbn. apply Qle_bool_iff. Qed.

(** X18.  On the sample path every node of a note that starts at a finite
    time and lasts a finite time, not negative, has its automation in
    order: the events' times do not decrease, begin at the node's start
    and end by the node's stop (the attack, at most 15 % of the
    duration, and the release, at most 30 %, never cross). *)
Theorem sample_envelope_in_order (samples : SampleCache) (session : nat) (note : Note)
    (s d : Q) :
  is_Some (SampleCache_get samples (instrument_id note) (pitch note)) →
  (0 <= d)%Q →
  Forall (λ n, envelope_in_order n = true)
    (_scheduleNote samples session note (Fin s) (Fin d)).
Proof.
  intros [buf Hbuf] Hd. unfold _scheduleNote. rewrite Hbuf.
  destruct (Math_min_fin 0.06 (d * 0.15)) as (a & Ha & Ha0 & Ha1 & Ha2); [lra | lra |].
  destruct (Math_min_fin 0.2 (d * 0.3)) as (r & Hr & Hr0 & Hr1 & Hr2); [lra | lra |].
  destruct (Math_min_fin 0.4 (d * 0.5)) as (v & Hv & Hv0 & Hv1 & Hv2); [lra | lra |].
  assert (Hlfo : envelope_in_order
                   (lfoNode session note Detune (Fin 12) (Fin 0.1) (Fin s) (Fin d)) = true).
  { unfold envelope_in_order, lfoNode.
    cbn [node_start node_gain node_stop map event_time app nmul].
    rewrite Hv. cbn [nadd chronological].
    rewrite !andb_true_iff, !nle_fin. repeat split; lra. }
  assert (Hsrc : ∀ g k,
    envelope_in_order
      {| node_kind := k;
         node_gain :=
           [ setValueAtTime (Fin 0.001) (Fin s);
             exponentialRampToValueAtTime g (nadd (Fin s) (Math_min (Fin 0.06) (nmul (Fin d) (Fin 0.15))));
             setValueAtTime g (nadd (Fin s) (Math_min (Fin 0.06) (nmul (Fin d) (Fin 0.15))));
             exponentialRampToValueAtTime (Math_max (nmul g (Fin 0.85)) (Fin 0.001))
               (nsub (nadd (Fin s) (Fin d)) (Math_min (Fin 0.2) (nmul (Fin d) (Fin 0.3))));
             exponentialRampToValueAtTime (Fin 0.001) (nadd (Fin s) (Fin d)) ];
         node_start := Fin s;
         node_stop := nadd (nadd (Fin s) (Fin d)) (Fin 0.1);
         node_note := note_id note; node_session := session;
         node_halted := false |} = true).
  { intros g k. unfold envelope_in_order.
    cbn [node_start node_gain node_stop map event_time app nmul].
    rewrite Ha, Hr. cbn [nadd nsub nneg chronological].
    rewrite !andb_true_iff, !nle_fin. repeat split; lra. }
  destruct (vibrato note =? 1); cbn [app]; repeat constructor; try exact Hlfo; apply Hsrc.
Qed.

Lemma sample_envelope_in_order_witness :
  Forall (λ n, envelope_in_order n = true)
    (_scheduleNote (_samples (engine scenarioLoaded)) 0 scenarioNote (Fin 10.87) (Fin 0.5)).
Proof.
  apply sample_envelope_in_order.
  - vm_compute. eexists. reflexivity.
  - unfold Qle. cbn. lia.
Defined.

(** In doubles the edge is not at 0.15.  A sixteenth note at the base
    tempo 100 lasts [0.25 * (60 / 100)], the double of 0.15; over the
    sixteen sixteenths of the first measure, played from clock 0, the
    sustain point comes after the end of the attack for nine of them and
    before it for seven, as the sums round. *)
Example sixteenths_at_tempo_100_in_doubles :
  let secPerBeat := PrimFloat.div (Binary64.Z_to_double 60) (Binary64.Z_to_double 100) in
  let duration := Doubles.noteDur64 (Binary64.to_double (Fin 0.25)) secPerBeat in
  let start (k : nat) :=
    Doubles.noteStart64 (Binary64.Z_to_double 0) (Binary64.Z_to_double 0)
      (PrimFloat.add (Binary64.Z_to_double 1)
         (PrimFloat.mul (Binary64.to_double (Fin 0.25)) (Binary64.Z_to_double (Z.of_nat k))))
      secPerBeat in
  PrimFloat.eqb duration (Binary64.to_double (Fin 0.15)) = true ∧
  map (λ k, Doubles.sustain_after_attack64 (start k) duration) (seq 0 16)
  = [ true; true; true; true; true; true; false; false; false; false; false;
      false; false; true; true; true ].
Proof. vm_compute. split; reflexivity. Qed.

(** X19.  On the synthesis path the envelope is in order for the notes
    that last 0.151 s or more, and out of order for the notes that last
    0.149 s or less: the attack ends 0.05 s after the start and the
    sustain point is set 0.1 s before the end, so for a short note the
    sustain point comes before the end of the attack.  The start and the
    duration are taken up to 10^9 s, where the rounding of the sums in
    doubles stays far below the thousandth left on either side of 0.15;
    in between, the order depends on the rounding
    ([sixteenths_at_tempo_100_in_doubles]). *)
Theorem synth_envelope_in_order (samples : SampleCache) (session : nat) (note : Note)
    (s d : Q) :
  SampleCache_get samples (instrument_id note) (pitch note) = None →
  (0 <= s)%Q → (s <= 1000000000)%Q → (0 <= d)%Q → (d <= 1000000000)%Q →
  ((0.151 <= d)%Q →
   Forall (λ n, envelope_in_order n = true)
     (_scheduleNote samples session note (Fin s) (Fin d))) ∧
  ((d <= 0.149)%Q →
   ¬ Forall (λ n, envelope_in_order n = true)
       (_scheduleNote samples session note (Fin s) (Fin d))).
Proof.
  intros Hbuf _ _ Hd _. unfold _scheduleNote. rewrite Hbuf.
  destruct (Math_min_fin 0.4 (d * 0.5)) as (v & Hv & Hv0 & Hv1 & Hv2); [lra | lra |].
  assert (Hlfo : envelope_in_order
                   (lfoNode session note Frequency (Fin 3) (Fin 0.05) (Fin s) (Fin d)) = true).
  { unfold envelope_in_order, lfoNode.
    cbn [node_start node_gain node_stop map event_time app nmul].
    rewrite Hv. cbn [nadd chronological].
    rewrite !andb_true_iff, !nle_fin. repeat split; lra. }
  assert (Hosc : ∀ g1 g2 k,
    envelope_in_order
      {| node_kind := k;
         node_gain :=
           [ setValueAtTime (Fin 0.001) (Fin s);
             exponentialRampToValueAtTime g1 (nadd (Fin s) (Fin 0.05));
             setValueAtTime g2 (nsub (nadd (Fin s) (Fin d)) (Fin 0.1));
             exponentialRampToValueAtTime (Fin 0.001) (nadd (Fin s) (Fin d)) ];
         node_start := Fin s;
         node_stop := nadd (nadd (Fin s) (Fin d)) (Fin 0.05);
         node_note := note_id note; node_session := session;
         node_halted := false |} = true ↔ (0.15 <= d)%Q).
  { intros g1 g2 k. unfold envelope_in_order.
    cbn [node_start node_gain node_stop map event_time app nadd nsub nneg chronological].
    rewrite !andb_true_iff, !nle_fin. split; [intros; lra | intros; repeat split; lra]. }
  split.
  - intros Hlong.
    destruct (vibrato note =? 1); cbn [app]; repeat constructor;
      try exact Hlfo; apply Hosc; lra.
  - intros Hshort H.
    assert (0.15 <= d)%Q; [| lra].
    destruct (vibrato note =? 1); cbn [app] in H.
    + apply Forall_cons in H as [_ H]. apply Forall_cons in H as [H _].
      by apply Hosc in H.
    + apply Forall_cons in H as [H _]. by apply Hosc in H.
Qed.

Lemma synth_envelope_in_order_witness :
  ((0.151 <= 0.125)%Q →
   Forall (λ n, envelope_in_order n = true)
     (_scheduleNote (_samples newEngine) 0 celloNote (Fin 1) (Fin 0.125))) ∧
  ((0.125 <= 0.149)%Q →
   ¬ Forall (λ n, envelope_in_order n = true)
       (_scheduleNote (_samples newEngine) 0 celloNote (Fin 1) (Fin 0.125))).
Proof.
  apply (synth_envelope_in_order (_samples newEngine) 0 celloNote 1 0.125);
    [reflexivity | | | |]; unfold Qle; cbn; lia.
Defined.

Lemma dynGain_range (dyn : option string) :
  from_option table_key true dyn = true →
  within 0.3 1.6
    (match dyn with
     | Some d => table_or DYNAMIC_GAIN d (Fin 1)
     | None => Fin 1
     end).
Proof.
  destruct dyn as [d |]; cbn [from_option]; [| intros _; eexists; split; [done | lra]].
  unfold table_key, table_or. intros Hk. apply negb_true_iff in Hk. rewrite Hk.
  unfold DYNAMIC_GAIN;
    repeat (match goal with |- context [String.eqb ?a ?b] => destruct (String.eqb a b) end);
    cbn; eexists; (split; [reflexivity |]); lra.
Qed.

Lemma instGain_range (i : string) :
  table_key i = true → within 0.85 1.1 (table_or INST_GAIN i (Fin 1)).
Proof.
  unfold table_key, table_or. intros Hk. apply negb_true_iff in Hk. rewrite Hk.
  unfold INST_GAIN;
    repeat (match goal with |- context [String.eqb ?a ?b] => destruct (String.eqb a b) end);
    cbn; eexists; (split; [reflexivity |]); lra.
Qed.

Lemma Math_max_fin (a b : Q) :
  ∃ c, Math_max (Fin a) (Fin b) = Fin c ∧ (a <= c)%Q ∧ (b <= c)%Q ∧ (c <= a ∨ c <= b)%Q.
Proof.
  cbn. destruct (Qle_bool a b) eqn:E.
  - exists b. apply Qle_bool_iff in E. split; [done |]. lra.
  - exists a. split; [done |].
    assert (¬ (a <= b)%Q) by (intros H; apply Qle_bool_iff in H; congruence). lra.
Qed.

(** In doubles the loudest gain, fortissimo on the contrabass, is above
    1.76. *)
Example loudest_gain_in_doubles :
  PrimFloat.ltb (Binary64.to_double (Fin 1.76)) (Doubles.totalGain64 (Fin 1.6) (Fin 1.1))
  = true ∧
  PrimFloat.ltb (Doubles.totalGain64 (Fin 1.6) (Fin 1.1)) (Binary64.to_double (Fin 1.8))
  = true.
Proof. vm_compute. split; reflexivity. Qed.

(** X20.  Whatever the note, when its dynamic and its instrument are not
    names that the gain tables inherit from [Object.prototype] (for
    those the gain is [NaN]), each value that [_scheduleNote] ramps a
    gain to exponentially is a finite number, at least 0.001 and at most
    1.8: never zero, negative or not a number.  In exact arithmetic the
    greatest is 1.76, the loudest dynamic (1.6) on the loudest instrument
    (1.1); the bound leaves room for the rounding of the products in
    doubles, where that product is above 1.76
    ([loudest_gain_in_doubles]). *)
Theorem exponential_targets_positive (samples : SampleCache) (session : nat)
    (note : Note) (startTime duration : num) :
  from_option table_key true (dynamic note) = true →
  table_key (instrument_id note) = true →
  Forall (λ n, Forall (within 0.001 1.8) (exponential_targets n))
    (_scheduleNote samples session note startTime duration).
Proof.
  intros Hdyn Hinst.
  unfold _scheduleNote.
  destruct (dynGain_range (dynamic note) Hdyn) as (g & -> & Hg1 & Hg2).
  destruct (instGain_range (instrument_id note) Hinst) as (i & -> & Hi1 & Hi2).
  cbn [nmul].
  destruct (Math_max_fin (g * i * 0.85) 0.001) as (m & Hm & Hm1 & Hm2 & Hm3).
  assert (Hlo : (0.255 <= g * i)%Q) by nra.
  assert (Hhi : (g * i <= 1.76)%Q) by nra.
  assert (Hk : within 0.001 1.8 (Fin 0.001)) by (eexists; split; [done | lra]).
  assert (Hlfo : ∀ t depth tail,
             Forall (within 0.001 1.8)
               (exponential_targets (lfoNode session note t depth tail startTime duration)))
    by (intros; constructor).
  destruct (SampleCache_get samples (instrument_id note) (pitch note)) as [buf |];
    destruct (vibrato note =? 1); cbn [app];
    repeat (first [apply Forall_cons; split | apply Forall_nil]);
    try apply Hlfo; unfold exponential_targets; cbn [node_gain omap list_omap];
    rewrite ?Hm;
    repeat (first [apply Forall_cons; split | apply Forall_nil]);
    try exact Hk; eexists; (split; [reflexivity |]); lra.
Qed.

Lemma exponential_targets_positive_witness :
  Forall (λ n, Forall (within 0.001 1.8) (exponential_targets n))
    (_scheduleNote {| _cache := {[ cacheKey_of loudNote := "E2.mp3" ]}; _pending := ∅ |}
       0 loudNote (Fin 10.87) (Fin 0.5)).
Proof. apply exponential_targets_positive; reflexivity. Defined.

(** The gain of a note whose dynamic is an inherited name is [NaN], and
    so is the value that its envelope ramps to. *)
Example inherited_dynamic_gain :
  exponential_targets
    <$> _scheduleNote (_samples newEngine) 0
          {| note_id := "x"; instrument_id := "cello"; pitch := "C3"; measure := 1;
             beat := Fin 1; duration := "quarter"; is_rest := 0;
             dynamic := Some "constructor"; vibrato := 0 |} (Fin 0) (Fin 1)
  = [[NaN; Fin 0.001]].
Proof. reflexivity. Qed.

(** ** The routes of the measure signatures *)

Lemma stored_tempo_or_null (t : option num) :
  Server.tempo_out_of_range t = false →
  Server.or_null truthy_num t = None ∨
  ∃ q, Server.or_null truthy_num t = Some (Fin q) ∧ (20 <= q)%Q ∧ (q <= 300)%Q.
Proof.
  destruct t as [[q | | |] |]; cbn; try done; try (by left).
  intros H. apply orb_false_iff in H as [H1 H2].
  apply negb_false_iff in H1, H2. apply Qle_bool_iff in H1, H2.
  destruct (negb (is_zero q)); [right; by exists q | by left].
Qed.

(** X21.  From a new database, whatever the requests to PUT and DELETE
    measure signatures (the path holding a numeral, the body's tempo a
    number or left out), every row of the table is for a measure from 1
    to [total_measures] and stores a tempo that is [null] or between 20
    and 300. *)
Theorem rows_in_range (total_measures : Z) (rs : list Api.Request) (m : Z)
    (row : Server.Row) :
  served total_measures rs !! m = Some row →
  1 ≤ m ≤ total_measures ∧ stored_tempo row.
Proof.
  unfold served. revert m row.
  induction rs as [| r rs IH] using rev_ind; intros m row;
    [cbn [foldl]; by rewrite lookup_empty |].
  rewrite foldl_app. cbn [foldl].
  set (table := foldl (Api.handle total_measures) ∅ rs) in *.
  destruct r as [m' body | m']; cbn [Api.handle].
  - unfold Server.put_measure_signature.
    destruct ((m' <? 1) || (total_measures <? m')) eqn:Erange; [apply IH |].
    destruct (Server.tempo_out_of_range (Server.body_tempo body)) eqn:Etempo; [apply IH |].
    cbn [fst]. destruct (decide (m = m')) as [-> | Hne].
    + rewrite lookup_insert_eq. intros [= <-].
      apply orb_false_iff in Erange as [E1 E2].
      apply Z.ltb_ge in E1, E2. split; [lia |].
      unfold stored_tempo. cbn [Server.row_tempo]. by apply stored_tempo_or_null.
    + rewrite lookup_insert_ne by done. apply IH.
  - unfold Api.delete_measure_signature. destruct (decide (m = m')) as [-> | Hne].
    + by rewrite lookup_delete_eq.
    + rewrite lookup_delete_ne by done. apply IH.
Qed.

Lemma rows_in_range_witness :
  1 ≤ 2 ≤ 32 ∧
  stored_tempo {| Server.row_key_signature := Some "G";
                  Server.row_time_signature := Some "3/4";
                  Server.row_tempo := Some (Fin 120) |}.
Proof. apply (rows_in_range 32 scenarioRequests 2). reflexivity. Defined.

#[local] Instance by_measure_trans : Transitive Api.by_measure.
Proof. intros a b c. unfold Api.by_measure. lia. Qed.

#[local] Instance by_measure_total : Total Api.by_measure.
Proof. intros a b. unfold Api.by_measure. lia. Qed.

Lemma rows_sorted (table : gmap Z Server.Row) :
  StronglySorted Api.by_measure (merge_sort Api.by_measure (map_to_list table)).
Proof. apply StronglySorted_merge_sort; apply _. Qed.

Lemma rows_listed (table : gmap Z Server.Row) (m : Z) (row : Server.Row) :
  (m, row) ∈ merge_sort Api.by_measure (map_to_list table) ↔ table !! m = Some row.
Proof. rewrite merge_sort_Permutation. apply elem_of_map_to_list. Qed.

Lemma rows_NoDup (table : gmap Z Server.Row) :
  NoDup (merge_sort Api.by_measure (map_to_list table)).*1.
Proof. rewrite merge_sort_Permutation. apply NoDup_fst_map_to_list. Qed.

(** The listing splits at the row of a measure: the rows before it are
    for earlier measures, the rows after it for later ones. *)
Lemma select_split (table : gmap Z Server.Row) (m : Z) (row : Server.Row) :
  table !! m = Some row →
  ∃ l1 l2,
    Api.select_measure_signatures table = (l1 ++ Api.row_signature (m, row) :: l2)%list ∧
    Forall (λ s, ms_measure s < m) l1 ∧ Forall (λ s, m < ms_measure s) l2.
Proof.
  intros Hrow. apply rows_listed in Hrow.
  pose proof (rows_sorted table) as Hs. pose proof (rows_NoDup table) as Hd.
  unfold Api.select_measure_signatures.
  apply list_elem_of_split in Hrow as (L1 & L2 & HL). rewrite HL in Hs, Hd |- *.
  exists (Api.row_signature <$> L1), (Api.row_signature <$> L2).
  split; [by rewrite fmap_app |].
  rewrite fmap_app, fmap_cons in Hd. cbn [fst] in Hd.
  apply NoDup_app in Hd as (_ & Hd1 & Hd2). apply NoDup_cons in Hd2 as [Hd2 _].
  split; apply Forall_fmap, Forall_forall; intros [k r] Hk; cbn.
  - assert (k ≤ m).
    { eapply (StronglySorted_app_1_elem_of Api.by_measure L1 ((m, row) :: L2) (k, r) (m, row));
        [exact Hs | done | left]. }
    assert (k ≠ m).
    { intros ->. eapply Hd1; [apply list_elem_of_fmap; by exists (m, r) | left]. }
    lia.
  - apply StronglySorted_app_1_r in Hs. apply StronglySorted_cons in Hs as [Hs _].
    rewrite Forall_forall in Hs. specialize (Hs _ Hk). unfold Api.by_measure in Hs.
    cbn in Hs.
    assert (k ≠ m).
    { intros ->. apply Hd2. apply list_elem_of_fmap. by exists (m, r). }
    lia.
Qed.

Lemma select_absent (table : gmap Z Server.Row) (m : Z) :
  table !! m = None →
  Forall (λ s, ms_measure s ≠ m) (Api.select_measure_signatures table).
Proof.
  intros Hnone. unfold Api.select_measure_signatures.
  apply Forall_fmap, Forall_forall. intros [k r] Hk. cbn. intros ->.
  apply rows_listed in Hk. congruence.
Qed.

Lemma fold_applySignature_later (m : Z) (l : list MeasureSignature) :
  Forall (λ s, m < ms_measure s) l →
  ∀ acc, fold_left (applySignature m) l acc = acc.
Proof.
  induction 1 as [| s l Hs _ IH]; intros acc; [done |].
  cbn [fold_left]. rewrite IH. unfold applySignature.
  destruct (ms_measure s <=? m) eqn:E; [| done]. apply Z.leb_le in E. lia.
Qed.

(** With a row for [m] in the table, the signature of [m] is the row laid
    over the signature of the measure before. *)
Lemma resolve_at_row (s : Score) (ns : list Note) (table : gmap Z Server.Row)
    (m : Z) (row : Server.Row) :
  table !! m = Some row →
  getEffectiveSignature m (Api.get_score s ns table)
  = applySignature m (getEffectiveSignature (m - 1) (Api.get_score s ns table))
      (Api.row_signature (m, row)).
Proof.
  intros Hrow. destruct (select_split table m row Hrow) as (l1 & l2 & Hl & H1 & H2).
  unfold getEffectiveSignature, Api.get_score. cbn [measureSignatures score].
  rewrite Hl, !fold_left_app. cbn [fold_left].
  rewrite (fold_applySignature_later m l2) by done.
  rewrite (fold_applySignature_later (m - 1) l2)
    by (eapply Forall_impl; [exact H2 | cbn; intros; lia]).
  assert (Hskip : applySignature (m - 1)
            (fold_left (applySignature (m - 1)) l1
               {| key := key_signature s; time := time_signature s; sig_tempo := tempo s |})
            (Api.row_signature (m, row))
          = fold_left (applySignature (m - 1)) l1
               {| key := key_signature s; time := time_signature s; sig_tempo := tempo s |}).
  { unfold applySignature at 1. cbn [ms_measure Api.row_signature fst].
    destruct (m <=? m - 1) eqn:E; [apply Z.leb_le in E; lia | done]. }
  rewrite Hskip. f_equal. apply fold_applySignature_ext.
  eapply Forall_impl; [exact H1 |]. cbn. intros x Hx.
  transitivity true; [apply Z.leb_le; lia | symmetry; apply Z.leb_le; lia].
Qed.

(** X22.  After DELETE of the signature of measure [m], the score that GET
    serves gives measure [m] the signature of the measure before it: the
    measure reverts to what holds before it (for measure 1, to the
    score's own signature). *)
Theorem delete_reverts (s : Score) (ns : list Note) (table : gmap Z Server.Row) (m : Z) :
  getEffectiveSignature m (Api.get_score s ns (Api.delete_measure_signature table m))
  = getEffectiveSignature (m - 1)
      (Api.get_score s ns (Api.delete_measure_signature table m)).
Proof.
  unfold getEffectiveSignature, Api.get_score. cbn [measureSignatures score].
  apply fold_applySignature_ext.
  eapply Forall_impl;
    [apply (select_absent (Api.delete_measure_signature table m) m), lookup_delete_eq |].
  cbn. intros x Hx.
  destruct (ms_measure x <=? m) eqn:E1, (ms_measure x <=? m - 1) eqn:E2; try done.
  - apply Z.leb_le in E1. apply Z.leb_gt in E2. lia.
  - apply Z.leb_gt in E1. apply Z.leb_le in E2. lia.
Qed.

Lemma or_else_or_null {A} (t : A → bool) (v : option A) (d : A) :
  or_else t (Server.or_null t v) d = or_else t v d.
Proof.
  destruct v as [a |]; [| done]. cbn. destruct (t a) eqn:E; [| done]. cbn. by rewrite E.
Qed.

(** X23.  After a PUT that the server accepts (measure from 1 to
    [total_measures], tempo in range or left out), the score that GET
    serves gives the measure each field of the body that is set (not
    [null], empty or 0), and for each other field what holds at the
    measure before: the rows come in the order of their measures, so no
    other row is laid over it. *)
Theorem put_then_resolve (total_measures : Z) (table : gmap Z Server.Row) (m : Z)
    (body : Server.Body) (s : Score) (ns : list Note) :
  1 ≤ m ≤ total_measures →
  Server.tempo_out_of_range (Server.body_tempo body) = false →
  let sd := Api.get_score s ns
              (Server.put_measure_signature total_measures table m body).1 in
  let before := getEffectiveSignature (m - 1) sd in
  getEffectiveSignature m sd
  = {| key := or_else truthy_str (Server.body_key_signature body) (key before);
       time := or_else truthy_str (Server.body_time_signature body) (time before);
       sig_tempo := or_else truthy_num (Server.body_tempo body) (sig_tempo before) |}.
Proof.
  intros [Hlo Hhi] Htempo. unfold Server.put_measure_signature.
  assert (Hrange : (m <? 1) || (total_measures <? m) = false).
  { apply orb_false_iff. split; apply Z.ltb_ge; lia. }
  rewrite Hrange, Htempo. cbn [fst].
  erewrite resolve_at_row by apply lookup_insert_eq. unfold applySignature.
  cbn [Api.row_signature ms_measure ms_key_signature ms_time_signature ms_tempo fst snd
       Server.row_key_signature Server.row_time_signature Server.row_tempo].
  rewrite Z.leb_refl. by rewrite !or_else_or_null.
Qed.


Lemma put_then_resolve_witness :
  getEffectiveSignature 5
    (Api.get_score baseScore []
       (Server.put_measure_signature 32 (served 32 scenarioRequests) 5 scenarioBody).1)
  = {| key := "G"; time := "3/4"; sig_tempo := Fin 120 |}.
Proof.
  rewrite (put_then_resolve 32 (served 32 scenarioRequests) 5 scenarioBody baseScore []);
    [reflexivity | lia | reflexivity].
Defined.

(** ** The rests that fill a measure *)

Lemma Qnat_S (k : nat) : (Qnat (S k) == Qnat k + 1)%Q.
Proof. unfold Qnat. rewrite Nat2Z.inj_succ, <- Z.add_1_r, inject_Z_plus. reflexivity. Qed.

Lemma Qnat_nonneg (k : nat) : (0 <= Qnat k)%Q.
Proof. unfold Qnat. change 0%Q with (inject_Z 0). rewrite <- Zle_Qle. lia. Qed.

Lemma Qnat_lt_2 (k : nat) : (Qnat k < 2)%Q → (k ≤ 1)%nat.
Proof. unfold Qnat. change 2%Q with (inject_Z 2). rewrite <- Zlt_Qlt. lia. Qed.

Lemma total_beats_app (l l' : list Notation.StaveNote) :
  (total_beats (l ++ l') == total_beats l + total_beats l')%Q.
Proof.
  unfold total_beats. induction l as [| n l IH]; cbn [app foldr].
  - by rewrite Qplus_0_l.
  - rewrite IH. by rewrite Qplus_assoc.
Qed.

Lemma total_beats_replicate (k : nat) (n : Notation.StaveNote) :
  (total_beats (replicate k n) == Qnat k * rest_beats n)%Q.
Proof.
  unfold total_beats. induction k as [| k IH]; cbn [replicate foldr].
  - unfold Qnat. cbn [Z.of_nat]. by rewrite Qmult_0_l.
  - rewrite IH, Qnat_S. ring.
Qed.

(** The loop for one duration, on a finite [rem]: it ends within the
    fuel, after [k] pushes. *)
Lemma rest_loop_spec (clef : string) (d : Q) (v : string) :
  (0.001 < d)%Q →
  ∀ (fuel : nat) (arr : list Notation.StaveNote) (r : Q),
    (r + 0.001 < d * (Qnat fuel + 1))%Q →
    ∃ (k : nat) (r' : Q),
      Notation.rest_loop (S fuel) clef (Fin d) v arr (Fin r)
      = Some ((arr ++ replicate k (Notation.restNote clef v))%list, Fin r') ∧
      (r' == r - Qnat k * d)%Q ∧ (r' < d - 0.001)%Q ∧
      ((k = 0%nat ∧ r' = r) ∨ ((1 ≤ k)%nat ∧ (-0.001 <= r')%Q)).
Proof.
  intros Hd. induction fuel as [| fuel IH]; intros arr r Hr.
  - exists 0%nat, r. cbn [Notation.rest_loop nsub nneg nadd nge nle].
    change (Qnat 0) with 0%Q in *.
    destruct (Qle_bool _ r) eqn:E.
    { apply Qle_bool_iff in E. lra. }
    apply not_true_iff_false in E. rewrite Qle_bool_iff in E.
    cbn [replicate]. rewrite app_nil_r. split; [done |].
    split; [lra |]. split; [lra | by left].
  - change (Notation.rest_loop (S (S fuel)) clef (Fin d) v arr (Fin r))
      with (if nge (Fin r) (nsub (Fin d) (Fin 0.001))
            then Notation.rest_loop (S fuel) clef (Fin d) v
                   (arr ++ [Notation.restNote clef v])%list (nsub (Fin r) (Fin d))
            else Some (arr, Fin r)).
    cbn [nsub nneg nadd nge nle].
    destruct (Qle_bool _ r) eqn:E.
    + apply Qle_bool_iff in E.
      destruct (IH (arr ++ [Notation.restNote clef v])%list (r + - d)%Q)
        as (k & r' & Hrun & Hr' & Hlt & Hk).
      { rewrite Qnat_S in Hr. lra. }
      exists (S k), r'. rewrite Hrun, <- app_assoc. cbn [app replicate].
      split; [done |]. split; [rewrite Qnat_S; lra |]. split; [done |].
      right. split; [lia |]. destruct Hk as [[-> ->] | [_ Hk]]; lra.
    + apply not_true_iff_false in E. rewrite Qle_bool_iff in E.
      exists 0%nat, r. change (Qnat 0) with 0%Q. cbn [replicate]. rewrite app_nil_r.
      split; [done |]. split; [lra |]. split; [lra | by left].
Qed.


Lemma Qnat_le (n k : nat) : (n ≤ k)%nat → (Qnat n <= Qnat k)%Q.
Proof. intros H. unfold Qnat. rewrite <- Zle_Qle. lia. Qed.

(** The five loops in turn, on a finite number of beats. *)
Lemma pushRests_spec (fuel : nat) (arr : list Notation.StaveNote) (b : Q) (clef : string) :
  (4 * b <= Qnat fuel)%Q →
  ∃ (w h q e s : nat) (r : Q),
    Notation.pushRests (S fuel) arr (Fin b) clef
    = Some ((arr ++ replicate w (Notation.restNote clef "w")
                 ++ replicate h (Notation.restNote clef "h")
                 ++ replicate q (Notation.restNote clef "q")
                 ++ replicate e (Notation.restNote clef "8")
                 ++ replicate s (Notation.restNote clef "16"))%list, Fin r) ∧
    ((h ≤ 1)%nat ∧ (q ≤ 1)%nat ∧ (e ≤ 1)%nat ∧ (s ≤ 1)%nat) ∧
    (r == b - (4 * Qnat w + 2 * Qnat h + Qnat q + 0.5 * Qnat e + 0.25 * Qnat s))%Q ∧
    (r < 0.249)%Q ∧ ((-0.001 <= b)%Q → (-0.001 <= r)%Q).
Proof.
  intros Hf. pose proof (Qnat_nonneg fuel) as H0.
  unfold Notation.pushRests, Notation.REST_DURATIONS.
  cbn [foldl fst snd mbind option_bind].
  destruct (rest_loop_spec clef 4 "w" ltac:(lra) fuel arr b)
    as (w & r1 & -> & E1 & L1 & K1); [lra |].
  pose proof (Qnat_nonneg w) as Hw. cbn [mbind option_bind].
  destruct (rest_loop_spec clef 2 "h" ltac:(lra) fuel
              (arr ++ replicate w (Notation.restNote clef "w"))%list r1)
    as (h & r2 & -> & E2 & L2 & K2); [lra |].
  pose proof (Qnat_nonneg h) as Hh. cbn [mbind option_bind].
  destruct (rest_loop_spec clef 1 "q" ltac:(lra) fuel
              ((arr ++ replicate w (Notation.restNote clef "w"))
                 ++ replicate h (Notation.restNote clef "h"))%list r2)
    as (q & r3 & -> & E3 & L3 & K3); [lra |].
  pose proof (Qnat_nonneg q) as Hq. cbn [mbind option_bind].
  destruct (rest_loop_spec clef 0.5 "8" ltac:(lra) fuel
              (((arr ++ replicate w (Notation.restNote clef "w"))
                  ++ replicate h (Notation.restNote clef "h"))
                 ++ replicate q (Notation.restNote clef "q"))%list r3)
    as (e & r4 & -> & E4 & L4 & K4); [lra |].
  pose proof (Qnat_nonneg e) as He. cbn [mbind option_bind].
  destruct (rest_loop_spec clef 0.25 "16" ltac:(lra) fuel
              ((((arr ++ replicate w (Notation.restNote clef "w"))
                   ++ replicate h (Notation.restNote clef "h"))
                  ++ replicate q (Notation.restNote clef "q"))
                 ++ replicate e (Notation.restNote clef "8"))%list r4)
    as (s & r5 & -> & E5 & L5 & K5); [lra |].
  pose proof (Qnat_nonneg s) as Hs.
  exists w, h, q, e, s, r5. rewrite <- !app_assoc. split; [done |].
  split.
  { repeat split; apply Qnat_lt_2.
    - destruct K2 as [[-> _] | [_ K2]]; [change (Qnat 0) with 0%Q |]; lra.
    - destruct K3 as [[-> _] | [_ K3]]; [change (Qnat 0) with 0%Q |]; lra.
    - destruct K4 as [[-> _] | [_ K4]]; [change (Qnat 0) with 0%Q |]; lra.
    - destruct K5 as [[-> _] | [_ K5]]; [change (Qnat 0) with 0%Q |]; lra. }
  split; [lra |]. split; [lra |]. intros Hb.
  assert (-0.001 <= r1)%Q by (destruct K1 as [[_ ->] | [_ K1]]; lra).
  assert (-0.001 <= r2)%Q by (destruct K2 as [[_ ->] | [_ K2]]; lra).
  assert (-0.001 <= r3)%Q by (destruct K3 as [[_ ->] | [_ K3]]; lra).
  assert (-0.001 <= r4)%Q by (destruct K4 as [[_ ->] | [_ K4]]; lra).
  destruct K5 as [[_ ->] | [_ K5]]; lra.
Qed.

Lemma total_beats_rests (clef : string) (w h q e s : nat) :
  (total_beats (replicate w (Notation.restNote clef "w")
                ++ replicate h (Notation.restNote clef "h")
                ++ replicate q (Notation.restNote clef "q")
                ++ replicate e (Notation.restNote clef "8")
                ++ replicate s (Notation.restNote clef "16"))
   == 4 * Qnat w + 2 * Qnat h + Qnat q + 0.5 * Qnat e + 0.25 * Qnat s)%Q.
Proof.
  rewrite !total_beats_app, !total_beats_replicate.
  change (rest_beats (Notation.restNote clef "w")) with 4%Q.
  change (rest_beats (Notation.restNote clef "h")) with 2%Q.
  change (rest_beats (Notation.restNote clef "q")) with 1%Q.
  change (rest_beats (Notation.restNote clef "8")) with 0.5%Q.
  change (rest_beats (Notation.restNote clef "16")) with 0.25%Q.
  ring.
Qed.

(** In doubles the threshold [0.25 - 0.001] is the double of 0.249, which
    is below 0.249.  Asked for that many beats, the code pushes a
    sixteenth rest and is left with less than -0.001; in exact arithmetic
    the same number of beats is below the threshold and nothing is
    pushed. *)
Example rest_at_threshold_in_doubles :
  let beats := Binary64.to_double (Fin 0.249) in
  (∃ r, Doubles.pushRests64 5 [] beats "treble"
        = Some ([Notation.restNote "treble" "16"], r) ∧
        PrimFloat.ltb r (Binary64.to_double (Fin (-0.001))) = true ∧
        PrimFloat.ltb (Binary64.to_double (Fin (-0.002))) r = true) ∧
  Notation.pushRests 5 [] (Doubles.exact beats) "treble" = Some ([], Doubles.exact beats).
Proof.
  cbn zeta. split.
  - eexists. split; [vm_compute; reflexivity |]. vm_compute. split; reflexivity.
  - vm_compute. reflexivity.
Qed.

(** X24.  On a number of beats up to a million [pushRests] ends, and
    appends to the array only rests of the clef, at the clef's rest
    position.  The beats of the rests appended add up to the beats asked
    for less a remainder that is below 0.25 and, when the beats asked
    for are not negative, above -0.002.  In exact arithmetic the
    remainder lies from -0.001 to 0.249; the thousandth more on either
    side covers the rounding of the thresholds in doubles
    ([rest_at_threshold_in_doubles]), the subtractions being exact
    there for beats below 2^53. *)
Theorem pushRests_fills (fuel : nat) (arr : list Notation.StaveNote) (b : Q)
    (clef : string) :
  (b <= 1000000)%Q →
  (4 * b <= Qnat fuel)%Q →
  ∃ (rests : list Notation.StaveNote) (r : Q),
    Notation.pushRests (S fuel) arr (Fin b) clef = Some ((arr ++ rests)%list, Fin r) ∧
    Forall (λ n, Notation.sn_clef n = clef ∧
                 Notation.sn_keys n = [Notation.restPosition clef]) rests ∧
    (total_beats rests == b - r)%Q ∧
    (r < 0.25)%Q ∧ ((0 <= b)%Q → (-0.002 < r)%Q).
Proof.
  intros _ Hf.
  destruct (pushRests_spec fuel arr b clef Hf)
    as (w & h & q & e & s & r & Hrun & _ & Hr & Hlt & Hlo).
  eexists _, r. split; [exact Hrun |]. split.
  { rewrite !Forall_app. repeat split; apply Forall_forall;
      intros x Hx; apply elem_of_replicate in Hx as [-> _]; done. }
  split; [rewrite total_beats_rests; lra |]. split; [lra |].
  intros Hb. assert (-0.001 <= r)%Q by (apply Hlo; lra). lra.
Qed.

Lemma pushRests_fills_witness :
  ∃ (rests : list Notation.StaveNote) (r : Q),
    Notation.pushRests 13 [] (Fin 2.8) "alto" = Some (([] ++ rests)%list, Fin r) ∧
    Forall (λ n, Notation.sn_clef n = "alto" ∧
                 Notation.sn_keys n = [Notation.restPosition "alto"]) rests ∧
    (total_beats rests == 2.8 - r)%Q ∧
    (r < 0.25)%Q ∧ ((0 <= 2.8)%Q → (-0.002 < r)%Q).
Proof.
  apply (pushRests_fills 12 [] 2.8 "alto"); unfold Qle; cbn; lia.
Defined.

(** X25.  A gap of a whole number of sixteenths (a multiple of 0.25
    beats) is filled exactly: nothing is left over, and the rests
    appended add up to the gap. *)
Theorem pushRests_whole_sixteenths (fuel : nat) (arr : list Notation.StaveNote)
    (n : nat) (clef : string) :
  (n ≤ fuel)%nat →
  ∃ (rests : list Notation.StaveNote) (r : Q),
    Notation.pushRests (S fuel) arr (Fin (0.25 * Qnat n)) clef
    = Some ((arr ++ rests)%list, Fin r) ∧
    (r == 0)%Q ∧ (total_beats rests == 0.25 * Qnat n)%Q.
Proof.
  intros Hn. apply Qnat_le in Hn. pose proof (Qnat_nonneg n) as H0.
  destruct (pushRests_spec fuel arr (0.25 * Qnat n) clef ltac:(lra))
    as (w & h & q & e & s & r & Hrun & _ & Hr & Hlt & Hlo).
  specialize (Hlo ltac:(lra)).
  eexists _, r. split; [exact Hrun |].
  set (z := Z.of_nat n + - (16 * Z.of_nat w + 8 * Z.of_nat h + 4 * Z.of_nat q
                             + 2 * Z.of_nat e + Z.of_nat s)).
  assert (Hz : (inject_Z z == 4 * r)%Q).
  { unfold z.
    rewrite inject_Z_plus, inject_Z_opp, !inject_Z_plus, !inject_Z_mult.
    fold (Qnat n) (Qnat w) (Qnat h) (Qnat q) (Qnat e) (Qnat s).
    change (inject_Z 16) with 16%Q. change (inject_Z 8) with 8%Q.
    change (inject_Z 4) with 4%Q. change (inject_Z 2) with 2%Q. lra. }
  assert (z = 0).
  { assert (inject_Z (-1) < inject_Z z)%Q by (change (inject_Z (-1)) with (-1)%Q; lra).
    assert (inject_Z z < inject_Z 1)%Q by (change (inject_Z 1) with 1%Q; lra).
    rewrite <- Zlt_Qlt in *. lia. }
  assert (Hr0 : (r == 0)%Q)
    by (clearbody z; subst z; change (inject_Z 0) with 0%Q in Hz; lra).
  split; [done |]. rewrite total_beats_rests. lra.
Qed.

Lemma pushRests_whole_sixteenths_witness :
  ∃ (rests : list Notation.StaveNote) (r : Q),
    Notation.pushRests 12 [] (Fin (0.25 * Qnat 11)) "bass"
    = Some (([] ++ rests)%list, Fin r) ∧
    (r == 0)%Q ∧ (total_beats rests == 0.25 * Qnat 11)%Q.
Proof. apply (pushRests_whole_sixteenths 11 [] 11 "bass"). lia. Defined.

(** X26.  The rests that [pushRests] appends come longest first: whole
    rests, then at most one half, one quarter, one eighth and one
    sixteenth rest. *)
Theorem pushRests_longest_first (fuel : nat) (arr : list Notation.StaveNote) (b : Q)
    (clef : string) :
  (4 * b <= Qnat fuel)%Q →
  ∃ (rests : list Notation.StaveNote) (r : num),
    Notation.pushRests (S fuel) arr (Fin b) clef = Some ((arr ++ rests)%list, r) ∧
    longest_first clef rests.
Proof.
  intros Hf.
  destruct (pushRests_spec fuel arr b clef Hf)
    as (w & h & q & e & s & r & Hrun & Hk & _).
  eexists _, (Fin r). split; [exact Hrun |]. by exists w, h, q, e, s.
Qed.

Lemma pushRests_longest_first_witness :
  ∃ (rests : list Notation.StaveNote) (r : num),
    Notation.pushRests 41 [] (Fin 9.75) "treble" = Some (([] ++ rests)%list, r) ∧
    longest_first "treble" rests.
Proof. apply (pushRests_longest_first 40 [] 9.75 "treble"). unfold Qle. cbn. lia. Defined.
